(** * deepagents-runner: agent selection, execution with fallback and
    workflow state

    A shallow embedding of the core of the runner:

    - [deepagents_runner/models/__init__.py], [models/workflow.py]
    - [deepagents_runner/core/agents.py]   (capability matching, selection,
      execution with fallback)
    - [deepagents_runner/core/state.py], [utils/files.py] (persistence)
    - [deepagents_runner/core/commands.py] (the handlers that move the
      workflow state)

    Python objects become records, [Optional] becomes [option], exceptions
    become the [Raise] branch of [result], and everything that touches the
    provider, the clock or the disk threads a [World] explicitly. *)

From stdpp Require Import base option list strings gmap pretty sorting.
From Stdlib Require Import ZArith QArith Qcanon Ascii String Lia.
From Stdlib Require Floats.SpecFloat.

Set Warnings "-register-all".
Set Default Proof Using "Type".

Local Open Scope string_scope.
Local Open Scope Z_scope.
Local Open Scope list_scope.

(* ================================================================= *)
(** ** Strings *)

(** Python [str] values are modelled as sequences of code points below 256
    (Latin-1); [str.lower] on that range moves [A-Z] and the accented
    capitals U+00C0..U+00DE (without the multiplication sign U+00D7) down
    by 32 and leaves every other code point alone. *)

Definition lower_char (c : ascii) : ascii :=
  let n := N_of_ascii c in
  if ((65 <=? n) && (n <=? 90))%N then ascii_of_N (n + 32)
  else if ((192 <=? n) && (n <=? 222) && negb (n =? 215))%N
       then ascii_of_N (n + 32)
  else c.

Fixpoint lower (s : string) : string :=
  match s with
  | EmptyString => EmptyString
  | String c s' => String (lower_char c) (lower s')
  end.

(** [needle in haystack] for two strings. *)
Fixpoint contains (needle haystack : string) : bool :=
  String.prefix needle haystack ||
  match haystack with
  | EmptyString => false
  | String _ rest => contains needle rest
  end.

(** [needle] occurs in [s]: what [needle in s] decides, said without a
    search. *)
Definition occurs_in (needle s : string) : Prop :=
  ∃ before after, s = before +:+ needle +:+ after.

(** Truthiness of a string: [bool(s)]. *)
Definition str_truthy (s : string) : bool :=
  match s with EmptyString => false | _ => true end.

(* ================================================================= *)
(** ** models/__init__.py *)

Inductive CommandType :=
| CONSTITUTION | SPECIFY | CLARIFY | PLAN | TASKS | IMPLEMENT | ANALYZE
| CHECKLIST.

Inductive WorkflowPhase :=
| PH_DRAFT | PH_CONSTITUTION | PH_SPECIFY | PH_CLARIFY | PH_PLAN | PH_TASKS
| PH_IMPLEMENT.

#[global] Instance CommandType_eq_dec : EqDecision CommandType.
Proof. solve_decision. Defined.
#[global] Instance WorkflowPhase_eq_dec : EqDecision WorkflowPhase.
Proof. solve_decision. Defined.

(** [CommandType.X.value] *)
Definition command_value (c : CommandType) : string :=
  match c with
  | CONSTITUTION => "constitution" | SPECIFY => "specify"
  | CLARIFY => "clarify" | PLAN => "plan" | TASKS => "tasks"
  | IMPLEMENT => "implement" | ANALYZE => "analyze"
  | CHECKLIST => "checklist"
  end.

Definition all_commands : list CommandType :=
  [CONSTITUTION; SPECIFY; CLARIFY; PLAN; TASKS; IMPLEMENT; ANALYZE; CHECKLIST].

(** [CommandType(s)]: lookup by value, [None] standing for [ValueError]. *)
Definition command_of_value (s : string) : option CommandType :=
  List.find (fun c => String.eqb (command_value c) s) all_commands.

Definition phase_value (p : WorkflowPhase) : string :=
  match p with
  | PH_DRAFT => "draft" | PH_CONSTITUTION => "constitution"
  | PH_SPECIFY => "specify" | PH_CLARIFY => "clarify" | PH_PLAN => "plan"
  | PH_TASKS => "tasks" | PH_IMPLEMENT => "implement"
  end.

Definition all_phases : list WorkflowPhase :=
  [PH_DRAFT; PH_CONSTITUTION; PH_SPECIFY; PH_CLARIFY; PH_PLAN; PH_TASKS;
   PH_IMPLEMENT].

Definition phase_of_value (s : string) : option WorkflowPhase :=
  List.find (fun p => String.eqb (phase_value p) s) all_phases.

(* ================================================================= *)
(** ** core/agents.py: AgentDefinition *)

(** The front matter of an agent file. Every key is optional; the typed
    fields stand for well-typed YAML values. *)
Record Metadata := {
  md_name : option string;
  md_role : option string;
  md_specialization : option string;
  md_capabilities : option (list string);
  md_priority : option Z;
}.

(** [oid] is the identity of the Python object: [AgentDefinition] defines
    no [__eq__], so [==] and [in] compare identities. *)
Record AgentDefinition := {
  oid : nat;
  file_path : string;
  name : string;
  role : string;
  specialization : option string;
  capabilities : list string;
  priority : Z;
  content : string;
  enabled : bool;
}.

Definition with_enabled (b : bool) (a : AgentDefinition) : AgentDefinition :=
  {| oid := oid a; file_path := file_path a; name := name a; role := role a;
     specialization := specialization a; capabilities := capabilities a;
     priority := priority a; content := content a; enabled := b |}.

(** [all(cap in self.capabilities for cap in required_capabilities)] *)
Definition matches_capabilities (a : AgentDefinition)
    (required_capabilities : list string) : bool :=
  forallb (fun cap => bool_decide (cap ∈ capabilities a))
          required_capabilities.

Definition score_for_task (a : AgentDefinition)
    (required_capabilities : list string) : Z :=
  if negb (matches_capabilities a required_capabilities) then 0
  else
    let score := priority a in
    if bool_decide (list_to_set required_capabilities
                    =@{gset string} list_to_set (capabilities a))
    then score + 5
    else score.

(* ================================================================= *)
(** ** core/agents.py: AgentManager, selection *)

Definition COMMAND_CAPABILITIES (c : CommandType) : list string :=
  match c with
  | SPECIFY => []
  | CLARIFY => []
  | PLAN => ["architecture_design"; "component_design"]
  | TASKS => ["project_management"; "task_breakdown"]
  | IMPLEMENT => ["backend_implementation"; "frontend_implementation"]
  | ANALYZE => ["code_quality"; "code_review"]
  | CHECKLIST => ["quality_assurance"; "testing"]
  | CONSTITUTION => ["project_management"]
  end.

(** The sort key [(x[1], x[0].priority)] and its tuple order. *)
Definition sort_key (x : AgentDefinition * Z) : Z * Z :=
  (x.2, priority x.1).

Definition key_ltb (k1 k2 : Z * Z) : bool :=
  (k1.1 <? k2.1) || ((k1.1 =? k2.1) && (k1.2 <? k2.2)).

(** [list.sort(key=..., reverse=True)]: descending and stable, elements
    with equal keys keep the order they had. *)
Fixpoint insert_desc (x : AgentDefinition * Z)
    (l : list (AgentDefinition * Z)) : list (AgentDefinition * Z) :=
  match l with
  | [] => [x]
  | y :: l' =>
      if key_ltb (sort_key x) (sort_key y) then y :: insert_desc x l'
      else x :: y :: l'
  end.

Definition sort_desc (l : list (AgentDefinition * Z))
    : list (AgentDefinition * Z) :=
  foldr insert_desc [] l.

Definition select_agent (agents : list AgentDefinition)
    (required_capabilities : list string) : option AgentDefinition :=
  let candidates :=
    map (fun agent => (agent, score_for_task agent required_capabilities))
        agents in
  let candidates := List.filter (fun x => 0 <? x.2) candidates in
  match candidates with
  | [] => None
  | _ => fst <$> head (sort_desc candidates)
  end.

Definition get_generic_agent (agents : list AgentDefinition)
    : option AgentDefinition :=
  List.find (fun agent => String.eqb (role agent) "generic") agents.

Definition list_agents (agents : list AgentDefinition)
    (include_disabled : bool) : list AgentDefinition :=
  if include_disabled then agents else List.filter enabled agents.

Definition select_agents (agents : list AgentDefinition)
    (required_capabilities : list string) (max_agents : nat)
    : list AgentDefinition :=
  let candidates :=
    map (fun agent => (agent, score_for_task agent required_capabilities))
        (List.filter enabled agents) in
  let candidates := List.filter (fun x => 0 <? x.2) candidates in
  match candidates with
  | [] => []
  | _ => map fst (take max_agents (sort_desc candidates))
  end.

Definition select_agents_for_command (agents : list AgentDefinition)
    (command_type : CommandType) : list AgentDefinition :=
  let required_caps := COMMAND_CAPABILITIES command_type in
  match required_caps with
  | [] =>
      match get_generic_agent agents with
      | Some generic => [generic]
      | None => []
      end
  | _ =>
      let selected := select_agents agents required_caps 3 in
      match selected with
      | [] =>
          match get_generic_agent agents with
          | Some generic => [generic]
          | None => []
          end
      | _ => selected
      end
  end.

(** [agent.name.lower() == agent_name.lower()] *)
Definition same_name (agent_name : string) (a : AgentDefinition) : bool :=
  String.eqb (lower (name a)) (lower agent_name).

(** [enable_agent] / [disable_agent]: the first agent of that name has its
    flag set; the boolean says whether one was found. *)
Fixpoint set_enabled_by_name (b : bool) (agent_name : string)
    (agents : list AgentDefinition) : list AgentDefinition * bool :=
  match agents with
  | [] => ([], false)
  | a :: rest =>
      if same_name agent_name a then (with_enabled b a :: rest, true)
      else let '(rest', found) := set_enabled_by_name b agent_name rest in
           (a :: rest', found)
  end.

Definition enable_agent := set_enabled_by_name true.
Definition disable_agent := set_enabled_by_name false.

Definition get_agent_by_name (agents : list AgentDefinition)
    (agent_name : string) : option AgentDefinition :=
  List.find (same_name agent_name) agents.

(* ================================================================= *)
(** ** Timestamps: [datetime], [isoformat], [fromisoformat] *)

(** A naive [datetime] (the runner only ever calls [datetime.now()]). *)
Record datetime := {
  year : Z; month : Z; day : Z;
  hour : Z; minute : Z; second : Z; microsecond : Z;
}.

Definition is_leap (y : Z) : bool :=
  (y mod 4 =? 0) && (negb (y mod 100 =? 0) || (y mod 400 =? 0)).

Definition days_in_month (y m : Z) : Z :=
  if (m =? 2) then (if is_leap y then 29 else 28)
  else if (m =? 4) || (m =? 6) || (m =? 9) || (m =? 11) then 30
  else 31.

(** The ranges the [datetime] constructor enforces. *)
Definition valid_datetime (d : datetime) : bool :=
  (1 <=? year d) && (year d <=? 9999) &&
  (1 <=? month d) && (month d <=? 12) &&
  (1 <=? day d) && (day d <=? days_in_month (year d) (month d)) &&
  (0 <=? hour d) && (hour d <=? 23) &&
  (0 <=? minute d) && (minute d <=? 59) &&
  (0 <=? second d) && (second d <=? 59) &&
  (0 <=? microsecond d) && (microsecond d <=? 999999).

Definition digit_char (d : Z) : ascii := ascii_of_N (48 + Z.to_N d).

(** ["%0<width>d" % n] for [0 <= n < 10 ^ width]. *)
Fixpoint zfill (width : nat) (n : Z) : string :=
  match width with
  | O => ""
  | S w => zfill w (n / 10) +:+ String (digit_char (n mod 10)) ""
  end.

(** [datetime.isoformat()]: [YYYY-MM-DDTHH:MM:SS], followed by [.ffffff]
    when the microseconds are not zero. *)
Definition isoformat (d : datetime) : string :=
  zfill 4 (year d) +:+ "-" +:+ zfill 2 (month d) +:+ "-" +:+
  zfill 2 (day d) +:+ "T" +:+ zfill 2 (hour d) +:+ ":" +:+
  zfill 2 (minute d) +:+ ":" +:+ zfill 2 (second d) +:+
  (if microsecond d =? 0 then "" else "." +:+ zfill 6 (microsecond d)).

Definition digit_val (c : ascii) : option Z :=
  let n := N_of_ascii c in
  if ((48 <=? n) && (n <=? 57))%N then Some (Z.of_N n - 48) else None.

Fixpoint take_digits (width : nat) (acc : Z) (s : string)
    : option (Z * string) :=
  match width with
  | O => Some (acc, s)
  | S w =>
      match s with
      | String c rest =>
          match digit_val c with
          | Some d => take_digits w (10 * acc + d) rest
          | None => None
          end
      | EmptyString => None
      end
  end.

Definition expect (c : ascii) (s : string) : option string :=
  match s with
  | String c' rest => if Ascii.eqb c c' then Some rest else None
  | EmptyString => None
  end.

Definition skip_char (s : string) : option string :=
  match s with String _ rest => Some rest | EmptyString => None end.

(** [datetime.fromisoformat] on the two shapes [isoformat] prints for a
    naive timestamp (any separator character between date and time);
    [None] is [ValueError]. The other shapes the library reads (dates
    alone, truncated times, UTC offsets) are not represented. *)
Definition fromisoformat (s : string) : option datetime :=
  '(y, s) ← take_digits 4 0 s;
  s ← expect "-" s;
  '(mo, s) ← take_digits 2 0 s;
  s ← expect "-" s;
  '(d, s) ← take_digits 2 0 s;
  s ← skip_char s;
  '(h, s) ← take_digits 2 0 s;
  s ← expect ":" s;
  '(mi, s) ← take_digits 2 0 s;
  s ← expect ":" s;
  '(sec, s) ← take_digits 2 0 s;
  us ← match s with
       | EmptyString => Some 0
       | String c rest =>
           if Ascii.eqb c "." then
             '(us, rest') ← take_digits 6 0 rest;
             match rest' with EmptyString => Some us | _ => None end
           else None
       end;
  let dt := {| year := y; month := mo; day := d; hour := h; minute := mi;
               second := sec; microsecond := us |} in
  if valid_datetime dt then Some dt else None.

(* ================================================================= *)
(** ** Python values and JSON documents *)

(** The values a [Dict[str, Any]] can hold, as far as [json] tells them
    apart: the JSON-native ones, tuples (written as arrays) and any other
    object, of which only [str(obj)] matters because [write_json] passes
    [default=str]. Dictionaries are keyed by strings. A [float] is an
    IEEE 754 value: a signed zero, a signed infinity, NaN or a finite
    number (Python's are those of binary64). *)
Inductive pyval :=
| PNone
| PBool (b : bool)
| PInt (z : Z)
| PFloat (x : SpecFloat.spec_float)
| PStr (s : string)
| PList (l : list pyval)
| PTuple (l : list pyval)
| PDict (d : gmap string pyval)
| PObj (repr : string).

Inductive json :=
| JNull
| JBool (b : bool)
| JInt (z : Z)
| JFloat (x : SpecFloat.spec_float)
| JStr (s : string)
| JArr (l : list json)
| JObj (d : gmap string json).

(** [json.dump(data, f, indent=2, default=str)], as the document it
    writes when it writes one. A float is written by [float.__repr__],
    which [float] reads back as the same value, NaN and the infinities
    as the words [json.load] knows. [json.dump] gives up, with a
    [ValueError] or a [RecursionError], on an integer of more digits than
    the interpreter prints and on a document nested deeper than it
    recurses; that failure is one of the failing file operations of the
    world below, as it happens while the temporary file is written. *)
Fixpoint json_dump (v : pyval) : json :=
  match v with
  | PNone => JNull
  | PBool b => JBool b
  | PInt z => JInt z
  | PFloat x => JFloat x
  | PStr s => JStr s
  | PList l => JArr (json_dump <$> l)
  | PTuple l => JArr (json_dump <$> l)
  | PDict d => JObj (json_dump <$> d)
  | PObj repr => JStr repr
  end.

(** [json.load(f)] *)
Fixpoint json_load (j : json) : pyval :=
  match j with
  | JNull => PNone
  | JBool b => PBool b
  | JInt z => PInt z
  | JFloat x => PFloat x
  | JStr s => PStr s
  | JArr l => PList (json_load <$> l)
  | JObj d => PDict (json_load <$> d)
  end.

(** Values built from [None], booleans, integers, floats, strings,
    lists and string-keyed dictionaries only. *)
Inductive json_native : pyval → Prop :=
| jn_none : json_native PNone
| jn_bool b : json_native (PBool b)
| jn_int z : json_native (PInt z)
| jn_float x : json_native (PFloat x)
| jn_str s : json_native (PStr s)
| jn_list l : Forall json_native l → json_native (PList l)
| jn_dict d : map_Forall (fun _ => json_native) d → json_native (PDict d).




(** [bool(v)] *)
Definition py_truthy (v : pyval) : bool :=
  match v with
  | PNone => false
  | PBool b => b
  | PInt z => negb (z =? 0)
  | PFloat x =>
      match x with SpecFloat.S754_zero _ => false | _ => true end
  | PStr s => str_truthy s
  | PList l | PTuple l => match l with [] => false | _ => true end
  | PDict d => negb (bool_decide (d = ∅))
  | PObj _ => true
  end.

(* ================================================================= *)
(** ** utils/exceptions.py and the result of a call *)

(** [ProviderFailure] is whatever [llm_provider.generate] raised and
    [RetryError] is tenacity's, raised [from] the exception of the last
    attempt. [BuiltinError] stands for the interpreter's and the
    libraries' own exceptions ([KeyError], [ValueError], [OSError], ...),
    whose text is indicative only. *)
Inductive exn :=
| ProviderFailure (msg : string)
| RetryError (last_attempt : exn)
| AgentDefinitionError (msg : string)
| AgentExecutionError (msg : string)
| CommandExecutionError (msg : string)
| StateLoadError (msg : string)
| StateSaveError (msg : string)
| BuiltinError (msg : string).

(** [str(e)] *)
Definition exn_str (e : exn) : string :=
  match e with
  | ProviderFailure msg | AgentDefinitionError msg | AgentExecutionError msg
  | CommandExecutionError msg | StateLoadError msg | StateSaveError msg
  | BuiltinError msg => msg
  | RetryError _ => "RetryError[<Future state=finished raised AgentExecutionError>]"
  end.

(** [e.__cause__]: set by [raise ... from ...] only. *)
Definition exn_cause (e : exn) : option exn :=
  match e with
  | RetryError last_attempt => Some last_attempt
  | _ => None
  end.

Inductive result (A : Type) :=
| Return (a : A)
| Raise (e : exn).
Arguments Return {A} a.
Arguments Raise {A} e.

(** Computations over a state [S] that return or raise. *)
Definition M (S A : Type) : Type := S → result A * S.

Definition ret {S A} (a : A) : M S A := fun s => (Return a, s).
Definition raise {S A} (e : exn) : M S A := fun s => (Raise e, s).
Definition bind {S A B} (m : M S A) (k : A → M S B) : M S B :=
  fun s =>
    match m s with
    | (Return a, s') => k a s'
    | (Raise e, s') => (Raise e, s')
    end.
(** [try: m  except Exception as e: handler e] *)
Definition try_except {S A} (m : M S A) (handler : exn → M S A) : M S A :=
  fun s =>
    match m s with
    | (Return a, s') => (Return a, s')
    | (Raise e, s') => handler e s'
    end.
Definition gets {S A} (f : S → A) : M S A := fun s => (Return (f s), s).
Definition modify {S} (f : S → S) : M S unit := fun s => (Return tt, f s).

Notation "'let*' x ':=' m 'in' k" := (bind m (fun x => k))
  (at level 10, x name, m at level 200, k at level 200, only parsing).

(* ================================================================= *)
(** ** llm/base.py: messages and the provider interface *)

Record Message := { msg_role : string; msg_content : string }.

(** One invocation of [generate]. The temperature is only handed
    through, so a rational stands for the float. *)
Record Call := {
  call_messages : list Message;
  call_temperature : Qc;
  call_max_tokens : option Z;
}.

(** [LLMProvider]: [generate] answers with text or raises, and may change
    the provider's own state [L] (the remote service, quotas, ...). *)
Class LLMProvider (L : Type) := {
  generate : L → list Message → Qc → option Z → result string * L;
}.

(* ================================================================= *)
(** ** The world *)

(** What the runner reads and changes outside its own objects: the
    provider, a log of the invocations made, markdown artifacts and JSON
    documents on disk, the clock behind [datetime.now()] and an oracle
    for failing file operations (an [OSError], or [json.dump] giving up
    on what it is to write). Artifacts and the state
    document live at different paths ([*.md] against
    [.state/workflow.json]) and are kept in two stores. *)
Record World (L : Type) := {
  llm : L;
  calls : list Call;
  texts : gmap string string;
  docs : gmap string json;
  clock : nat → datetime;
  ticks : nat;
  io_fault : nat → option string;
  io_ops : nat;
}.
Arguments llm {L} _.
Arguments calls {L} _.
Arguments texts {L} _.
Arguments docs {L} _.
Arguments clock {L} _.
Arguments ticks {L} _.
Arguments io_fault {L} _.
Arguments io_ops {L} _.

Definition set_llm {L} (l : L) (c : Call) (w : World L) : World L :=
  {| llm := l; calls := calls w ++ [c]; texts := texts w; docs := docs w;
     clock := clock w; ticks := ticks w; io_fault := io_fault w;
     io_ops := io_ops w |}.

Definition set_texts {L} (t : gmap string string) (w : World L) : World L :=
  {| llm := llm w; calls := calls w; texts := t; docs := docs w;
     clock := clock w; ticks := ticks w; io_fault := io_fault w;
     io_ops := io_ops w |}.

Definition set_docs {L} (d : gmap string json) (w : World L) : World L :=
  {| llm := llm w; calls := calls w; texts := texts w; docs := d;
     clock := clock w; ticks := ticks w; io_fault := io_fault w;
     io_ops := io_ops w |}.

(** [datetime.now()] *)
Definition now {L} : M (World L) datetime :=
  fun w =>
    (Return (clock w (ticks w)),
     {| llm := llm w; calls := calls w; texts := texts w; docs := docs w;
        clock := clock w; ticks := S (ticks w); io_fault := io_fault w;
        io_ops := io_ops w |}).

(** Every file operation first asks the oracle. *)
Definition io_check {L} : M (World L) unit :=
  fun w =>
    let w' := {| llm := llm w; calls := calls w; texts := texts w;
                 docs := docs w; clock := clock w; ticks := ticks w;
                 io_fault := io_fault w; io_ops := S (io_ops w) |} in
    match io_fault w (io_ops w) with
    | Some msg => (Raise (BuiltinError msg), w')
    | None => (Return tt, w')
    end.

(** No file operation fails. *)
Definition no_io_faults {L} (w : World L) : Prop :=
  ∀ n, io_fault w n = None.

(* ================================================================= *)
(** ** Paths *)

(** The last component of a path. *)
Fixpoint path_name (p : string) : string :=
  match p with
  | EmptyString => ""
  | String c rest =>
      if contains "/" rest then path_name rest
      else if Ascii.eqb c "/" then rest else p
  end.

(** Everything up to and including the last ["/"]. *)
Fixpoint path_dir (p : string) : string :=
  match p with
  | EmptyString => ""
  | String c rest => if contains "/" p then String c (path_dir rest) else ""
  end.

Fixpoint before_last_dot (s : string) : option string :=
  match s with
  | EmptyString => None
  | String c rest =>
      match before_last_dot rest with
      | Some front => Some (String c front)
      | None => if Ascii.eqb c "." then Some "" else None
      end
  end.

(** [Path.stem]: the name without its last suffix; a dot in first or last
    position does not start a suffix. *)
Definition stem (p : string) : string :=
  let nm := path_name p in
  match before_last_dot nm with
  | Some front =>
      if ((0 <? String.length front)%nat &&
          (String.length front + 1 <? String.length nm)%nat)
      then front else nm
  | None => nm
  end.

(** [Path.with_suffix] *)
Definition with_suffix (suffix : string) (p : string) : string :=
  path_dir p +:+ stem p +:+ suffix.

(** [dir / child] *)
Definition path_join (dir child : string) : string :=
  dir +:+ "/" +:+ child.

Definition nl : string := String "010" "".

(* ================================================================= *)
(** ** core/agents.py: loading the catalog *)

(** A file the glob [*.md] found in the agents directory, with what
    opening and reading it gives. *)
Record AgentFile := { af_path : string; af_read : result string }.

(** [frontmatter.load]: the header and the body, or an exception. *)
Class FrontmatterParser := {
  frontmatter_load : string → result (Metadata * string);
}.

(** [AgentDefinition.__init__]; [id] is the identity of the new object. *)
Definition new_AgentDefinition (id : nat) (path : string)
    (metadata : Metadata) (body : string) : AgentDefinition :=
  {| oid := id;
     file_path := path;
     name := default (stem path) (md_name metadata);
     role := default "generic" (md_role metadata);
     specialization := md_specialization metadata;
     capabilities := default [] (md_capabilities metadata);
     priority := default 1 (md_priority metadata);
     content := body;
     enabled := true |}.

Definition _load_agent `{FrontmatterParser} (id : nat) (f : AgentFile)
    : result AgentDefinition :=
  let failed e :=
    Raise (AgentDefinitionError
             ("Failed to parse " +:+ af_path f +:+ ": " +:+ exn_str e)) in
  match af_read f with
  | Raise e => failed e
  | Return text =>
      match frontmatter_load text with
      | Raise e => failed e
      | Return (metadata, body) =>
          Return (new_AgentDefinition id (af_path f) metadata body)
      end
  end.

(** The loop of [_load_agents] over the files found: the agents loaded so
    far and the warnings printed so far. The position of a file in the
    listing serves as the identity of the object made from it. *)
Fixpoint load_files `{FrontmatterParser} (id : nat) (files : list AgentFile)
    (agents : list AgentDefinition) (printed : list string)
    : list AgentDefinition * list string :=
  match files with
  | [] => (agents, printed)
  | f :: rest =>
      match _load_agent id f with
      | Return agent => load_files (S id) rest (agents ++ [agent]) printed
      | Raise e =>
          load_files (S id) rest agents
            (printed ++ ["Warning: Failed to load agent " +:+ af_path f +:+
                         ": " +:+ exn_str e])
      end
  end.

(** [_load_agents]: [None] is an agents directory that does not exist. *)
Definition _load_agents `{FrontmatterParser} (agents_dir : string)
    (listing : option (list AgentFile))
    : result (list AgentDefinition * list string) :=
  match listing with
  | None =>
      Raise (AgentDefinitionError
               ("Agents directory not found: " +:+ agents_dir))
  | Some files => Return (load_files 0 files [] [])
  end.



(* ================================================================= *)
(** ** core/agents.py: execution with fallback *)

Section Execution.
Context {L : Type} `{LLMProvider L}.

(** [await llm_provider.generate(...)], logged. *)
Definition provider_generate (messages : list Message) (temperature : Qc)
    (max_tokens : option Z) : M (World L) string :=
  fun w =>
    let c := {| call_messages := messages; call_temperature := temperature;
                call_max_tokens := max_tokens |} in
    let '(r, l') := generate (llm w) messages temperature max_tokens in
    (r, set_llm l' c w).

(** The body of [execute_agent], one attempt. *)
Definition execute_agent_attempt (agent : AgentDefinition)
    (task_prompt : string) (temperature : Qc) (max_tokens : option Z)
    : M (World L) string :=
  try_except
    (let messages :=
       [ {| msg_role := "system"; msg_content := content agent |};
         {| msg_role := "user"; msg_content := task_prompt |} ] in
     let* response := provider_generate messages temperature max_tokens in
     ret response)
    (fun e =>
       raise (AgentExecutionError
                ("Agent " +:+ name agent +:+ " execution failed: " +:+
                 exn_str e))).

(** tenacity's [@retry]: an attempt that raises is followed by another
    while attempts remain; after the last one [RetryError] is raised
    from its exception. The waits between attempts change nothing the
    model observes. *)
Fixpoint retrying {A} (more_attempts : nat) (m : M (World L) A)
    : M (World L) A :=
  fun w =>
    match m w with
    | (Return a, w') => (Return a, w')
    | (Raise e, w') =>
        match more_attempts with
        | O => (Raise (RetryError e), w')
        | S n => retrying n m w'
        end
    end.

(** [stop_after_attempt(3)] *)
Definition execute_agent (agent : AgentDefinition) (task_prompt : string)
    (temperature : Qc) (max_tokens : option Z) : M (World L) string :=
  retrying 2 (execute_agent_attempt agent task_prompt temperature
                max_tokens).

(** [str(e.__cause__)] if there is a cause, else [str(e)]. *)
Definition error_text (e : exn) : string :=
  match exn_cause e with
  | Some cause => exn_str cause
  | None => exn_str e
  end.

(** [generic in agents], by identity. *)
Definition agent_in (a : AgentDefinition) (agents : list AgentDefinition)
    : bool :=
  existsb (fun b => Nat.eqb (oid a) (oid b)) agents.

(** The [for agent in agents] loop: it ends with the first success, or
    with [last_error] and [error_details] as the last failure left
    them. *)
Fixpoint try_candidates (agents : list AgentDefinition)
    (task_prompt : string) (temperature : Qc) (max_tokens : option Z)
    (last_error : option exn) (error_details : option string)
    (w : World L)
    : ((AgentDefinition * string) + (option exn * option string))
      * World L :=
  match agents with
  | [] => (inr (last_error, error_details), w)
  | agent :: rest =>
      match execute_agent agent task_prompt temperature max_tokens w with
      | (Return response, w') => (inl (agent, response), w')
      | (Raise e, w') =>
          try_candidates rest task_prompt temperature max_tokens
            (Some e) (Some (error_text e)) w'
      end
  end.

(** [error_details or str(last_error)] *)
Definition error_msg_of (last_error : option exn)
    (error_details : option string) : string :=
  let str_last := match last_error with
                  | Some e => exn_str e
                  | None => "None"
                  end in
  match error_details with
  | Some details => if str_truthy details then details else str_last
  | None => str_last
  end.

Definition auth_marker (error_msg : string) : bool :=
  contains "authentication" (lower error_msg) ||
  contains "api key" (lower error_msg) ||
  contains "401" error_msg.

Definition rate_limit_marker (error_msg : string) : bool :=
  contains "rate limit" (lower error_msg) || contains "429" error_msg.

Definition auth_message (error_msg : string) : string :=
  "Authentication failed. Please check your API key is set correctly:"
  +:+ nl +:+ "  export ANTHROPIC_API_KEY=your-key-here"
  +:+ nl +:+ "  export OPENAI_API_KEY=your-key-here"
  +:+ nl +:+ "Original error: " +:+ error_msg.

Definition rate_limit_message (error_msg : string) : string :=
  "Rate limit exceeded. Please wait a moment and try again."
  +:+ nl +:+ "Original error: " +:+ error_msg.

Definition other_message (error_msg : string) : string :=
  "All agents failed to execute." +:+ nl +:+ "Error: " +:+ error_msg.

(** The exception the last block of [execute_with_fallback] raises. *)
Definition final_error (error_msg : string) : exn :=
  if auth_marker error_msg then
    AgentExecutionError (auth_message error_msg)
  else if rate_limit_marker error_msg then
    AgentExecutionError (rate_limit_message error_msg)
  else
    AgentExecutionError (other_message error_msg).

(** [self_agents] is [self.agents], the catalog of the manager. *)
Definition execute_with_fallback (self_agents : list AgentDefinition)
    (agents : list AgentDefinition) (task_prompt : string)
    (temperature : Qc) (max_tokens : option Z)
    : M (World L) (AgentDefinition * string) :=
  fun w =>
    match try_candidates agents task_prompt temperature max_tokens
            None None w with
    | (inl used, w1) => (Return used, w1)
    | (inr (last_error, error_details), w1) =>
        let raise_final last_error error_details w' :=
          (Raise (final_error (error_msg_of last_error error_details)),
           w') in
        match get_generic_agent self_agents with
        | Some generic =>
            if negb (agent_in generic agents) then
              match execute_agent generic task_prompt temperature
                      max_tokens w1 with
              | (Return response, w2) => (Return (generic, response), w2)
              | (Raise e, w2) => raise_final (Some e) (Some (error_text e)) w2
              end
            else raise_final last_error error_details w1
        | None => raise_final last_error error_details w1
        end
    end.
End Execution.

(* ================================================================= *)
(** ** models/workflow.py, models/feature.py *)

Record CommandRecord := { command : CommandType; timestamp : datetime }.

Record WorkflowState := {
  feature_id : string;
  current_phase : WorkflowPhase;
  completed_commands : list CommandRecord;
  suggested_next : option CommandType;
  context_data : gmap string pyval;
  state_file : string;
  last_checkpoint : datetime;
  last_updated : datetime;
}.

Module Feature.
Record t := {
  id : string;
  name : string;
  branch : string;
  spec_dir : string;
  spec_file : string;
  plan_file : option string;
  tasks_file : option string;
}.

Definition set_plan_file (p : string) (f : t) : t :=
  {| id := id f; name := name f; branch := branch f;
     spec_dir := spec_dir f; spec_file := spec_file f;
     plan_file := Some p; tasks_file := tasks_file f |}.
End Feature.

(** Attribute assignments on a [WorkflowState]. *)
Definition set_current_phase (p : WorkflowPhase) (st : WorkflowState)
    : WorkflowState :=
  {| feature_id := feature_id st; current_phase := p;
     completed_commands := completed_commands st;
     suggested_next := suggested_next st; context_data := context_data st;
     state_file := state_file st; last_checkpoint := last_checkpoint st;
     last_updated := last_updated st |}.

Definition set_suggested_next (c : option CommandType) (st : WorkflowState)
    : WorkflowState :=
  {| feature_id := feature_id st; current_phase := current_phase st;
     completed_commands := completed_commands st;
     suggested_next := c; context_data := context_data st;
     state_file := state_file st; last_checkpoint := last_checkpoint st;
     last_updated := last_updated st |}.


Definition set_last_updated (t : datetime) (st : WorkflowState)
    : WorkflowState :=
  {| feature_id := feature_id st; current_phase := current_phase st;
     completed_commands := completed_commands st;
     suggested_next := suggested_next st; context_data := context_data st;
     state_file := state_file st; last_checkpoint := last_checkpoint st;
     last_updated := t |}.

Definition set_state_file (p : string) (st : WorkflowState)
    : WorkflowState :=
  {| feature_id := feature_id st; current_phase := current_phase st;
     completed_commands := completed_commands st;
     suggested_next := suggested_next st; context_data := context_data st;
     state_file := p; last_checkpoint := last_checkpoint st;
     last_updated := last_updated st |}.

(** [state.completed_commands.append(rec)] *)
Definition append_command (rec : CommandRecord) (st : WorkflowState)
    : WorkflowState :=
  {| feature_id := feature_id st; current_phase := current_phase st;
     completed_commands := completed_commands st ++ [rec];
     suggested_next := suggested_next st; context_data := context_data st;
     state_file := state_file st; last_checkpoint := last_checkpoint st;
     last_updated := last_updated st |}.

(** The timestamps of a state are well-formed [datetime] values. *)
Definition valid_state (st : WorkflowState) : Prop :=
  Forall (fun cmd => valid_datetime (timestamp cmd) = true)
         (completed_commands st) ∧
  valid_datetime (last_checkpoint st) = true ∧
  valid_datetime (last_updated st) = true.

(** The objects a command works on: the world, and the [WorkflowState]
    and [Feature] objects the caller handed in, which the callee changes
    in place. *)
Record Session (L : Type) := {
  s_world : World L;
  s_state : WorkflowState;
  s_feature : Feature.t;
}.
Arguments s_world {L} _.
Arguments s_state {L} _.
Arguments s_feature {L} _.

Definition in_world {L A} (m : M (World L) A) : M (Session L) A :=
  fun s =>
    let '(r, w') := m (s_world s) in
    (r, {| s_world := w'; s_state := s_state s; s_feature := s_feature s |}).

Definition modify_state {L} (f : WorkflowState → WorkflowState)
    : M (Session L) unit :=
  modify (fun s => {| s_world := s_world s; s_state := f (s_state s);
                      s_feature := s_feature s |}).

Definition modify_feature {L} (f : Feature.t → Feature.t)
    : M (Session L) unit :=
  modify (fun s => {| s_world := s_world s; s_state := s_state s;
                      s_feature := f (s_feature s) |}).

(* ================================================================= *)
(** ** Results without a world, and dictionary access *)

Definition res_bind {A B} (r : result A) (k : A → result B) : result B :=
  match r with
  | Return a => k a
  | Raise e => Raise e
  end.

Notation "'let?' x ':=' r 'in' k" := (res_bind r (fun x => k))
  (at level 10, x name, r at level 200, k at level 200, only parsing).

Fixpoint res_map {A B} (f : A → result B) (l : list A) : result (list B) :=
  match l with
  | [] => Return []
  | x :: rest =>
      let? y := f x in
      let? ys := res_map f rest in
      Return (y :: ys)
  end.

Definition lift_result {S A} (r : result A) : M S A := fun s => (r, s).

(** [data[key]] *)
Definition py_getitem (data : pyval) (key : string) : result pyval :=
  match data with
  | PDict d =>
      match d !! key with
      | Some v => Return v
      | None => Raise (BuiltinError ("'" +:+ key +:+ "'"))
      end
  | _ => Raise (BuiltinError "TypeError: indices must be integers")
  end.

(** [data.get(key, dflt)] *)
Definition py_get (data : pyval) (key : string) (dflt : pyval)
    : result pyval :=
  match data with
  | PDict d => Return (default dflt (d !! key))
  | _ => Raise (BuiltinError "AttributeError: object has no attribute 'get'")
  end.

Fixpoint chars (s : string) : list string :=
  match s with
  | EmptyString => []
  | String c rest => String c "" :: chars rest
  end.

(** [for x in v] *)
Definition py_iter (v : pyval) : result (list pyval) :=
  match v with
  | PList l | PTuple l => Return l
  | PDict d => Return (PStr <$> (map_to_list d).*1)
  | PStr s => Return (PStr <$> chars s)
  | _ => Raise (BuiltinError "TypeError: object is not iterable")
  end.

(** [CommandType(v)], [WorkflowPhase(v)], [datetime.fromisoformat(v)] *)
Definition CommandType_of (v : pyval) : result CommandType :=
  match v with
  | PStr s =>
      match command_of_value s with
      | Some c => Return c
      | None => Raise (BuiltinError ("'" +:+ s +:+
                                     "' is not a valid CommandType"))
      end
  | _ => Raise (BuiltinError "ValueError: not a valid CommandType")
  end.

Definition WorkflowPhase_of (v : pyval) : result WorkflowPhase :=
  match v with
  | PStr s =>
      match phase_of_value s with
      | Some p => Return p
      | None => Raise (BuiltinError ("'" +:+ s +:+
                                     "' is not a valid WorkflowPhase"))
      end
  | _ => Raise (BuiltinError "ValueError: not a valid WorkflowPhase")
  end.

Definition datetime_of (v : pyval) : result datetime :=
  match v with
  | PStr s =>
      match fromisoformat s with
      | Some t => Return t
      | None => Raise (BuiltinError ("Invalid isoformat string: '" +:+ s
                                     +:+ "'"))
      end
  | _ => Raise (BuiltinError "TypeError: fromisoformat: argument must be str")
  end.

(* ================================================================= *)
(** ** utils/files.py *)

Section Files.
Context {L : Type}.

Definition read_json (file_path : string) : M (World L) pyval :=
  fun w =>
    match docs w !! file_path with
    | None =>
        (Raise (StateLoadError ("State file not found: " +:+ file_path)),
         w)
    | Some j => (let* _ := io_check in ret (json_load j)) w
    end.

(** The document goes to a temporary file beside the target, which is
    then renamed over the target. *)
Definition write_json (file_path : string) (data : pyval)
    : M (World L) unit :=
  try_except
    (let* _ := io_check in
     let temp_path := with_suffix ".tmp" file_path in
     let* _ := io_check in
     let* _ := modify (fun w =>
                 set_docs (<[temp_path := json_dump data]> (docs w)) w) in
     let* _ := io_check in
     modify (fun w =>
       set_docs (<[file_path := json_dump data]>
                   (delete temp_path (docs w))) w))
    (fun e =>
       raise (StateSaveError
                ("Failed to write " +:+ file_path +:+ ": " +:+ exn_str e))).

(** [with open(path, 'w') as f: f.write(text)] *)
Definition write_text (path : string) (text : string) : M (World L) unit :=
  let* _ := io_check in
  modify (fun w => set_texts (<[path := text]> (texts w)) w).

(** [with open(path, 'r') as f: f.read()] *)
Definition read_text (path : string) : M (World L) string :=
  let* _ := io_check in
  let* found := gets (fun w => texts w !! path) in
  match found with
  | Some text => ret text
  | None => raise (BuiltinError ("No such file or directory: '" +:+ path
                                 +:+ "'"))
  end.

(** [path.exists()] for an artifact. *)
Definition text_exists (path : string) : M (World L) bool :=
  gets (fun w => bool_decide (is_Some (texts w !! path))).
End Files.

(* ================================================================= *)
(** ** core/state.py *)

Record StateManager := {
  sm_feature_spec_dir : string;
  sm_state_dir : string;
  sm_state_file : string;
}.

Definition STATE_FILENAME : string := "workflow.json".

(** [StateManager.__init__] *)
Definition new_StateManager (feature_spec_dir : string) : StateManager :=
  let state_dir := path_join feature_spec_dir ".state" in
  {| sm_feature_spec_dir := feature_spec_dir;
     sm_state_dir := state_dir;
     sm_state_file := path_join state_dir STATE_FILENAME |}.

(** The dictionary [save_state] builds. A [CommandType] is a [str], so
    [if state.suggested_next] tests its value for emptiness. *)
Definition record_document (cmd : CommandRecord) : pyval :=
  PDict (list_to_map
    [ ("command", PStr (command_value (command cmd)));
      ("timestamp", PStr (isoformat (timestamp cmd))) ]).

Definition state_document (state : WorkflowState) : pyval :=
  PDict (list_to_map
    [ ("feature_id", PStr (feature_id state));
      ("current_phase", PStr (phase_value (current_phase state)));
      ("completed_commands",
         PList (record_document <$> completed_commands state));
      ("suggested_next",
         match suggested_next state with
         | Some c => if str_truthy (command_value c)
                     then PStr (command_value c) else PNone
         | None => PNone
         end);
      ("context_data", PDict (context_data state));
      ("last_checkpoint", PStr (isoformat (last_checkpoint state)));
      ("last_updated", PStr (isoformat (last_updated state))) ]).

(** One element of the comprehension in [load_state]. *)
Definition parse_record (rec : pyval) : result CommandRecord :=
  let? c := py_getitem rec "command" in
  let? cmd := CommandType_of c in
  let? t := py_getitem rec "timestamp" in
  let? ts := datetime_of t in
  Return {| command := cmd; timestamp := ts |}.

(** The [try] block of [load_state] after [read_json]; the last two
    matches are the model's validation of [feature_id: str] and
    [context_data: Dict[str, Any]]. *)
Definition parse_state (state_file_path : string) (data : pyval)
    : result WorkflowState :=
  let? recs := py_get data "completed_commands" (PList []) in
  let? recs := py_iter recs in
  let? completed := res_map parse_record recs in
  let? fid := py_getitem data "feature_id" in
  let? ph := py_getitem data "current_phase" in
  let? phase := WorkflowPhase_of ph in
  let? sn := py_get data "suggested_next" PNone in
  let? suggested :=
    if py_truthy sn then
      let? sn' := py_getitem data "suggested_next" in
      let? c := CommandType_of sn' in
      Return (Some c)
    else Return None in
  let? ctx := py_get data "context_data" (PDict ∅) in
  let? lc := py_getitem data "last_checkpoint" in
  let? checkpoint := datetime_of lc in
  let? lu := py_getitem data "last_updated" in
  let? updated := datetime_of lu in
  match fid, ctx with
  | PStr fid, PDict ctx =>
      Return {| feature_id := fid; current_phase := phase;
                completed_commands := completed;
                suggested_next := suggested; context_data := ctx;
                state_file := state_file_path;
                last_checkpoint := checkpoint; last_updated := updated |}
  | _, _ => Raise (BuiltinError "validation error for WorkflowState")
  end.

Section State.
Context {L : Type}.

Definition load_state (self : StateManager) (fid : string)
    : M (World L) WorkflowState :=
  fun w =>
    if negb (bool_decide (is_Some (docs w !! sm_state_file self))) then
      (let* checkpoint := now in
       let* updated := now in
       ret {| feature_id := fid; current_phase := PH_DRAFT;
              completed_commands := []; suggested_next := None;
              context_data := ∅; state_file := sm_state_file self;
              last_checkpoint := checkpoint; last_updated := updated |}) w
    else
      try_except
        (let* data := read_json (sm_state_file self) in
         lift_result (parse_state (sm_state_file self) data))
        (fun e =>
           raise (StateLoadError ("Failed to load state: " +:+ exn_str e)))
        w.

(** The [state] argument is the session's [WorkflowState] object. *)
Definition save_state (self : StateManager) : M (Session L) unit :=
  let* t := in_world now in
  let* _ := modify_state (set_last_updated t) in
  let* state := gets s_state in
  in_world (write_json (sm_state_file self) (state_document state)).

Definition record_command (self : StateManager) (cmd : CommandType)
    : M (Session L) unit :=
  let* t := in_world now in
  let* _ := modify_state
              (append_command {| command := cmd; timestamp := t |}) in
  save_state self.

End State.

(* ================================================================= *)
(** ** core/commands.py *)

Record RunnerConfig := {
  cfg_temperature : Qc;
  cfg_max_tokens : option Z;
}.

(** [CommandExecutor]: the configuration and the catalog of its
    [AgentManager]; the provider is the [LLMProvider] instance. *)
Record CommandExecutor := {
  config : RunnerConfig;
  agent_manager : list AgentDefinition;
}.

(** The prompt texts, which the handlers assemble from their inputs by
    string formatting only. *)
Class PromptBuilder := {
  specify_prompt : option string → string;
  plan_prompt : string → string;
  clarify_prompt : string → string;
  suggestions_prompt : CommandType → string → string → string;
}.

(** The dictionary a handler returns. *)
Record HandlerResult := {
  res_file : string;
  res_content : string;
  res_suggestions : string;
  res_selected_agents : list string;
  res_agent_used : string;
  res_success : bool;
}.

(** [f"{x}"] for an optional string. *)
Definition str_of_option (x : option string) : string :=
  default "None" x.

Section Commands.
Context {L : Type} `{LLMProvider L} `{PromptBuilder}.

Definition generate_suggestions (command_type : CommandType)
    (generated_content : string) (agents : list AgentDefinition)
    (temperature : Qc) : M (World L) string :=
  let available_agents := list_agents agents false in
  let agent_list :=
    String.concat nl
      ((fun agent => "  - " +:+ name agent +:+ ": " +:+
                     str_of_option (specialization agent))
         <$> take 10 available_agents) in
  let prompt :=
    suggestions_prompt command_type generated_content agent_list in
  let messages := [ {| msg_role := "user"; msg_content := prompt |} ] in
  let* suggestions := provider_generate messages temperature (Some 500) in
  ret suggestions.

(** [if not selected_agents: selected_agents = [get_generic_agent()]]
    followed by the check that the first entry is an agent. *)
Definition or_generic (self : CommandExecutor)
    (selected_agents : list AgentDefinition)
    : M (Session L) (list AgentDefinition) :=
  match selected_agents with
  | [] =>
      match get_generic_agent (agent_manager self) with
      | Some generic => ret [generic]
      | None => raise (CommandExecutionError "No agents available")
      end
  | _ => ret selected_agents
  end.

Definition execute_specify (self : CommandExecutor)
    (user_input : option string) (selected_agents : list AgentDefinition)
    : M (Session L) HandlerResult :=
  let* selected_agents := or_generic self selected_agents in
  let user_prompt := specify_prompt user_input in
  let* used :=
    in_world (execute_with_fallback (agent_manager self) selected_agents
                user_prompt (cfg_temperature (config self))
                (cfg_max_tokens (config self))) in
  let '(agent_used, spec_content) := used in
  let* feature := gets s_feature in
  let* _ := in_world io_check in
  let* _ := in_world (write_text (Feature.spec_file feature)
                        spec_content) in
  let* suggestions :=
    in_world (generate_suggestions SPECIFY spec_content
                (agent_manager self) (cfg_temperature (config self))) in
  let state_manager := new_StateManager (Feature.spec_dir feature) in
  let* _ := modify_state (set_current_phase PH_SPECIFY) in
  let* _ := record_command state_manager SPECIFY in
  let* _ := modify_state (set_suggested_next (Some PLAN)) in
  ret {| res_file := Feature.spec_file feature;
         res_content := spec_content;
         res_suggestions := suggestions;
         res_selected_agents := name <$> selected_agents;
         res_agent_used := name agent_used;
         res_success := true |}.

Definition execute_plan (self : CommandExecutor)
    (user_input : option string) (selected_agents : list AgentDefinition)
    : M (Session L) HandlerResult :=
  let* feature := gets s_feature in
  let* found := in_world (text_exists (Feature.spec_file feature)) in
  if negb found then
    raise (CommandExecutionError
             "Specification file not found. Run /speckit.specify first.")
  else
  let* spec_content := in_world (read_text (Feature.spec_file feature)) in
  let selected_agents :=
    match selected_agents with
    | [] => select_agents_for_command (agent_manager self) PLAN
    | _ => selected_agents
    end in
  let* selected_agents := or_generic self selected_agents in
  let user_prompt := plan_prompt spec_content in
  let* used :=
    in_world (execute_with_fallback (agent_manager self) selected_agents
                user_prompt (cfg_temperature (config self))
                (cfg_max_tokens (config self))) in
  let '(agent_used, plan_content) := used in
  let plan_path := path_join (Feature.spec_dir feature) "plan.md" in
  let* _ := in_world (write_text plan_path plan_content) in
  let* _ := modify_feature (Feature.set_plan_file plan_path) in
  let* suggestions :=
    in_world (generate_suggestions PLAN plan_content
                (agent_manager self) (cfg_temperature (config self))) in
  let state_manager := new_StateManager (Feature.spec_dir feature) in
  let* _ := modify_state (set_current_phase PH_PLAN) in
  let* _ := record_command state_manager PLAN in
  let* _ := modify_state (set_suggested_next (Some TASKS)) in
  ret {| res_file := plan_path;
         res_content := plan_content;
         res_suggestions := suggestions;
         res_selected_agents := name <$> selected_agents;
         res_agent_used := name agent_used;
         res_success := true |}.

Definition execute_clarify (self : CommandExecutor)
    (user_input : option string) (selected_agents : list AgentDefinition)
    : M (Session L) HandlerResult :=
  let* feature := gets s_feature in
  let* found := in_world (text_exists (Feature.spec_file feature)) in
  if negb found then
    raise (CommandExecutionError "Specification file not found.")
  else
  let* spec_content := in_world (read_text (Feature.spec_file feature)) in
  let selected_agents :=
    match selected_agents with
    | [] => select_agents_for_command (agent_manager self) CLARIFY
    | _ => selected_agents
    end in
  let* selected_agents := or_generic self selected_agents in
  let user_prompt := clarify_prompt spec_content in
  let* used :=
    in_world (execute_with_fallback (agent_manager self) selected_agents
                user_prompt (cfg_temperature (config self))
                (cfg_max_tokens (config self))) in
  let '(agent_used, clarifications) := used in
  let clarify_file :=
    path_join (Feature.spec_dir feature) "clarifications.md" in
  let* _ := in_world (write_text clarify_file clarifications) in
  let* suggestions :=
    in_world (generate_suggestions CLARIFY clarifications
                (agent_manager self) (cfg_temperature (config self))) in
  let state_manager := new_StateManager (Feature.spec_dir feature) in
  let* _ := record_command state_manager CLARIFY in
  ret {| res_file := clarify_file;
         res_content := clarifications;
         res_suggestions := suggestions;
         res_selected_agents := name <$> selected_agents;
         res_agent_used := name agent_used;
         res_success := true |}.
End Commands.

(* ================================================================= *)
(** ** The fallback chain *)

(** Vocabulary for the statements about [execute_with_fallback]. *)
Section FallbackChain.
Context {L : Type} `{LLMProvider L}.
Variables (task_prompt : string) (temperature : Qc)
          (max_tokens : option Z).

(** The text of the [AgentExecutionError] one attempt of [agent] raises
    when the provider's exception prints as [provider_text]. *)
Definition failure_text (agent : AgentDefinition) (provider_text : string)
    : string :=
  "Agent " +:+ name agent +:+ " execution failed: " +:+ provider_text.

(** [all_fail agents last w last' w']: tried one after the other from
    the world [w], every agent of [agents] fails (all its attempts
    raise); [w'] is the world after the last of them and [last'] the
    exception it raised ([last] when [agents] is empty). *)
Inductive all_fail
    : list AgentDefinition → option exn → World L → option exn → World L
      → Prop :=
| all_fail_nil last w : all_fail [] last w last w
| all_fail_cons agent rest last w e w1 last' w' :
    execute_agent agent task_prompt temperature max_tokens w
      = (Raise e, w1) →
    all_fail rest (Some e) w1 last' w' →
    all_fail (agent :: rest) last w last' w'.

(** The agents in the order they are tried: the candidates, then the
    generic agent of the catalog if there is one and it is not among
    the candidates. *)
Definition fallback_chain (self_agents agents : list AgentDefinition)
    : list AgentDefinition :=
  agents ++
  match get_generic_agent self_agents with
  | Some generic => if agent_in generic agents then [] else [generic]
  | None => []
  end.

(** The text the final error is built from, given the exception of the
    last failure. *)
Definition terminal_text (last : option exn) : string :=
  match last with
  | Some e => error_text e
  | None => "None"
  end.

(** The texts the final block takes for an authentication failure: those
    in which, letter case aside, [authentication] or [api key] occurs, or
    in which [401] occurs; and those it takes for a rate limit. *)
Definition authentication_text (error_msg : string) : Prop :=
  occurs_in "authentication" (lower error_msg) ∨
  occurs_in "api key" (lower error_msg) ∨
  occurs_in "401" error_msg.

Definition rate_limit_text (error_msg : string) : Prop :=
  occurs_in "rate limit" (lower error_msg) ∨ occurs_in "429" error_msg.
End FallbackChain.

(* ================================================================= *)
(** ** Sample data *)

(** The catalog of the selection scenario. *)
Definition agent_archie : AgentDefinition :=
  {| oid := 0; file_path := "agents/archie.md"; name := "archie";
     role := "architect"; specialization := Some "architecture";
     capabilities := ["architecture_design"; "component_design"];
     priority := 2; content := "You are Archie."; enabled := true |}.

Definition agent_generic : AgentDefinition :=
  {| oid := 1; file_path := "agents/generic.md"; name := "generic";
     role := "generic"; specialization := None;
     capabilities := []; priority := 1;
     content := "You are a helpful assistant."; enabled := true |}.

(** A provider that answers from a script, one entry per invocation, and
    refuses once the script is used up. *)
#[global] Instance scripted_provider : LLMProvider (list (result string)) := {
  generate script _ _ _ :=
    match script with
    | reply :: rest => (reply, rest)
    | [] => (Raise (ProviderFailure "connection refused"), [])
    end;
}.

Definition agent_taylor : AgentDefinition :=
  {| oid := 2; file_path := "agents/taylor.md"; name := "taylor";
     role := "team_member"; specialization := Some "implementation";
     capabilities := ["architecture_design"; "component_design";
                      "backend_implementation"];
     priority := 1; content := "You are Taylor."; enabled := true |}.

Definition sample_time : datetime :=
  {| year := 2025; month := 1; day := 15; hour := 9; minute := 30;
     second := 0; microsecond := 250000 |}.

Definition sample_temperature : Qc := Q2Qc (7 # 10).

(** A world with empty disk, a clock that advances by a second per
    reading and no failing file operation. *)
Definition sample_world (script : list (result string))
    : World (list (result string)) :=
  {| llm := script; calls := []; texts := ∅; docs := ∅;
     clock := fun n =>
       {| year := 2025; month := 1; day := 15; hour := 9; minute := 30;
          second := Z.of_nat n mod 60; microsecond := 250000 |};
     ticks := 0; io_fault := fun _ => None; io_ops := 0 |}.

Definition timeout_failure : result string :=
  Raise (ProviderFailure "request timed out").

Definition sample_feature : Feature.t :=
  {| Feature.id := "001"; Feature.name := "login";
     Feature.branch := "001-login";
     Feature.spec_dir := "specs/001-login";
     Feature.spec_file := "specs/001-login/spec.md";
     Feature.plan_file := None; Feature.tasks_file := None |}.

Definition sample_manager : StateManager :=
  new_StateManager "specs/001-login".

(** A state whose extension bag holds a tuple. *)
Definition state_with_tuple : WorkflowState :=
  {| feature_id := "001"; current_phase := PH_SPECIFY;
     completed_commands :=
       [ {| command := SPECIFY; timestamp := sample_time |} ];
     suggested_next := Some PLAN;
     context_data := {[ "window" := PTuple [PInt 1; PInt 2] ]};
     state_file := "specs/001-login/.state/workflow.json";
     last_checkpoint := sample_time; last_updated := sample_time |}.

(** The same state with a list in its place. *)
Definition state_with_list : WorkflowState :=
  {| feature_id := "001"; current_phase := PH_SPECIFY;
     completed_commands :=
       [ {| command := SPECIFY; timestamp := sample_time |} ];
     suggested_next := Some PLAN;
     context_data := {[ "window" := PList [PInt 1; PInt 2] ]};
     state_file := "specs/001-login/.state/workflow.json";
     last_checkpoint := sample_time; last_updated := sample_time |}.


(** A stand-in for the front matter parser: a file that starts with an
    exclamation mark is refused, any other is a body without header. *)
#[global] Instance sample_frontmatter : FrontmatterParser := {
  frontmatter_load text :=
    if String.prefix "!" text
    then Raise (BuiltinError "while scanning the front matter")
    else Return ({| md_name := None; md_role := None;
                    md_specialization := None; md_capabilities := None;
                    md_priority := None |}, text);
}.

Definition sample_listing : list AgentFile :=
  [ {| af_path := "agents/archie.md"; af_read := Return "You are Archie." |};
    {| af_path := "agents/broken.md"; af_read := Return "!!" |};
    {| af_path := "agents/locked.md";
       af_read := Raise (BuiltinError "Permission denied") |};
    {| af_path := "agents/generic.md"; af_read := Return "Be helpful." |} ].

(** The prompts of the scenarios. *)
#[global] Instance sample_prompts : PromptBuilder := {
  specify_prompt user_input :=
    "Create a detailed feature specification for: " +:+
    str_of_option user_input;
  plan_prompt spec_content := "Create a plan for: " +:+ spec_content;
  clarify_prompt spec_content := "Find ambiguities in: " +:+ spec_content;
  suggestions_prompt command_type generated_content agent_list :=
    "I just completed a " +:+ command_value command_type +:+ " command: "
    +:+ generated_content +:+ agent_list;
}.

Definition sample_executor : CommandExecutor :=
  {| config := {| cfg_temperature := sample_temperature;
                  cfg_max_tokens := None |};
     agent_manager := [agent_archie; agent_generic] |}.

(** The scenario: load the state of feature 001-login from an empty
    disk, then specify, plan and clarify, the provider answering each
    request. *)
Definition scenario_world : World (list (result string)) :=
  sample_world [Return "# Login"; Return "- plan next";
                Return "# Plan"; Return "- tasks next";
                Return "1. Which providers?"; Return "- answer"].

Definition returned_or {A} (dflt : A) (r : result A) : A :=
  match r with Return a => a | Raise _ => dflt end.

Definition is_returned {A} (r : result A) : bool :=
  match r with Return _ => true | Raise _ => false end.

Definition no_result : HandlerResult :=
  {| res_file := ""; res_content := ""; res_suggestions := "";
     res_selected_agents := []; res_agent_used := "";
     res_success := false |}.

Definition scenario_load := load_state sample_manager "001" scenario_world.

Definition scenario_fresh : WorkflowState :=
  returned_or state_with_list scenario_load.1.

Definition scenario_specify :=
  execute_specify sample_executor (Some "Login with password") []
    {| s_world := scenario_load.2; s_state := scenario_fresh;
       s_feature := sample_feature |}.

Definition scenario_plan :=
  execute_plan sample_executor None [] scenario_specify.2.

Definition scenario_clarify :=
  execute_clarify sample_executor None [] scenario_plan.2.

(** A run on closed inputs is evaluated, and its outcome read off. *)
Ltac run_by_computation :=
  match goal with
  | |- ?run = _ =>
      let outcome := eval vm_compute in run in
      transitivity outcome; [vm_compute; reflexivity|reflexivity]
  end.

(** Closed decidable facts are settled by evaluation. *)
Ltac decide_by_computation :=
  match goal with
  | |- ?P =>
      let d := constr:(_ : Decision P) in
      apply (@bool_decide_unpack P d); vm_compute; exact I
  end.

(* ================================================================= *)
(** ** Ranking order *)

(** [b] ranks no higher than [a] for the requirement [R]: the order of
    the sort key [(score, priority)]. *)
Definition rank_le (R : list string) (b a : AgentDefinition) : Prop :=
  score_for_task b R < score_for_task a R ∨
  (score_for_task b R = score_for_task a R ∧ priority b ≤ priority a).

(** The same order on the pairs the selection sorts. *)
Definition key_le (x y : AgentDefinition * Z) : Prop :=
  key_ltb (sort_key y) (sort_key x) = false.

(** [b] ranks strictly lower than [a]. *)
Definition rank_lt (R : list string) (b a : AgentDefinition) : Prop :=
  score_for_task b R < score_for_task a R ∨
  (score_for_task b R = score_for_task a R ∧ priority b < priority a).

(* ================================================================= *)
(** ** What an execution leaves in the world *)

(** The invocation [execute_agent] makes for [agent]: the agent's prompt
    as the system message, the task as the user message. *)
Definition agent_call (agent : AgentDefinition) (task_prompt : string)
    (temperature : Qc) (max_tokens : option Z) : Call :=
  {| call_messages :=
       [ {| msg_role := "system"; msg_content := content agent |};
         {| msg_role := "user"; msg_content := task_prompt |} ];
     call_temperature := temperature;
     call_max_tokens := max_tokens |}.

(** [w'] differs from [w] in the provider and the log of invocations
    only, and the log has grown by [added]. *)
Definition only_calls {L} (w w' : World L) (added : list Call) : Prop :=
  calls w' = calls w ++ added ∧ texts w' = texts w ∧ docs w' = docs w ∧
  clock w' = clock w ∧ ticks w' = ticks w ∧ io_fault w' = io_fault w ∧
  io_ops w' = io_ops w.

(* ================================================================= *)
(** ** Documents with fewer or more keys *)

(** The state document without its optional entries. *)
Definition minimal_document (state : WorkflowState) : pyval :=
  PDict (list_to_map
    [ ("feature_id", PStr (feature_id state));
      ("current_phase", PStr (phase_value (current_phase state)));
      ("last_checkpoint", PStr (isoformat (last_checkpoint state)));
      ("last_updated", PStr (isoformat (last_updated state))) ]).


(** A stored document with the four required entries only, and a world
    whose disk holds it as the state file of the sample feature. *)
Definition stored_document : gmap string json :=
  list_to_map
    [ ("feature_id", JStr "001"); ("current_phase", JStr "plan");
      ("last_checkpoint", JStr "2025-01-15T09:30:00.250000");
      ("last_updated", JStr "2025-01-15T09:31:00") ].

Definition stored_world : World (list (result string)) :=
  set_docs {[ sm_state_file sample_manager := JObj stored_document ]}
    (sample_world []).


(* ================================================================= *)
(** ** core/commands.py: the other handlers and the dispatcher *)

(** [feature.tasks_file = tasks_file] *)
Definition set_tasks_file (p : string) (f : Feature.t) : Feature.t :=
  {| Feature.id := Feature.id f; Feature.name := Feature.name f;
     Feature.branch := Feature.branch f;
     Feature.spec_dir := Feature.spec_dir f;
     Feature.spec_file := Feature.spec_file f;
     Feature.plan_file := Feature.plan_file f;
     Feature.tasks_file := Some p |}.

(** The prompt texts of these handlers, as functions of the values their
    f-strings interpolate. *)
Class ArtifactPrompts := {
  tasks_prompt : string → string → string;
  implement_prompt : string → string → string → string;
  analyze_prompt : string → string;
  checklist_prompt : string → string;
  constitution_prompt : string → string;
}.

(** [f"{command_type}"] for a member of [class CommandType(str, Enum)]:
    its value up to Python 3.10, the qualified member name from 3.11. *)
Inductive EnumFormat := FormatValue | FormatName.

Definition command_name (c : CommandType) : string :=
  match c with
  | CONSTITUTION => "CONSTITUTION" | SPECIFY => "SPECIFY"
  | CLARIFY => "CLARIFY" | PLAN => "PLAN" | TASKS => "TASKS"
  | IMPLEMENT => "IMPLEMENT" | ANALYZE => "ANALYZE"
  | CHECKLIST => "CHECKLIST"
  end.

Definition format_command (fmt : EnumFormat) (c : CommandType) : string :=
  match fmt with
  | FormatValue => command_value c
  | FormatName => "CommandType." +:+ command_name c
  end.

(** [if user_input] for an optional string. *)
Definition option_truthy (x : option string) : bool :=
  match x with Some s => str_truthy s | None => false end.

Section MoreCommands.
Context {L : Type} `{LLMProvider L} `{PromptBuilder} `{ArtifactPrompts}.
Variable workspace_root : string.
Variable enum_format : EnumFormat.

(** [if path and path.exists(): with open(path, 'r') as f: f.read()] *)
Definition read_existing (path : option string)
    : M (Session L) (option string) :=
  match path with
  | None => ret None
  | Some p =>
      let* found := in_world (text_exists p) in
      if found then
        let* text := in_world (read_text p) in
        ret (Some text)
      else ret None
  end.

(** [context += f"\n## {title}:\n{f.read()}\n"] when the file was read. *)
Definition add_context (title : string) (text : option string)
    (context : string) : string :=
  match text with
  | Some t => context +:+ nl +:+ "## " +:+ title +:+ ":" +:+ nl +:+ t +:+ nl
  | None => context
  end.

Definition execute_tasks (self : CommandExecutor)
    (user_input : option string) (selected_agents : list AgentDefinition)
    : M (Session L) HandlerResult :=
  let* feature := gets s_feature in
  let* plan := read_existing (Feature.plan_file feature) in
  match plan with
  | None =>
      raise (CommandExecutionError
               "Plan file not found. Run /speckit.plan first.")
  | Some plan_content =>
  let* spec := read_existing (Some (Feature.spec_file feature)) in
  let spec_content := default "" spec in
  let selected_agents :=
    match selected_agents with
    | [] => select_agents_for_command (agent_manager self) TASKS
    | _ => selected_agents
    end in
  let* selected_agents := or_generic self selected_agents in
  let user_prompt := tasks_prompt spec_content plan_content in
  let* used :=
    in_world (execute_with_fallback (agent_manager self) selected_agents
                user_prompt (cfg_temperature (config self))
                (cfg_max_tokens (config self))) in
  let '(agent_used, tasks_content) := used in
  let tasks_path := path_join (Feature.spec_dir feature) "tasks.md" in
  let* _ := in_world (write_text tasks_path tasks_content) in
  let* _ := modify_feature (set_tasks_file tasks_path) in
  let* suggestions :=
    in_world (generate_suggestions TASKS tasks_content
                (agent_manager self) (cfg_temperature (config self))) in
  let state_manager := new_StateManager (Feature.spec_dir feature) in
  let* _ := modify_state (set_current_phase PH_TASKS) in
  let* _ := record_command state_manager TASKS in
  let* _ := modify_state (set_suggested_next (Some IMPLEMENT)) in
  ret {| res_file := tasks_path;
         res_content := tasks_content;
         res_suggestions := suggestions;
         res_selected_agents := name <$> selected_agents;
         res_agent_used := name agent_used;
         res_success := true |}
  end.

Definition execute_implement (self : CommandExecutor)
    (user_input : option string) (selected_agents : list AgentDefinition)
    : M (Session L) HandlerResult :=
  let selected_agents :=
    match selected_agents with
    | [] => select_agents_for_command (agent_manager self) IMPLEMENT
    | _ => selected_agents
    end in
  let* selected_agents := or_generic self selected_agents in
  let* feature := gets s_feature in
  let* tasks := read_existing (Feature.tasks_file feature) in
  match tasks with
  | None =>
      raise (CommandExecutionError
               "Tasks file not found. Run /speckit.tasks first.")
  | Some tasks_content =>
  let* spec := read_existing (Some (Feature.spec_file feature)) in
  let context := add_context "Specification" spec "" in
  let* plan := read_existing (Feature.plan_file feature) in
  let context := add_context "Plan" plan context in
  let task_filter :=
    if option_truthy user_input
    then nl +:+ nl +:+ "Focus on: " +:+ str_of_option user_input
    else "" in
  let user_prompt := implement_prompt context tasks_content task_filter in
  let* used :=
    in_world (execute_with_fallback (agent_manager self) selected_agents
                user_prompt (cfg_temperature (config self))
                (cfg_max_tokens (config self))) in
  let '(agent_used, implementation_content) := used in
  let implementation_file :=
    path_join (Feature.spec_dir feature) "implementation.md" in
  let* _ := in_world (write_text implementation_file
                        implementation_content) in
  let* suggestions :=
    in_world (generate_suggestions IMPLEMENT implementation_content
                (agent_manager self) (cfg_temperature (config self))) in
  let state_manager := new_StateManager (Feature.spec_dir feature) in
  let* _ := modify_state (set_current_phase PH_IMPLEMENT) in
  let* _ := record_command state_manager IMPLEMENT in
  ret {| res_file := implementation_file;
         res_content := implementation_content;
         res_suggestions := suggestions;
         res_selected_agents := name <$> selected_agents;
         res_agent_used := name agent_used;
         res_success := true |}
  end.

(** The [artifacts] dictionary of [execute_analyze], in insertion
    order. *)
Definition add_artifact (key : string) (text : option string)
    (artifacts : list (string * string)) : list (string * string) :=
  match text with
  | Some t => artifacts ++ [(key, t)]
  | None => artifacts
  end.

Definition artifacts_text (artifacts : list (string * string)) : string :=
  String.concat (nl +:+ nl +:+ "---" +:+ nl +:+ nl)
    ((fun '(key, content) => "## " +:+ key +:+ nl +:+ nl +:+ content)
       <$> artifacts).

Definition execute_analyze (self : CommandExecutor)
    (user_input : option string) (selected_agents : list AgentDefinition)
    : M (Session L) HandlerResult :=
  let selected_agents :=
    match selected_agents with
    | [] => select_agents_for_command (agent_manager self) ANALYZE
    | _ => selected_agents
    end in
  let* selected_agents := or_generic self selected_agents in
  let* feature := gets s_feature in
  let* spec := read_existing (Some (Feature.spec_file feature)) in
  let artifacts := add_artifact "spec.md" spec [] in
  let* plan := read_existing (Feature.plan_file feature) in
  let artifacts := add_artifact "plan.md" plan artifacts in
  let* tasks := read_existing (Feature.tasks_file feature) in
  let artifacts := add_artifact "tasks.md" tasks artifacts in
  match artifacts with
  | [] =>
      raise (CommandExecutionError
               "No artifacts found to analyze. Run /speckit.specify first.")
  | _ =>
  let user_prompt := analyze_prompt (artifacts_text artifacts) in
  let* used :=
    in_world (execute_with_fallback (agent_manager self) selected_agents
                user_prompt (cfg_temperature (config self))
                (cfg_max_tokens (config self))) in
  let '(agent_used, analysis_content) := used in
  let analysis_file := path_join (Feature.spec_dir feature) "analysis.md" in
  let* _ := in_world (write_text analysis_file analysis_content) in
  let* suggestions :=
    in_world (generate_suggestions ANALYZE analysis_content
                (agent_manager self) (cfg_temperature (config self))) in
  let state_manager := new_StateManager (Feature.spec_dir feature) in
  let* _ := record_command state_manager ANALYZE in
  ret {| res_file := analysis_file;
         res_content := analysis_content;
         res_suggestions := suggestions;
         res_selected_agents := name <$> selected_agents;
         res_agent_used := name agent_used;
         res_success := true |}
  end.

Definition execute_checklist (self : CommandExecutor)
    (user_input : option string) (selected_agents : list AgentDefinition)
    : M (Session L) HandlerResult :=
  let selected_agents :=
    match selected_agents with
    | [] => select_agents_for_command (agent_manager self) CHECKLIST
    | _ => selected_agents
    end in
  let* selected_agents := or_generic self selected_agents in
  let* feature := gets s_feature in
  let* spec := read_existing (Some (Feature.spec_file feature)) in
  let context := add_context "Specification" spec "" in
  let* plan := read_existing (Feature.plan_file feature) in
  let context := add_context "Plan" plan context in
  let* tasks := read_existing (Feature.tasks_file feature) in
  let context := add_context "Tasks" tasks context in
  if negb (str_truthy context) then
    raise (CommandExecutionError
             "No artifacts found. Run /speckit.specify first.")
  else
  let user_prompt := checklist_prompt context in
  let* used :=
    in_world (execute_with_fallback (agent_manager self) selected_agents
                user_prompt (cfg_temperature (config self))
                (cfg_max_tokens (config self))) in
  let '(agent_used, checklist_content) := used in
  let checklist_file :=
    path_join (Feature.spec_dir feature) "checklist.md" in
  let* _ := in_world (write_text checklist_file checklist_content) in
  let* suggestions :=
    in_world (generate_suggestions CHECKLIST checklist_content
                (agent_manager self) (cfg_temperature (config self))) in
  let state_manager := new_StateManager (Feature.spec_dir feature) in
  let* _ := record_command state_manager CHECKLIST in
  ret {| res_file := checklist_file;
         res_content := checklist_content;
         res_suggestions := suggestions;
         res_selected_agents := name <$> selected_agents;
         res_agent_used := name agent_used;
         res_success := true |}.

(** [workspace_root] is [self.config.workspace_root]. *)
Definition execute_constitution (self : CommandExecutor)
    (user_input : option string) (selected_agents : list AgentDefinition)
    : M (Session L) HandlerResult :=
  let selected_agents :=
    match selected_agents with
    | [] => select_agents_for_command (agent_manager self) CONSTITUTION
    | _ => selected_agents
    end in
  let* selected_agents := or_generic self selected_agents in
  let principles :=
    if option_truthy user_input
    then "User-provided principles: " +:+ str_of_option user_input
    else "" in
  let user_prompt := constitution_prompt principles in
  let* used :=
    in_world (execute_with_fallback (agent_manager self) selected_agents
                user_prompt (cfg_temperature (config self))
                (cfg_max_tokens (config self))) in
  let '(agent_used, constitution_content) := used in
  let constitution_file := path_join workspace_root "CONSTITUTION.md" in
  let* _ := in_world (write_text constitution_file
                        constitution_content) in
  let* suggestions :=
    in_world (generate_suggestions CONSTITUTION constitution_content
                (agent_manager self) (cfg_temperature (config self))) in
  let* feature := gets s_feature in
  let state_manager := new_StateManager (Feature.spec_dir feature) in
  let* _ := modify_state (set_current_phase PH_CONSTITUTION) in
  let* _ := record_command state_manager CONSTITUTION in
  ret {| res_file := constitution_file;
         res_content := constitution_content;
         res_suggestions := suggestions;
         res_selected_agents := name <$> selected_agents;
         res_agent_used := name agent_used;
         res_success := true |}.

(** [self.command_handlers]: every command type has its handler. *)
Definition command_handlers (self : CommandExecutor) (c : CommandType)
    : option string → list AgentDefinition → M (Session L) HandlerResult :=
  match c with
  | CONSTITUTION => execute_constitution self
  | SPECIFY => execute_specify self
  | CLARIFY => execute_clarify self
  | PLAN => execute_plan self
  | TASKS => execute_tasks self
  | IMPLEMENT => execute_implement self
  | ANALYZE => execute_analyze self
  | CHECKLIST => execute_checklist self
  end.

(** [agent_override] is a list or [None]; both [None] and the empty list
    leave the choice to [select_agents_for_command]. Every handler puts
    [selected_agents] into its result, so the dispatcher adds nothing. *)
Definition execute_command (self : CommandExecutor)
    (command_type : CommandType) (user_input : option string)
    (agent_override : list AgentDefinition)
    : M (Session L) HandlerResult :=
  try_except
    (let selected_agents :=
       match agent_override with
       | [] => select_agents_for_command (agent_manager self) command_type
       | _ => agent_override
       end in
     command_handlers self command_type user_input selected_agents)
    (fun e =>
       raise (CommandExecutionError
                ("Command " +:+ format_command enum_format command_type
                 +:+ " failed: " +:+ exn_str e))).
End MoreCommands.

(* ================================================================= *)
(** ** terminal/repl.py: what the REPL shows for a failed command *)

Inductive ErrorDisplay :=
| ShowAuthenticationFailed
| ShowRateLimitExceeded
| ShowCommandFailed (error_msg : string).

(** The [except] branch of [_execute_command], on [str(e)]. *)
Definition display_error (error_msg : string) : ErrorDisplay :=
  if contains "Authentication failed" error_msg then ShowAuthenticationFailed
  else if contains "Rate limit exceeded" error_msg then ShowRateLimitExceeded
  else ShowCommandFailed error_msg.

(* ================================================================= *)
(** ** Vocabulary for the statements about commands *)

(** The file a command writes its output to. *)
Definition artifact_path (workspace_root : string) (c : CommandType)
    (feature : Feature.t) : string :=
  match c with
  | CONSTITUTION => path_join workspace_root "CONSTITUTION.md"
  | SPECIFY => Feature.spec_file feature
  | CLARIFY => path_join (Feature.spec_dir feature) "clarifications.md"
  | PLAN => path_join (Feature.spec_dir feature) "plan.md"
  | TASKS => path_join (Feature.spec_dir feature) "tasks.md"
  | IMPLEMENT => path_join (Feature.spec_dir feature) "implementation.md"
  | ANALYZE => path_join (Feature.spec_dir feature) "analysis.md"
  | CHECKLIST => path_join (Feature.spec_dir feature) "checklist.md"
  end.

(** The phase and the suggestion a command leaves, given those it
    found. *)
Definition phase_after (c : CommandType) (p : WorkflowPhase)
    : WorkflowPhase :=
  match c with
  | CONSTITUTION => PH_CONSTITUTION
  | SPECIFY => PH_SPECIFY
  | PLAN => PH_PLAN
  | TASKS => PH_TASKS
  | IMPLEMENT => PH_IMPLEMENT
  | CLARIFY | ANALYZE | CHECKLIST => p
  end.

Definition suggestion_after (c : CommandType) (old : option CommandType)
    : option CommandType :=
  match c with
  | SPECIFY => Some PLAN
  | PLAN => Some TASKS
  | TASKS => Some IMPLEMENT
  | CONSTITUTION | CLARIFY | IMPLEMENT | ANALYZE | CHECKLIST => old
  end.

Definition feature_after (workspace_root : string) (c : CommandType)
    (feature : Feature.t) : Feature.t :=
  match c with
  | PLAN =>
      Feature.set_plan_file (artifact_path workspace_root c feature) feature
  | TASKS => set_tasks_file (artifact_path workspace_root c feature) feature
  | _ => feature
  end.

(** The state object as [record_command] saves it for command [c]: the
    phase assigned, the record appended at time [t], the save stamped at
    time [t']. *)
Definition recorded (c : CommandType) (t t' : datetime)
    (st : WorkflowState) : WorkflowState :=
  set_last_updated t'
    (append_command {| command := c; timestamp := t |}
       (set_current_phase (phase_after c (current_phase st)) st)).

(** Two worlds with the same disk, clock and fault oracle. *)
Definition same_disk {L} (w w' : World L) : Prop :=
  texts w' = texts w ∧ docs w' = docs w ∧ clock w' = clock w ∧
  ticks w' = ticks w ∧ io_fault w' = io_fault w.

(** Where a handler stands before it records the command: the state
    object [st], the feature [f] and the artifacts [txt] it has reached
    from the session [s0], the documents and the clock untouched. *)
Definition at_point {L} (s0 : Session L) (st : WorkflowState)
    (f : Feature.t) (txt : gmap string string) (s1 : Session L) : Prop :=
  s_state s1 = st ∧ s_feature s1 = f ∧ texts (s_world s1) = txt ∧
  docs (s_world s1) = docs (s_world s0) ∧
  ticks (s_world s1) = ticks (s_world s0) ∧
  clock (s_world s1) = clock (s_world s0) ∧
  io_fault (s_world s1) = io_fault (s_world s0).

(** What a command has done when it is over, seen from the session [s]
    it started in. *)
Definition command_outcome {L} (workspace_root : string) (c : CommandType)
    (s : Session L) (out : result HandlerResult * Session L) : Prop :=
  let f := s_feature s in
  let path := artifact_path workspace_root c f in
  let mgr := new_StateManager (Feature.spec_dir f) in
  let saved := recorded c (clock (s_world s) (ticks (s_world s)))
                 (clock (s_world s) (S (ticks (s_world s)))) (s_state s) in
  (Feature.id (s_feature out.2) = Feature.id f ∧
   Feature.name (s_feature out.2) = Feature.name f ∧
   Feature.branch (s_feature out.2) = Feature.branch f ∧
   Feature.spec_dir (s_feature out.2) = Feature.spec_dir f ∧
   Feature.spec_file (s_feature out.2) = Feature.spec_file f) ∧
  (∀ p, p ≠ path →
        texts (s_world out.2) !! p = texts (s_world s) !! p) ∧
  (∀ p, p ≠ sm_state_file mgr →
        p ≠ with_suffix ".tmp" (sm_state_file mgr) →
        docs (s_world out.2) !! p = docs (s_world s) !! p) ∧
  clock (s_world out.2) = clock (s_world s) ∧
  io_fault (s_world out.2) = io_fault (s_world s) ∧
  match out.1 with
  | Return r =>
      s_state out.2 =
        set_suggested_next
          (suggestion_after c (suggested_next (s_state s))) saved ∧
      s_feature out.2 = feature_after workspace_root c f ∧
      docs (s_world out.2) !! sm_state_file mgr
        = Some (json_dump (state_document saved)) ∧
      texts (s_world out.2) !! path = Some (res_content r) ∧
      res_file r = path ∧ res_success r = true
  | Raise e =>
      (s_state out.2 = s_state s ∧
       docs (s_world out.2) = docs (s_world s)) ∨
      (s_state out.2 = saved ∧ ∃ detail, e = StateSaveError detail)
  end.

(** Whether the artifact at an optional path exists. *)
Definition present (txt : gmap string string) (path : option string)
    : bool :=
  bool_decide (is_Some (path ≫= (txt !!.))).

(** The complaint of a command about the artifacts it needs, if it has
    one. *)
Definition missing_artifacts (c : CommandType) (f : Feature.t)
    (txt : gmap string string) : option string :=
  match c with
  | PLAN =>
      if present txt (Some (Feature.spec_file f)) then None
      else Some "Specification file not found. Run /speckit.specify first."
  | CLARIFY =>
      if present txt (Some (Feature.spec_file f)) then None
      else Some "Specification file not found."
  | TASKS =>
      if present txt (Feature.plan_file f) then None
      else Some "Plan file not found. Run /speckit.plan first."
  | IMPLEMENT =>
      if present txt (Feature.tasks_file f) then None
      else Some "Tasks file not found. Run /speckit.tasks first."
  | ANALYZE =>
      if present txt (Some (Feature.spec_file f))
         || present txt (Feature.plan_file f)
         || present txt (Feature.tasks_file f) then None
      else Some "No artifacts found to analyze. Run /speckit.specify first."
  | CHECKLIST =>
      if present txt (Some (Feature.spec_file f))
         || present txt (Feature.plan_file f)
         || present txt (Feature.tasks_file f) then None
      else Some "No artifacts found. Run /speckit.specify first."
  | SPECIFY | CONSTITUTION => None
  end.

(** The handlers that look for agents before they look for artifacts. *)
Definition checks_agents_first (c : CommandType) : bool :=
  match c with
  | PLAN | CLARIFY | TASKS => false
  | _ => true
  end.

(** The exception [execute_command] raises for a failure with text
    [detail]. *)
Definition command_failed (fmt : EnumFormat) (c : CommandType)
    (detail : string) : exn :=
  CommandExecutionError
    ("Command " +:+ format_command fmt c +:+ " failed: " +:+ detail).

(* ================================================================= *)
(** ** Sample data for the commands *)

#[global] Instance sample_artifact_prompts : ArtifactPrompts := {
  tasks_prompt spec_content plan_content :=
    "Break down: " +:+ spec_content +:+ plan_content;
  implement_prompt context tasks_content task_filter :=
    "Guide: " +:+ context +:+ tasks_content +:+ task_filter;
  analyze_prompt artifacts := "Analyze: " +:+ artifacts;
  checklist_prompt context := "Checklist for: " +:+ context;
  constitution_prompt principles := "Constitution. " +:+ principles;
}.

(** A feature that has just been created. *)
Definition draft_state : WorkflowState :=
  {| feature_id := "001"; current_phase := PH_DRAFT;
     completed_commands := []; suggested_next := None;
     context_data := ∅;
     state_file := "specs/001-login/.state/workflow.json";
     last_checkpoint := sample_time; last_updated := sample_time |}.

Definition draft_session (script : list (result string))
    : Session (list (result string)) :=
  {| s_world := sample_world script; s_state := draft_state;
     s_feature := sample_feature |}.

Definition raised_or {A} (dflt : exn) (r : result A) : exn :=
  match r with Raise e => e | Return _ => dflt end.

(** An executor without agents. *)
Definition bare_executor : CommandExecutor :=
  {| config := {| cfg_temperature := sample_temperature;
                  cfg_max_tokens := None |};
     agent_manager := [] |}.

(** [specify] with a provider that answers, and with one that refuses
    every request. *)
Definition scenario_command :=
  execute_command "." FormatName sample_executor SPECIFY
    (Some "Login with password") []
    (draft_session [Return "# Login"; Return "- plan next"]).

Definition scenario_refused :=
  execute_command "." FormatName sample_executor SPECIFY None []
    (draft_session []).

(* ================================================================= *)
(** * Properties *)

(** ** Capability matcher *)

Lemma matches_capabilities_spec a R :
  matches_capabilities a R = true ↔ ∀ t, t ∈ R → t ∈ capabilities a.
Proof.
  unfold matches_capabilities. rewrite forallb_forall. split.
  - intros H t Ht. apply list_elem_of_In in Ht.
    specialize (H t Ht). by apply bool_decide_eq_true in H.
  - intros H t Ht. apply bool_decide_eq_true, H. by apply list_elem_of_In.
Qed.

Lemma score_for_task_no_match a R :
  matches_capabilities a R = false → score_for_task a R = 0.
Proof. unfold score_for_task. by intros ->. Qed.

Lemma score_for_task_match a R :
  matches_capabilities a R = true →
  score_for_task a R =
    priority a +
    (if bool_decide (list_to_set R =@{gset string}
                     list_to_set (capabilities a)) then 5 else 0).
Proof.
  unfold score_for_task. intros ->. simpl. case_bool_decide; lia.
Qed.

(** C2: an agent that lacks a required tag scores 0, an agent whose tags
    are exactly the required ones scores its priority plus 5, and an
    agent whose tags strictly contain the required ones scores its
    priority. *)
Theorem score_for_task_cases (a : AgentDefinition) (R : list string) :
  (¬ (∀ t, t ∈ R → t ∈ capabilities a) → score_for_task a R = 0) ∧
  (list_to_set (capabilities a) =@{gset string} list_to_set R →
     score_for_task a R = priority a + 5) ∧
  (list_to_set R ⊂@{gset string} list_to_set (capabilities a) →
     score_for_task a R = priority a).
Proof.
  split; [|split].
  - intros Hno. apply score_for_task_no_match.
    destruct (matches_capabilities a R) eqn:E; [|done].
    exfalso. apply Hno. by apply matches_capabilities_spec.
  - intros Heq.
    assert (matches_capabilities a R = true) as Hm.
    { apply matches_capabilities_spec. intros t Ht.
      apply (elem_of_list_to_set (C := gset string)).
      rewrite Heq. by apply elem_of_list_to_set. }
    rewrite (score_for_task_match _ _ Hm).
    by rewrite bool_decide_eq_true_2.
  - intros [Hsub Hne].
    assert (matches_capabilities a R = true) as Hm.
    { apply matches_capabilities_spec. intros t Ht.
      apply (elem_of_list_to_set (C := gset string)), Hsub.
      by apply elem_of_list_to_set. }
    rewrite (score_for_task_match _ _ Hm).
    rewrite bool_decide_eq_false_2; [lia|].
    intros Heq. apply Hne. by rewrite Heq.
Qed.

Lemma score_for_task_cases_witness :
  score_for_task agent_archie ["testing"] = 0 ∧
  score_for_task agent_archie ["component_design"; "architecture_design"]
    = 2 + 5 ∧
  score_for_task agent_archie ["component_design"] = 2.
Proof.
  split; [|split].
  - apply (score_for_task_cases agent_archie ["testing"]).
    intros Hall. specialize (Hall "testing" (list_elem_of_here _ _)).
    apply list_elem_of_In in Hall. simpl in Hall.
    destruct Hall as [Hx|[Hx|[]]]; discriminate Hx.
  - apply (score_for_task_cases agent_archie
             ["component_design"; "architecture_design"]).
    decide_by_computation.
  - apply (score_for_task_cases agent_archie ["component_design"]).
    decide_by_computation.
Defined.

(** ** Ranking *)

Lemma elem_of_insert_desc x y l : x ∈ insert_desc y l ↔ x = y ∨ x ∈ l.
Proof.
  induction l as [|z l IH]; simpl.
  - rewrite list_elem_of_singleton, elem_of_nil. tauto.
  - destruct (key_ltb (sort_key y) (sort_key z)).
    + rewrite !elem_of_cons, IH. tauto.
    + rewrite !elem_of_cons. tauto.
Qed.

Lemma elem_of_sort_desc x l : x ∈ sort_desc l ↔ x ∈ l.
Proof.
  unfold sort_desc. induction l as [|y l IH]; simpl; [done|].
  rewrite elem_of_insert_desc, IH, elem_of_cons. tauto.
Qed.

(** What the two comprehensions of [select_agent] and [select_agents]
    leave: pairs of an agent of the pool and its positive score. *)
Lemma elem_of_candidates (pool : list AgentDefinition) R x :
  x ∈ List.filter (fun x : AgentDefinition * Z => 0 <? x.2)
        (map (fun agent => (agent, score_for_task agent R)) pool) →
  x.1 ∈ pool ∧ x.2 = score_for_task x.1 R ∧ 0 < x.2.
Proof.
  intros Hx. apply list_elem_of_In, filter_In in Hx as [Hin Hpos].
  apply in_map_iff in Hin as (a & <- & Ha). simpl in *.
  split; [by apply list_elem_of_In|]. split; [done|]. lia.
Qed.

Lemma select_agents_elem agents R n a :
  a ∈ select_agents agents R n →
  a ∈ agents ∧ enabled a = true ∧ 0 < score_for_task a R.
Proof.
  unfold select_agents.
  set (cands := List.filter _ _).
  intros Ha.
  assert (∃ x, x ∈ cands ∧ x.1 = a) as (x & Hx & <-).
  { destruct cands eqn:E; [by apply elem_of_nil in Ha|]. rewrite <- E in *.
    apply list_elem_of_fmap in Ha as (x & -> & Hx).
    exists x. split; [|done].
    apply elem_of_sort_desc. by apply (subseteq_take n). }
  apply elem_of_candidates in Hx as (Hin & Hs & Hpos).
  apply list_elem_of_In, filter_In in Hin as [Hin Hen].
  split; [by apply list_elem_of_In|]. split; [done|]. by rewrite <- Hs.
Qed.

Lemma select_agent_elem agents R a :
  select_agent agents R = Some a →
  a ∈ agents ∧ 0 < score_for_task a R.
Proof.
  unfold select_agent.
  set (cands := List.filter _ _).
  intros Ha.
  assert (∃ x, x ∈ cands ∧ x.1 = a) as (x & Hx & <-).
  { destruct cands eqn:E; [done|]. rewrite <- E in *.
    destruct (head (sort_desc cands)) as [x|] eqn:Hh; [|done].
    simpl in Ha. injection Ha as <-. exists x. split; [|done].
    apply elem_of_sort_desc. destruct (sort_desc cands); [done|].
    simpl in Hh. injection Hh as ->. apply list_elem_of_here. }
  apply elem_of_candidates in Hx as (Hin & Hs & Hpos).
  split; [done|]. by rewrite <- Hs.
Qed.

Lemma score_positive_matches a R :
  0 < score_for_task a R → matches_capabilities a R = true.
Proof.
  intros Hpos. destruct (matches_capabilities a R) eqn:E; [done|].
  rewrite (score_for_task_no_match _ _ E) in Hpos. lia.
Qed.

(** C3, as the claim has it: refuted by an agent of priority 0 that has
    more than the required tags. *)
Lemma score_iff_matches_counterexample :
  ¬ (∀ (a : AgentDefinition) (R : list string),
       0 < score_for_task a R ↔ matches_capabilities a R = true).
Proof.
  intros Hall.
  pose (a := {| oid := 0; file_path := "agents/zed.md"; name := "zed";
                role := "reviewer"; specialization := None;
                capabilities := ["code_review"; "testing"];
                priority := 0; content := ""; enabled := true |}).
  destruct (Hall a ["testing"]) as [_ Hback].
  assert (0 < score_for_task a ["testing"]) as Hpos
    by (apply Hback; reflexivity).
  vm_compute in Hpos. discriminate Hpos.
Qed.

(** C3, amended: a positive score implies a match; a match gives a
    positive score when the priority is positive; an agent that does not
    match is neither the result of [select_agent] nor in the list
    [select_agents] returns; and [select_agents_for_command] returns
    such an agent only as its generic fallback. *)
Theorem score_matches_selection (a : AgentDefinition) (R : list string)
    (agents : list AgentDefinition) (max_agents : nat) :
  (0 < score_for_task a R → matches_capabilities a R = true) ∧
  (0 < priority a → matches_capabilities a R = true →
     0 < score_for_task a R) ∧
  (matches_capabilities a R = false →
     select_agent agents R ≠ Some a ∧
     a ∉ select_agents agents R max_agents) ∧
  (∀ c, a ∈ select_agents_for_command agents c →
        matches_capabilities a (COMMAND_CAPABILITIES c) = true ∨
        get_generic_agent agents = Some a).
Proof.
  split; [apply score_positive_matches|]. split; [|split].
  - intros Hprio Hm. rewrite (score_for_task_match _ _ Hm).
    case_bool_decide; lia.
  - intros Hm. split.
    + intros Hsel. apply select_agent_elem in Hsel as [_ Hpos].
      apply score_positive_matches in Hpos. congruence.
    + intros Hsel. apply select_agents_elem in Hsel as (_ & _ & Hpos).
      apply score_positive_matches in Hpos. congruence.
  - intros c. unfold select_agents_for_command.
    assert (a ∈ match get_generic_agent agents with
                | Some generic => [generic] | None => [] end →
            get_generic_agent agents = Some a) as Hgeneric.
    { destruct (get_generic_agent agents) as [g|];
        [|by intros ?%elem_of_nil].
      by intros ->%list_elem_of_singleton. }
    destruct (COMMAND_CAPABILITIES c) as [|cap caps] eqn:Hcaps;
      [by right; apply Hgeneric|].
    destruct (select_agents agents (cap :: caps) 3) as [|b selected] eqn:Hsel;
      [by right; apply Hgeneric|].
    intros Hin. left. rewrite <- Hsel in Hin.
    apply select_agents_elem in Hin as (_ & _ & Hpos).
    by apply score_positive_matches.
Qed.

Lemma score_matches_selection_witness :
  matches_capabilities agent_archie ["component_design"] = true ∧
  0 < score_for_task agent_archie ["component_design"] ∧
  select_agent [agent_archie; agent_generic] ["component_design"]
    ≠ Some agent_generic ∧
  agent_generic ∉
    select_agents [agent_archie; agent_generic] ["component_design"] 3.
Proof.
  pose proof (score_matches_selection agent_archie ["component_design"]
                [agent_archie; agent_generic] 3) as (H1 & H2 & _).
  pose proof (score_matches_selection agent_generic ["component_design"]
                [agent_archie; agent_generic] 3) as (_ & _ & H3 & _).
  split; [apply H1; reflexivity|].
  split; [apply H2; reflexivity|].
  apply H3. reflexivity.
Defined.

(** ** The generic agent and commands without requirements *)

Lemma get_generic_agent_first agents g :
  get_generic_agent agents = Some g ↔
  role g = "generic" ∧
  ∃ before after, agents = (before ++ g :: after)%list ∧
                  ∀ a, a ∈ before → role a ≠ "generic".
Proof.
  unfold get_generic_agent. induction agents as [|a agents IH]; simpl.
  - split; [done|]. intros (_ & [|??] & ? & ? & _); done.
  - destruct (String.eqb_spec (role a) "generic") as [Ha|Ha].
    + split.
      * intros [= <-]. split; [done|]. exists [], agents.
        split; [done|]. intros ? Hin. by apply elem_of_nil in Hin.
      * intros (Hg & before & after & Heq & Hbefore).
        destruct before as [|b before]; simpl in Heq.
        -- by injection Heq as ->.
        -- injection Heq as <- _. exfalso.
           apply (Hbefore a); [apply list_elem_of_here|done].
    + rewrite IH. split.
      * intros (Hg & before & after & -> & Hbefore). split; [done|].
        exists (a :: before), after. split; [done|].
        intros b [->|Hb]%elem_of_cons; [done|by apply Hbefore].
      * intros (Hg & before & after & Heq & Hbefore). split; [done|].
        destruct before as [|b before]; simpl in Heq.
        -- injection Heq as -> _. done.
        -- injection Heq as <- ->. exists before, after. split; [done|].
           intros c Hc. apply Hbefore. by apply list_elem_of_further.
Qed.

Lemma get_generic_agent_none agents :
  get_generic_agent agents = None ↔ ∀ a, a ∈ agents → role a ≠ "generic".
Proof.
  unfold get_generic_agent. induction agents as [|a agents IH]; simpl.
  - split; [|done]. intros _ ? Hin. by apply elem_of_nil in Hin.
  - destruct (String.eqb_spec (role a) "generic") as [Ha|Ha].
    + split; [done|]. intros Hall. exfalso.
      apply (Hall a); [apply list_elem_of_here|done].
    + rewrite IH. split.
      * intros Hall b [->|Hb]%elem_of_cons; [done|by apply Hall].
      * intros Hall b Hb. apply Hall. by apply list_elem_of_further.
Qed.

(** The lookup of the generic agent never reads [enabled]. *)
Lemma get_generic_agent_enabled (flag : AgentDefinition → bool) agents :
  get_generic_agent ((fun a => with_enabled (flag a) a) <$> agents) =
  (fun a => with_enabled (flag a) a) <$> get_generic_agent agents.
Proof.
  unfold get_generic_agent. induction agents as [|a agents IH]; simpl.
  - done.
  - destruct (String.eqb (role a) "generic"); [done|apply IH].
Qed.

Lemma empty_requirements c :
  COMMAND_CAPABILITIES c = [] ↔ c = SPECIFY ∨ c = CLARIFY.
Proof.
  split.
  - destruct c; simpl; intros Hc; try discriminate Hc; auto.
  - intros [-> | ->]; reflexivity.
Qed.

(** C4: for a command without required capabilities (those are specify
    and clarify), [select_agents_for_command] returns the list of the
    first agent of role ["generic"] alone when the catalog has one, and
    the empty list when it has none; setting the [enabled] flags of the
    catalog in any way changes nothing but the flag of the returned
    agent. *)
Theorem select_agents_for_command_no_requirements
    (agents : list AgentDefinition) (c : CommandType) :
  COMMAND_CAPABILITIES c = [] →
  (c = SPECIFY ∨ c = CLARIFY) ∧
  (∀ g, get_generic_agent agents = Some g →
        select_agents_for_command agents c = [g]) ∧
  ((∃ a, a ∈ agents ∧ role a = "generic") →
     ∃ g before after,
       select_agents_for_command agents c = [g] ∧ role g = "generic" ∧
       agents = (before ++ g :: after)%list ∧
       ∀ a, a ∈ before → role a ≠ "generic") ∧
  ((∀ a, a ∈ agents → role a ≠ "generic") →
     select_agents_for_command agents c = []) ∧
  (∀ flag : AgentDefinition → bool,
     select_agents_for_command
       ((fun a => with_enabled (flag a) a) <$> agents) c =
     (fun a => with_enabled (flag a) a) <$>
       select_agents_for_command agents c).
Proof.
  intros Hc.
  assert (∀ l, select_agents_for_command l c =
               match get_generic_agent l with
               | Some g => [g] | None => [] end) as Hsel.
  { intros l. unfold select_agents_for_command. by rewrite Hc. }
  split; [by apply empty_requirements|]. split; [|split; [|split]].
  - intros g Hg. by rewrite Hsel, Hg.
  - intros (a & Ha & Hrole).
    destruct (get_generic_agent agents) as [g|] eqn:Hg.
    + pose proof Hg as Hfirst.
      apply get_generic_agent_first in Hfirst
        as (Hr & before & after & Heq & Hbefore).
      exists g, before, after. by rewrite Hsel, Hg.
    + exfalso. by apply (proj1 (get_generic_agent_none agents) Hg a).
  - intros Hnone. apply get_generic_agent_none in Hnone.
    by rewrite Hsel, Hnone.
  - intros flag. rewrite !Hsel, get_generic_agent_enabled.
    by destruct (get_generic_agent agents).
Qed.

Lemma select_agents_for_command_no_requirements_witness :
  select_agents_for_command
    [agent_archie; with_enabled false agent_generic] SPECIFY
  = [with_enabled false agent_generic] ∧
  select_agents_for_command [agent_archie] CLARIFY = [].
Proof.
  split.
  - apply (select_agents_for_command_no_requirements
             [agent_archie; with_enabled false agent_generic] SPECIFY);
      reflexivity.
  - apply (select_agents_for_command_no_requirements
             [agent_archie] CLARIFY); [reflexivity|].
    intros a Ha. apply list_elem_of_singleton in Ha as ->. discriminate.
Defined.

(** ** Execution with fallback *)

Section ExecutionProperties.
Context {L : Type} `{LLMProvider L}.
Variables (task_prompt : string) (temperature : Qc)
          (max_tokens : option Z).

Local Abbreviation run_agent a :=
  (execute_agent a task_prompt temperature max_tokens).
Local Abbreviation failing :=
  (all_fail task_prompt temperature max_tokens).

Lemma execute_agent_attempt_raise a w e w' :
  execute_agent_attempt a task_prompt temperature max_tokens w
    = (Raise e, w') →
  ∃ s, e = AgentExecutionError (failure_text a s).
Proof.
  unfold execute_agent_attempt, try_except, bind, provider_generate, ret,
    raise.
  destruct (generate _ _ _ _) as [[text|e0] l']; intros Heq;
    inversion Heq; subst. by exists (exn_str e0).
Qed.

(** An agent that fails has used up its three attempts, and what
    reaches the caller is tenacity's [RetryError] around the
    [AgentExecutionError] of the third. *)
Lemma execute_agent_raise a w e w' :
  run_agent a w = (Raise e, w') →
  ∃ s, e = RetryError (AgentExecutionError (failure_text a s)).
Proof.
  unfold execute_agent. simpl.
  destruct (execute_agent_attempt a _ _ _ w) as [[?|e1] w1] eqn:E1;
    [intros [=]|].
  destruct (execute_agent_attempt a _ _ _ w1) as [[?|e2] w2] eqn:E2;
    [intros [=]|].
  destruct (execute_agent_attempt a _ _ _ w2) as [[?|e3] w3] eqn:E3;
    [intros [=]|].
  intros [= <- <-].
  apply execute_agent_attempt_raise in E3 as [s ->]. by exists s.
Qed.

Lemma failure_text_truthy a s : str_truthy (failure_text a s) = true.
Proof. reflexivity. Qed.

Lemma error_msg_of_failure e a s :
  e = RetryError (AgentExecutionError (failure_text a s)) →
  error_msg_of (Some e) (Some (error_text e)) = failure_text a s.
Proof. by intros ->. Qed.

Lemma all_fail_last agents last w last' w' :
  failing agents last w last' w' →
  (agents = [] ∧ last' = last ∧ w' = w) ∨
  (∃ front a s, agents = (front ++ [a])%list ∧
     last' = Some (RetryError (AgentExecutionError (failure_text a s)))).
Proof.
  induction 1 as [|a rest last w e w1 last' w' Hrun Hrest IH];
    [by left|right].
  destruct IH as [(-> & -> & ->)|(front & b & s & -> & ->)].
  - apply execute_agent_raise in Hrun as [s ->]. by exists [], a, s.
  - by exists (a :: front), b, s.
Qed.

Lemma all_fail_app l1 l2 last w last1 w1 last2 w2 :
  failing l1 last w last1 w1 → failing l2 last1 w1 last2 w2 →
  failing (l1 ++ l2) last w last2 w2.
Proof.
  induction 1 as [|a rest last w e w1' last1 w1 Hrun Hrest IH]; simpl;
    [done|].
  intros H2. eapply all_fail_cons; [done|]. by apply IH.
Qed.

Lemma all_fail_app_inv l1 l2 last w last2 w2 :
  failing (l1 ++ l2) last w last2 w2 →
  ∃ last1 w1, failing l1 last w last1 w1 ∧ failing l2 last1 w1 last2 w2.
Proof.
  revert last w. induction l1 as [|a l1 IH]; simpl; intros last w Hf.
  - exists last, w. split; [constructor|done].
  - inversion Hf as [|? ? ? ? e w1' ? ? Hrun Hrest]; subst.
    apply IH in Hrest as (last1 & w1 & Hl1 & Hl2).
    exists last1, w1. split; [|done]. by eapply all_fail_cons.
Qed.

(** The loop over the candidates, when all of them fail ... *)
Lemma try_candidates_all_fail agents last w last' w' :
  failing agents last w last' w' →
  try_candidates agents task_prompt temperature max_tokens
    last (error_text <$> last) w
  = (inr (last', error_text <$> last'), w').
Proof.
  induction 1 as [|a rest last w e w1 last' w' Hrun Hrest IH]; simpl;
    [done|].
  by rewrite Hrun.
Qed.

(** ... and when one of them succeeds after the ones before it
    failed. *)
Lemma try_candidates_first_success front a rest last details w last1 w1
    text w2 :
  failing front last w last1 w1 →
  run_agent a w1 = (Return text, w2) →
  try_candidates (front ++ a :: rest) task_prompt temperature max_tokens
    last details w
  = (inl (a, text), w2).
Proof.
  intros Hfront Hrun. revert details.
  induction Hfront as [|b front last w e w1' last1 w1 Hb Hfront IH];
    simpl; intros details.
  - by rewrite Hrun.
  - rewrite Hb. by apply IH.
Qed.

Lemma error_msg_of_terminal last :
  (last = None ∨
   ∃ a s, last = Some (RetryError (AgentExecutionError
                                     (failure_text a s)))) →
  error_msg_of last (error_text <$> last) = terminal_text last.
Proof. by intros [->|(a & s & ->)]. Qed.

(** [execute_with_fallback] goes through the fallback chain in order:
    the first agent of the chain that succeeds, after all before it
    failed, is returned with its text, in the world its own success
    left. *)
Lemma execute_with_fallback_first_success self_agents agents front a rest
    w last1 w1 text w2 :
  fallback_chain self_agents agents = (front ++ a :: rest)%list →
  failing front None w last1 w1 →
  run_agent a w1 = (Return text, w2) →
  execute_with_fallback self_agents agents task_prompt temperature
    max_tokens w
  = (Return (a, text), w2).
Proof.
  unfold fallback_chain, execute_with_fallback.
  intros Hchain Hfront Hrun.
  assert ((∃ rest', agents = (front ++ a :: rest')%list) ∨
          (agents = front ∧ rest = [] ∧
           get_generic_agent self_agents = Some a ∧
           agent_in a agents = false)) as [[rest' ->]|(-> & -> & Hg & Hin)].
  { destruct (get_generic_agent self_agents) as [g|] eqn:Hg;
      [destruct (agent_in g agents) eqn:Hin|].
    - rewrite app_nil_r in Hchain. left. by exists rest.
    - destruct rest as [|r rest _] using rev_ind.
      + apply app_inj_tail in Hchain as [-> ->]. by right.
      + rewrite app_comm_cons, app_assoc in Hchain.
        apply app_inj_tail in Hchain as [-> _]. left. by exists rest.
    - rewrite app_nil_r in Hchain. left. by exists rest. }
  - by rewrite (try_candidates_first_success _ _ _ _ _ _ _ _ _ _
                  Hfront Hrun).
  - pose proof (try_candidates_all_fail _ _ _ _ _ Hfront) as Hall.
    simpl in Hall. rewrite Hall, Hg, Hin. simpl. by rewrite Hrun.
Qed.

(** When the whole chain fails, the error raised is the one
    [final_error] builds from the text of the last failure. *)
Lemma execute_with_fallback_all_fail self_agents agents w last w' :
  failing (fallback_chain self_agents agents) None w last w' →
  execute_with_fallback self_agents agents task_prompt temperature
    max_tokens w
  = (Raise (final_error (terminal_text last)), w').
Proof.
  unfold fallback_chain, execute_with_fallback. intros Hf.
  apply all_fail_app_inv in Hf as (last1 & w1 & Hagents & Hgen).
  pose proof (try_candidates_all_fail _ _ _ _ _ Hagents) as Hall.
  simpl in Hall. rewrite Hall.
  assert (error_msg_of last1 (error_text <$> last1) = terminal_text last1)
    as Hmsg1.
  { apply error_msg_of_terminal.
    destruct (all_fail_last _ _ _ _ _ Hagents)
      as [(_ & -> & _)|(front & a & s & _ & ->)]; [by left|right; eauto]. }
  destruct (get_generic_agent self_agents) as [g|];
    [destruct (agent_in g agents)|]; simpl.
  - inversion Hgen; subst. by rewrite Hmsg1.
  - inversion Hgen as [|? ? ? ? e w2 ? ? Hrun Hnil]; subst.
    inversion Hnil; subst. rewrite Hrun.
    apply execute_agent_raise in Hrun as [s ->]. done.
  - inversion Hgen; subst. by rewrite Hmsg1.
Qed.
End ExecutionProperties.

(** ** The substring test *)

Lemma prefix_occurs n h :
  String.prefix n h = true ↔ ∃ after, h = n +:+ after.
Proof.
  split.
  - revert h. induction n as [|a n IH]; intros h Hp.
    + by exists h.
    + destruct h as [|b h]; [done|]. cbn in Hp.
      destruct (ascii_dec a b) as [->|]; [|done].
      destruct (IH h Hp) as [after ->]. by exists after.
  - intros [after ->]. induction n as [|a n IH]; [by destruct after|].
    change (String a n +:+ after) with (String a (n +:+ after)). cbn.
    by destruct (ascii_dec a a).
Qed.

Lemma contains_starts n h : String.prefix n h = true → contains n h = true.
Proof. intros Hp. destruct h; cbn [contains]; by rewrite Hp. Qed.

Lemma contains_app_r n p h :
  contains n h = true → contains n (p +:+ h) = true.
Proof.
  intros Hc. induction p as [|a p IH]; [done|].
  change (String a p +:+ h) with (String a (p +:+ h)).
  cbn [contains]. rewrite IH. apply orb_true_r.
Qed.

(** [contains] decides [occurs_in]. *)
Lemma contains_occurs n h : contains n h = true ↔ occurs_in n h.
Proof.
  split.
  - induction h as [|b h IH]; cbn [contains].
    + rewrite orb_false_r. intros [after ->]%prefix_occurs.
      by exists "", after.
    + intros [Hp|Hc]%orb_true_iff.
      * apply prefix_occurs in Hp as [after ->]. by exists "", after.
      * destruct (IH Hc) as (before & after & ->).
        by exists (String b before), after.
  - intros (before & after & ->). apply contains_app_r, contains_starts.
    apply prefix_occurs. by exists after.
Qed.

Lemma auth_marker_spec error_msg :
  auth_marker error_msg = true ↔ authentication_text error_msg.
Proof.
  unfold auth_marker, authentication_text.
  rewrite !orb_true_iff, !contains_occurs. tauto.
Qed.

Lemma rate_limit_marker_spec error_msg :
  rate_limit_marker error_msg = true ↔ rate_limit_text error_msg.
Proof.
  unfold rate_limit_marker, rate_limit_text.
  by rewrite !orb_true_iff, !contains_occurs.
Qed.

Section FallbackClaims.
Context {L : Type} `{LLMProvider L}.
Variables (task_prompt : string) (temperature : Qc)
          (max_tokens : option Z).

Local Abbreviation run_agent a :=
  (execute_agent a task_prompt temperature max_tokens).
Local Abbreviation failing :=
  (all_fail task_prompt temperature max_tokens).
Local Abbreviation fallback self_agents agents :=
  (execute_with_fallback self_agents agents task_prompt temperature
     max_tokens).

(** C1: the candidates are tried in list order, each in the world the
    failure of the one before left, and the first that succeeds is
    returned with its text (the ones after it are not run); so for
    [[c1; c2]] with [c1] failing and [c2] succeeding the agent returned
    is [c2]; and when all candidates fail, or there is none, a generic
    agent of the catalog that is not among them is tried next and
    returned if it succeeds. *)
Theorem execute_with_fallback_first_success_in_order
    (self_agents agents : list AgentDefinition) :
  (∀ front a rest w last1 w1 text w2,
     agents = (front ++ a :: rest)%list →
     failing front None w last1 w1 →
     run_agent a w1 = (Return text, w2) →
     fallback self_agents agents w = (Return (a, text), w2)) ∧
  (∀ c1 c2 w e w1 text w2,
     agents = [c1; c2] →
     run_agent c1 w = (Raise e, w1) →
     run_agent c2 w1 = (Return text, w2) →
     fallback self_agents agents w = (Return (c2, text), w2)) ∧
  (∀ generic w last1 w1 text w2,
     get_generic_agent self_agents = Some generic →
     agent_in generic agents = false →
     failing agents None w last1 w1 →
     run_agent generic w1 = (Return text, w2) →
     fallback self_agents agents w = (Return (generic, text), w2)).
Proof.
  assert (∀ front a rest w last1 w1 text w2,
     agents = (front ++ a :: rest)%list →
     failing front None w last1 w1 →
     run_agent a w1 = (Return text, w2) →
     fallback self_agents agents w = (Return (a, text), w2)) as Hfirst.
  { intros front a rest w last1 w1 text w2 -> Hfront Hrun.
    eapply execute_with_fallback_first_success; [|exact Hfront|exact Hrun].
    unfold fallback_chain. by rewrite <- app_assoc. }
  split; [exact Hfirst|]. split.
  - intros c1 c2 w e w1 text w2 -> Hc1 Hc2.
    apply (Hfirst [c1] c2 [] w (Some e) w1 text w2); [done| |done].
    eapply all_fail_cons; [exact Hc1|constructor].
  - intros generic w last1 w1 text w2 Hg Hin Hall Hrun.
    eapply execute_with_fallback_first_success; [|exact Hall|exact Hrun].
    unfold fallback_chain. by rewrite Hg, Hin.
Qed.

(** C5: when every agent of the fallback chain has failed, the call
    raises an [AgentExecutionError] built from the text of the last
    failure (["None"] if nothing was tried): the authentication message
    if, letter case aside, [authentication] or [api key] occurs in that
    text, or [401] occurs in it; else the rate-limit message if, letter
    case aside, [rate limit] occurs in it, or [429] does; else the
    message that quotes the text after ["All agents failed to
    execute."]; the three messages are different from each other
    whatever the text. The two tests of the code decide exactly these
    occurrences. *)
Theorem execute_with_fallback_classifies_failure
    (self_agents agents : list AgentDefinition) (w : World L)
    (last : option exn) (w' : World L) :
  failing (fallback_chain self_agents agents) None w last w' →
  ∃ error_msg,
    error_msg = terminal_text last ∧
    fallback self_agents agents w = (Raise (final_error error_msg), w') ∧
    ((fallback_chain self_agents agents = [] ∧ error_msg = "None") ∨
     (∃ front a provider_text,
        fallback_chain self_agents agents = (front ++ [a])%list ∧
        error_msg = failure_text a provider_text)) ∧
    (authentication_text error_msg →
       final_error error_msg = AgentExecutionError (auth_message error_msg)) ∧
    (¬ authentication_text error_msg → rate_limit_text error_msg →
       final_error error_msg =
         AgentExecutionError (rate_limit_message error_msg)) ∧
    (¬ authentication_text error_msg → ¬ rate_limit_text error_msg →
       final_error error_msg =
         AgentExecutionError
           ("All agents failed to execute." +:+ nl +:+ "Error: " +:+
            error_msg)) ∧
    (auth_marker error_msg = true ↔ authentication_text error_msg) ∧
    (rate_limit_marker error_msg = true ↔ rate_limit_text error_msg) ∧
    (∀ m1 m2 m3,
       auth_message m1 ≠ rate_limit_message m2 ∧
       auth_message m1 ≠ other_message m3 ∧
       rate_limit_message m2 ≠ other_message m3).
Proof.
  intros Hfail. exists (terminal_text last). split; [done|].
  split; [by apply execute_with_fallback_all_fail|]. split.
  - destruct (all_fail_last _ _ _ _ _ _ _ _ Hfail)
      as [(Hnil & -> & _)|(front & a & s & Hchain & ->)].
    + by left.
    + right. by exists front, a, s.
  - unfold final_error.
    split; [by intros ->%auth_marker_spec|].
    split.
    { intros Hno_auth Hrate%rate_limit_marker_spec.
      destruct (auth_marker _) eqn:Hauth;
        [by apply auth_marker_spec in Hauth|]. by rewrite Hrate. }
    split.
    { intros Hno_auth Hno_rate.
      destruct (auth_marker _) eqn:Hauth;
        [by apply auth_marker_spec in Hauth|].
      destruct (rate_limit_marker _) eqn:Hrate;
        [by apply rate_limit_marker_spec in Hrate|]. done. }
    split; [apply auth_marker_spec|]. split; [apply rate_limit_marker_spec|].
    intros m1 m2 m3. unfold auth_message, rate_limit_message, other_message.
    repeat split; intros Heq; simpl in Heq; discriminate Heq.
Qed.

(** C10: with no candidate and no generic agent in the catalog, nothing
    is sent to the provider (the world, with its log of invocations, is
    left as it was) and the error raised is the one of the last branch,
    quoting ["None"]. *)
Theorem execute_with_fallback_nothing_to_try
    (self_agents : list AgentDefinition) (w : World L) :
  get_generic_agent self_agents = None →
  fallback self_agents [] w =
    (Raise (AgentExecutionError
              ("All agents failed to execute." +:+ nl +:+ "Error: None")),
     w).
Proof.
  intros Hnone. unfold execute_with_fallback. simpl. by rewrite Hnone.
Qed.
End FallbackClaims.

Lemma execute_with_fallback_first_success_in_order_witness :
  let catalog := [agent_archie; agent_taylor; agent_generic] in
  let w := sample_world [timeout_failure; timeout_failure; timeout_failure;
                         Return "the plan"] in
  (execute_with_fallback catalog [agent_archie; agent_taylor] "Plan it"
     sample_temperature None w).1 = Return (agent_taylor, "the plan") ∧
  (execute_with_fallback catalog [agent_archie] "Plan it"
     sample_temperature None w).1 = Return (agent_generic, "the plan") ∧
  (execute_with_fallback catalog [] "Plan it" sample_temperature None
     (sample_world [Return "the plan"])).1
  = Return (agent_generic, "the plan").
Proof.
  intros catalog w. split; [|split].
  - pose proof (execute_with_fallback_first_success_in_order "Plan it"
                  sample_temperature None catalog
                  [agent_archie; agent_taylor]) as (Hfirst & Htwo & _).
    erewrite Htwo; [reflexivity|reflexivity|reflexivity|reflexivity].
  - pose proof (execute_with_fallback_first_success_in_order "Plan it"
                  sample_temperature None catalog
                  [agent_archie]) as (_ & _ & Hgeneric).
    erewrite Hgeneric;
      [reflexivity|reflexivity|reflexivity
      |eapply all_fail_cons; [reflexivity|constructor]
      |reflexivity].
  - pose proof (execute_with_fallback_first_success_in_order "Plan it"
                  sample_temperature None catalog []) as (_ & _ & Hgeneric).
    erewrite Hgeneric;
      [reflexivity|reflexivity|reflexivity|constructor|reflexivity].
Defined.

(** A provider that refuses every request with the text [t]: both agents
    of the chain fail, the generic agent last. *)
Lemma refusing_chain_fails (t : string) :
  let w := sample_world (replicate 6 (Raise (ProviderFailure t))) in
  all_fail "Plan it" sample_temperature None
    (fallback_chain [agent_archie; agent_generic] [agent_archie]) None w
    (Some (RetryError (AgentExecutionError (failure_text agent_generic t))))
    (execute_with_fallback [agent_archie; agent_generic] [agent_archie]
       "Plan it" sample_temperature None w).2.
Proof.
  intros w.
  eapply all_fail_cons; [reflexivity|].
  eapply all_fail_cons; [reflexivity|].
  apply all_fail_nil.
Qed.

Lemma execute_with_fallback_classifies_failure_witness :
  let refused t :=
    (execute_with_fallback [agent_archie; agent_generic] [agent_archie]
       "Plan it" sample_temperature None
       (sample_world (replicate 6 (Raise (ProviderFailure t))))).1 in
  refused "Invalid API Key provided" =
    Raise (AgentExecutionError
      ("Authentication failed. Please check your API key is set correctly:"
       +:+ nl +:+ "  export ANTHROPIC_API_KEY=your-key-here"
       +:+ nl +:+ "  export OPENAI_API_KEY=your-key-here"
       +:+ nl +:+ "Original error: Agent generic execution failed: "
       +:+ "Invalid API Key provided")) ∧
  refused "Error code: 401" =
    Raise (AgentExecutionError
      (auth_message "Agent generic execution failed: Error code: 401")) ∧
  refused "HTTP 429 too many requests" =
    Raise (AgentExecutionError
      ("Rate limit exceeded. Please wait a moment and try again."
       +:+ nl +:+ "Original error: Agent generic execution failed: "
       +:+ "HTTP 429 too many requests")) ∧
  refused "Rate Limit reached" =
    Raise (AgentExecutionError
      (rate_limit_message
         "Agent generic execution failed: Rate Limit reached")) ∧
  refused "request timed out" =
    Raise (AgentExecutionError
      ("All agents failed to execute." +:+ nl +:+
       "Error: Agent generic execution failed: request timed out")).
Proof.
  intros refused. subst refused. cbv beta.
  assert (∀ t, ¬ contains "authentication"
                   (lower (failure_text agent_generic t)) = true →
               ¬ contains "api key"
                   (lower (failure_text agent_generic t)) = true →
               ¬ contains "401" (failure_text agent_generic t) = true →
               ¬ authentication_text (failure_text agent_generic t))
    as Hno_auth.
  { intros t H1 H2 H3 [H|[H|H]]; apply contains_occurs in H; tauto. }
  assert (∀ t, ¬ contains "rate limit"
                   (lower (failure_text agent_generic t)) = true →
               ¬ contains "429" (failure_text agent_generic t) = true →
               ¬ rate_limit_text (failure_text agent_generic t))
    as Hno_rate.
  { intros t H1 H2 [H|H]; apply contains_occurs in H; tauto. }
  split; [|split; [|split; [|split]]].
  - destruct (execute_with_fallback_classifies_failure "Plan it"
                sample_temperature None [agent_archie; agent_generic]
                [agent_archie] _ _ _
                (refusing_chain_fails "Invalid API Key provided"))
      as (msg & Hmsg & Hrun & _ & Hauth & _).
    rewrite Hrun. cbn [fst]. rewrite Hauth; subst msg; [reflexivity|].
    right. left.
    by exists "agent generic execution failed: invalid ", " provided".
  - destruct (execute_with_fallback_classifies_failure "Plan it"
                sample_temperature None [agent_archie; agent_generic]
                [agent_archie] _ _ _
                (refusing_chain_fails "Error code: 401"))
      as (msg & Hmsg & Hrun & _ & Hauth & _).
    rewrite Hrun. cbn [fst]. rewrite Hauth; subst msg; [reflexivity|].
    right. right.
    by exists "Agent generic execution failed: Error code: ", "".
  - destruct (execute_with_fallback_classifies_failure "Plan it"
                sample_temperature None [agent_archie; agent_generic]
                [agent_archie] _ _ _
                (refusing_chain_fails "HTTP 429 too many requests"))
      as (msg & Hmsg & Hrun & _ & _ & Hrate & _).
    rewrite Hrun. cbn [fst]. rewrite Hrate; subst msg; [reflexivity| |].
    + apply Hno_auth; vm_compute; discriminate.
    + right.
      by exists "Agent generic execution failed: HTTP ",
                " too many requests".
  - destruct (execute_with_fallback_classifies_failure "Plan it"
                sample_temperature None [agent_archie; agent_generic]
                [agent_archie] _ _ _
                (refusing_chain_fails "Rate Limit reached"))
      as (msg & Hmsg & Hrun & _ & _ & Hrate & _).
    rewrite Hrun. cbn [fst]. rewrite Hrate; subst msg; [reflexivity| |].
    + apply Hno_auth; vm_compute; discriminate.
    + left. by exists "agent generic execution failed: ", " reached".
  - destruct (execute_with_fallback_classifies_failure "Plan it"
                sample_temperature None [agent_archie; agent_generic]
                [agent_archie] _ _ _
                (refusing_chain_fails "request timed out"))
      as (msg & Hmsg & Hrun & _ & _ & _ & Hother & _).
    rewrite Hrun. cbn [fst]. rewrite Hother; subst msg; [reflexivity| |].
    + apply Hno_auth; vm_compute; discriminate.
    + apply Hno_rate; vm_compute; discriminate.
Defined.

Lemma execute_with_fallback_nothing_to_try_witness :
  let w := sample_world [Return "never asked for"] in
  execute_with_fallback [agent_archie; agent_taylor] [] "Plan it"
    sample_temperature None w =
  (Raise (AgentExecutionError
            ("All agents failed to execute." +:+ nl +:+ "Error: None")), w)
  ∧ calls w = [].
Proof.
  intros w. split; [|reflexivity].
  apply (execute_with_fallback_nothing_to_try "Plan it" sample_temperature
           None [agent_archie; agent_taylor] w).
  reflexivity.
Defined.

(** ** Timestamps survive [isoformat] and [fromisoformat] *)

Lemma string_app_cons c (s1 s2 : string) :
  String c s1 +:+ s2 = String c (s1 +:+ s2).
Proof. reflexivity. Qed.

Lemma string_app_nil_l (s : string) : "" +:+ s = s.
Proof. reflexivity. Qed.

Lemma string_app_assoc (s1 s2 s3 : string) :
  (s1 +:+ s2) +:+ s3 = s1 +:+ (s2 +:+ s3).
Proof.
  induction s1 as [|c s1 IH]; [done|].
  rewrite !string_app_cons. by f_equal.
Qed.

Lemma string_app_nil_r (s : string) : s +:+ "" = s.
Proof.
  induction s as [|c s IH]; [done|]. rewrite string_app_cons. by f_equal.
Qed.

Lemma digit_val_digit_char d :
  0 ≤ d < 10 → digit_val (digit_char d) = Some d.
Proof.
  intros Hd.
  assert (d = 0 ∨ d = 1 ∨ d = 2 ∨ d = 3 ∨ d = 4 ∨ d = 5 ∨ d = 6 ∨ d = 7 ∨
          d = 8 ∨ d = 9) as Hcases by lia.
  repeat (destruct Hcases as [->|Hcases]; [reflexivity|]).
  by subst.
Qed.

Lemma take_digits_zfill width n acc more rest :
  0 ≤ n < 10 ^ Z.of_nat width →
  take_digits (width + more) acc (zfill width n +:+ rest) =
  take_digits more (acc * 10 ^ Z.of_nat width + n) rest.
Proof.
  revert n more rest. induction width as [|width IH]; intros n more rest Hn.
  - simpl in *. f_equal. lia.
  - cbn [zfill]. rewrite string_app_assoc.
    replace (S width + more)%nat with (width + S more)%nat by lia.
    assert (0 ≤ n / 10 < 10 ^ Z.of_nat width) as Hdiv.
    { rewrite Nat2Z.inj_succ, Z.pow_succ_r in Hn by lia.
      split; [apply Z.div_pos; lia|].
      apply Z.div_lt_upper_bound; lia. }
    rewrite (IH _ _ _ Hdiv). rewrite string_app_cons, string_app_nil_l.
    cbn [take_digits].
    rewrite digit_val_digit_char by (apply Z.mod_pos_bound; lia).
    f_equal.
    rewrite Nat2Z.inj_succ, Z.pow_succ_r by lia.
    pose proof (Z.div_mod n 10 ltac:(lia)). lia.
Qed.

Lemma take_digits_zfill_0 width n rest :
  0 ≤ n < 10 ^ Z.of_nat width →
  take_digits width 0 (zfill width n +:+ rest) = Some (n, rest).
Proof.
  intros Hn. pose proof (take_digits_zfill width n 0 0 rest Hn) as Heq.
  rewrite Nat.add_0_r in Heq. rewrite Heq. reflexivity.
Qed.

Lemma valid_datetime_bounds d :
  valid_datetime d = true →
  0 ≤ year d < 10 ^ 4 ∧ 0 ≤ month d < 10 ^ 2 ∧ 0 ≤ day d < 10 ^ 2 ∧
  0 ≤ hour d < 10 ^ 2 ∧ 0 ≤ minute d < 10 ^ 2 ∧ 0 ≤ second d < 10 ^ 2 ∧
  0 ≤ microsecond d < 10 ^ 6.
Proof.
  unfold valid_datetime. rewrite !andb_true_iff, !Z.leb_le.
  intros Hv.
  assert (days_in_month (year d) (month d) ≤ 31).
  { unfold days_in_month. repeat case_match; lia. }
  lia.
Qed.

Local Ltac step_parser :=
  rewrite ?string_app_cons, ?string_app_nil_l;
  cbn [mbind option_bind option_ret mret expect Ascii.eqb Bool.eqb skip_char].

(** What [isoformat] prints for a valid timestamp, [fromisoformat] reads
    back as the same timestamp. *)
Lemma fromisoformat_isoformat d :
  valid_datetime d = true → fromisoformat (isoformat d) = Some d.
Proof.
  intros Hv.
  destruct (valid_datetime_bounds d Hv) as (Hy & Hmo & Hd & Hh & Hmi & Hs & Hus).
  unfold isoformat, fromisoformat.
  rewrite ?string_app_assoc.
  rewrite (take_digits_zfill_0 4) by done. step_parser.
  rewrite (take_digits_zfill_0 2) by done. step_parser.
  rewrite (take_digits_zfill_0 2) by done. step_parser.
  rewrite (take_digits_zfill_0 2) by done. step_parser.
  rewrite (take_digits_zfill_0 2) by done. step_parser.
  rewrite (take_digits_zfill_0 2) by done. cbn [mbind option_bind].
  destruct (Z.eqb_spec (microsecond d) 0) as [Hus0|Hus0].
  - cbn [mbind option_bind]. destruct d; simpl in *; subst.
    by rewrite Hv.
  - step_parser.
    pose proof (take_digits_zfill_0 6 (microsecond d) "" Hus) as Htail.
    rewrite string_app_nil_r in Htail. rewrite Htail.
    cbn [mbind option_bind]. destruct d; simpl in *. by rewrite Hv.
Qed.

(** ** The state document *)

Lemma command_of_value_value c : command_of_value (command_value c) = Some c.
Proof. by destruct c. Qed.

Lemma phase_of_value_value p : phase_of_value (phase_value p) = Some p.
Proof. by destruct p. Qed.

Lemma command_value_truthy c : str_truthy (command_value c) = true.
Proof. by destruct c. Qed.

(** JSON-native values come back from [json.dump] and [json.load] as
    they were. *)
Lemma json_load_dump (v : pyval) :
  json_native v → json_load (json_dump v) = v.
Proof.
  revert v. fix IH 2. intros v Hv.
  destruct Hv as [ | | | | | l Hl | d Hd]; simpl; try reflexivity.
  - f_equal. induction Hl as [|x l Hx Hl IHl]; simpl; [reflexivity|].
    f_equal; [apply IH, Hx | apply IHl].
  - f_equal. apply map_eq; intros i. rewrite !lookup_fmap.
    destruct (d !! i) as [x|] eqn:E; simpl; [|reflexivity].
    f_equal. apply IH, (Hd i x E).
Qed.


Lemma record_document_native cmd : json_native (record_document cmd).
Proof.
  unfold record_document. constructor. simpl.
  repeat (apply map_Forall_insert_2; [constructor|]).
  apply map_Forall_empty.
Qed.

Lemma state_document_native st :
  map_Forall (fun _ => json_native) (context_data st) →
  json_native (state_document st).
Proof.
  intros Hctx. unfold state_document. constructor. simpl.
  apply map_Forall_insert_2; [constructor|].
  apply map_Forall_insert_2; [constructor|].
  apply map_Forall_insert_2.
  { constructor. apply Forall_fmap, Forall_forall. intros cmd _.
    apply record_document_native. }
  apply map_Forall_insert_2.
  { destruct (suggested_next st) as [c|]; [|constructor].
    destruct (str_truthy (command_value c)); constructor. }
  apply map_Forall_insert_2; [by constructor|].
  apply map_Forall_insert_2; [constructor|].
  apply map_Forall_insert_2; [constructor|].
  apply map_Forall_empty.
Qed.

Lemma parse_record_document cmd :
  valid_datetime (timestamp cmd) = true →
  parse_record (record_document cmd) = Return cmd.
Proof.
  intros Hv. unfold parse_record, record_document, py_getitem. simpl.
  rewrite lookup_insert_eq. simpl.
  unfold CommandType_of. rewrite command_of_value_value. simpl.
  rewrite lookup_insert_ne by done. rewrite lookup_insert_eq. simpl.
  rewrite (fromisoformat_isoformat _ Hv). simpl. by destruct cmd.
Qed.

Lemma res_map_parse_record cmds :
  Forall (fun cmd => valid_datetime (timestamp cmd) = true) cmds →
  res_map parse_record (record_document <$> cmds) = Return cmds.
Proof.
  induction 1 as [|cmd cmds Hcmd Hcmds IH]; [done|].
  rewrite fmap_cons. cbn [res_map].
  by rewrite (parse_record_document _ Hcmd), IH.
Qed.

Lemma parse_state_document path st :
  valid_state st →
  parse_state path (state_document st) = Return (set_state_file path st).
Proof.
  intros (Hcmds & Hlc & Hlu).
  unfold parse_state, state_document, py_get, py_getitem.
  repeat (rewrite ?lookup_insert_eq, ?lookup_insert_ne by done; simpl).
  rewrite (res_map_parse_record _ Hcmds). simpl.
  repeat (rewrite ?lookup_insert_eq, ?lookup_insert_ne by done; simpl).
  unfold WorkflowPhase_of. rewrite phase_of_value_value. simpl.
  assert (match suggested_next st with
          | Some c => if str_truthy (command_value c)
                      then PStr (command_value c) else PNone
          | None => PNone
          end = match suggested_next st with
                | Some c => PStr (command_value c)
                | None => PNone
                end) as ->.
  { destruct (suggested_next st) as [c|]; [|done].
    by rewrite command_value_truthy. }
  destruct (suggested_next st) as [c|] eqn:Hsn; simpl.
  - rewrite command_value_truthy. simpl.
    repeat (rewrite ?lookup_insert_eq, ?lookup_insert_ne by done; simpl).
    unfold CommandType_of. rewrite command_of_value_value. simpl.
    rewrite (fromisoformat_isoformat _ Hlc). simpl.
    rewrite (fromisoformat_isoformat _ Hlu). simpl.
    destruct st; simpl in *. by subst.
  - rewrite (fromisoformat_isoformat _ Hlc). simpl.
    rewrite (fromisoformat_isoformat _ Hlu). simpl.
    destruct st; simpl in *. by subst.
Qed.

(** ** Saving and loading *)

Section Persistence.
Context {L : Type}.
Implicit Types (w : World L) (s : Session L).

Lemma io_check_ok w :
  no_io_faults w →
  io_check w =
    (Return tt,
     {| llm := llm w; calls := calls w; texts := texts w; docs := docs w;
        clock := clock w; ticks := ticks w; io_fault := io_fault w;
        io_ops := S (io_ops w) |}).
Proof. intros Hok. unfold io_check. by rewrite Hok. Qed.

(** Without a failing file operation [write_json] leaves the document at
    its path and no temporary file. *)
Lemma write_json_ok file_path data w :
  no_io_faults w →
  write_json file_path data w =
    (Return tt,
     {| llm := llm w; calls := calls w; texts := texts w;
        docs := <[file_path := json_dump data]>
                  (delete (with_suffix ".tmp" file_path)
                     (<[with_suffix ".tmp" file_path := json_dump data]>
                        (docs w)));
        clock := clock w; ticks := ticks w; io_fault := io_fault w;
        io_ops := S (S (S (io_ops w))) |}).
Proof.
  intros Hok. unfold write_json, try_except, bind, modify, io_check,
    set_docs, no_io_faults in *.
  repeat (cbn -[with_suffix json_dump]; rewrite ?Hok). done.
Qed.


Lemma load_state_stored self fid w st :
  no_io_faults w →
  docs w !! sm_state_file self = Some (json_dump (state_document st)) →
  valid_state st →
  map_Forall (fun _ => json_native) (context_data st) →
  ∃ w', load_state self fid w =
          (Return (set_state_file (sm_state_file self) st), w').
Proof.
  intros Hok Hdoc Hvalid Hctx. unfold load_state. rewrite Hdoc.
  rewrite bool_decide_eq_true_2 by eauto. simpl.
  unfold try_except, bind, read_json. rewrite Hdoc.
  unfold bind. rewrite io_check_ok by done. unfold ret, lift_result.
  rewrite json_load_dump by by apply state_document_native.
  rewrite parse_state_document by done. eauto.
Qed.

Lemma load_state_fresh self fid w :
  docs w !! sm_state_file self = None →
  ∃ t1 t2 w',
    load_state self fid w =
      (Return {| feature_id := fid; current_phase := PH_DRAFT;
                 completed_commands := []; suggested_next := None;
                 context_data := ∅; state_file := sm_state_file self;
                 last_checkpoint := t1; last_updated := t2 |}, w') ∧
    texts w' = texts w ∧ docs w' = docs w ∧ llm w' = llm w ∧
    io_fault w' = io_fault w.
Proof.
  intros Hnone. unfold load_state. rewrite Hnone.
  rewrite bool_decide_eq_false_2 by (by intros [? ?]). simpl.
  unfold bind, now, ret. simpl. by eexists _, _, _.
Qed.

End Persistence.



(** ** Loading the catalog *)

Section Loading.
Context `{FrontmatterParser}.



End Loading.


(** The sample directory: two of four files load, the other two are
    reported. *)
Example load_agents_sample :
  (let? loaded := _load_agents "agents" (Some sample_listing) in
   Return (name <$> loaded.1, List.length loaded.2))
  = Return (["archie"; "generic"], 2%nat).
Proof. reflexivity. Qed.

(** ** Recording a command *)

Section Recording.
Context {L : Type}.
Implicit Types (w : World L) (s : Session L).

(** What [record_command] does to the session's state object, whether
    the save that follows succeeds or raises. *)
Lemma record_command_state self cmd s r s' :
  record_command self cmd s = (r, s') →
  s_state s' =
    set_last_updated (clock (s_world s) (S (ticks (s_world s))))
      (append_command
         {| command := cmd;
            timestamp := clock (s_world s) (ticks (s_world s)) |}
         (s_state s)) ∧
  s_feature s' = s_feature s.
Proof.
  unfold record_command, save_state, bind, in_world, modify_state, modify,
    gets, now. cbn.
  destruct (write_json _ _ _) as [r' w']. by intros [= <- <-].
Qed.

Lemma record_command_ok self cmd s :
  no_io_faults (s_world s) →
  ∃ s', record_command self cmd s = (Return tt, s') ∧
        no_io_faults (s_world s') ∧
        texts (s_world s') = texts (s_world s) ∧
        llm (s_world s') = llm (s_world s).
Proof.
  intros Hok.
  unfold record_command, save_state, bind, in_world, modify_state, modify,
    gets, now. cbn.
  rewrite write_json_ok by done. by eexists.
Qed.

(** C8: [record_command] leaves the history one entry longer, the new
    entry last and every earlier entry where it was; this holds whether
    the save that follows returns or raises, and it returns when no file
    operation fails. *)
Theorem record_command_appends (self : StateManager) (cmd : CommandType)
    (s : Session L) :
  ∃ r s' t,
    record_command self cmd s = (r, s') ∧
    completed_commands (s_state s') =
      completed_commands (s_state s) ++ [ {| command := cmd; timestamp := t |} ] ∧
    List.length (completed_commands (s_state s')) =
      S (List.length (completed_commands (s_state s))) ∧
    (∀ i rec, completed_commands (s_state s) !! i = Some rec →
              completed_commands (s_state s') !! i = Some rec) ∧
    (no_io_faults (s_world s) → r = Return tt).
Proof.
  destruct (record_command self cmd s) as [r s'] eqn:Hrun.
  destruct (record_command_state _ _ _ _ _ Hrun) as [Hst _].
  exists r, s', (clock (s_world s) (ticks (s_world s))).
  split; [done|]. rewrite Hst. simpl. split; [done|]. split; [|split].
  - rewrite length_app. simpl. lia.
  - intros i rec Hi. by apply lookup_app_l_Some.
  - intros Hok. destruct (record_command_ok self cmd s Hok) as (s1 & Hs1 & _).
    congruence.
Qed.
End Recording.

Lemma record_command_appends_witness :
  let s := {| s_world := sample_world []; s_state := state_with_list;
              s_feature := sample_feature |} in
  ∃ s', record_command sample_manager PLAN s = (Return tt, s') ∧
        (command <$> completed_commands (s_state s')) = [SPECIFY; PLAN].
Proof.
  intros s.
  destruct (record_command_appends sample_manager PLAN s)
    as (r & s' & t & Hrun & Hhist & _ & _ & Hret).
  exists s'. rewrite Hrun, Hhist. split; [|reflexivity].
  f_equal. apply Hret. intros n. reflexivity.
Defined.

(** ** The handlers and the workflow state *)

Lemma bind_return_inv {S A B} (m : M S A) (k : A → M S B) s b s' :
  bind m k s = (Return b, s') →
  ∃ a s1, m s = (Return a, s1) ∧ k a s1 = (Return b, s').
Proof.
  unfold bind. destruct (m s) as [[a|e] s1]; [|intros [=]].
  intros Hk. by exists a, s1.
Qed.

Lemma in_world_inv {L A} (m : M (World L) A) (s : Session L) r s' :
  in_world m s = (r, s') →
  m (s_world s) = (r, s_world s') ∧
  s_state s' = s_state s ∧ s_feature s' = s_feature s.
Proof.
  unfold in_world. destruct (m (s_world s)) as [r' w'].
  by intros [= <- <-].
Qed.

Section Handlers.
Context {L : Type} `{LLMProvider L} `{PromptBuilder}.
Implicit Types (w : World L) (s : Session L) (self : CommandExecutor).

Lemma or_generic_inv self selected s r s' :
  or_generic self selected s = (r, s') → s' = s.
Proof.
  unfold or_generic. destruct selected; [|by intros [= _ <-]].
  destruct (get_generic_agent _); by intros [= _ <-].
Qed.

(** Takes apart a handler that returned, one [bind] at a time, keeping
    what each step did to the state object. *)
Local Ltac handler_step H :=
  let a := fresh "a" in
  let s1 := fresh "s" in
  let Hm := fresh "Hm" in
  apply bind_return_inv in H as (a & s1 & Hm & H);
  first
    [ apply or_generic_inv in Hm as ->
    | apply in_world_inv in Hm as (_ & Hm & _)
    | apply record_command_state in Hm as [Hm _]
    | inversion Hm; subst; clear Hm ];
  try match type of H with
      | context [let '(_, _) := ?p in _] => destruct p
      end;
  try match type of H with
      | (if negb ?b then _ else _) _ = _ =>
          destruct b; simpl in H; [|discriminate H]
      end.

Local Ltac handler_steps H :=
  repeat handler_step H;
  inversion H; subst; clear H; simpl in *;
  repeat match goal with
         | Heq : s_state _ = _ |- _ => rewrite Heq; clear Heq; simpl
         end.

(** The state object after [execute_specify] returned: phase set, the
    command recorded (and the state saved), then the suggestion set. *)
Lemma execute_specify_state self user_input selected s r s' :
  execute_specify self user_input selected s = (Return r, s') →
  ∃ t t',
    s_state s' =
      set_suggested_next (Some PLAN)
        (set_last_updated t'
           (append_command {| command := SPECIFY; timestamp := t |}
              (set_current_phase PH_SPECIFY (s_state s)))).
Proof.
  unfold execute_specify. intros Hrun. handler_steps Hrun. eauto.
Qed.

Lemma execute_plan_state self user_input selected s r s' :
  execute_plan self user_input selected s = (Return r, s') →
  ∃ t t',
    s_state s' =
      set_suggested_next (Some TASKS)
        (set_last_updated t'
           (append_command {| command := PLAN; timestamp := t |}
              (set_current_phase PH_PLAN (s_state s)))).
Proof.
  unfold execute_plan. intros Hrun. handler_steps Hrun. eauto.
Qed.

(** [execute_clarify] records the command and touches neither the phase
    nor the suggestion. *)
Lemma execute_clarify_state self user_input selected s r s' :
  execute_clarify self user_input selected s = (Return r, s') →
  ∃ t t',
    s_state s' =
      set_last_updated t'
        (append_command {| command := CLARIFY; timestamp := t |}
           (s_state s)).
Proof.
  unfold execute_clarify. intros Hrun. handler_steps Hrun. eauto.
Qed.

(** C9: a feature without a state document loads in phase draft with an
    empty history and no suggestion; when [execute_specify] returns, the
    phase is specify, the history is one longer and the suggestion is
    plan; when [execute_plan] returns, the phase is plan, the history is
    one longer and the suggestion is tasks; when [execute_clarify]
    returns, phase and suggestion are what they were and the history is
    one longer; so specify and then plan on a fresh state give histories
    of length 1 and 2. *)
Theorem workflow_scenario (self : CommandExecutor) :
  (∀ (mgr : StateManager) fid w,
     docs w !! sm_state_file mgr = None →
     ∃ st w', load_state mgr fid w = (Return st, w') ∧
              current_phase st = PH_DRAFT ∧ completed_commands st = [] ∧
              suggested_next st = None) ∧
  (∀ user_input selected s r s',
     execute_specify self user_input selected s = (Return r, s') →
     current_phase (s_state s') = PH_SPECIFY ∧
     suggested_next (s_state s') = Some PLAN ∧
     ∃ t, completed_commands (s_state s') =
          completed_commands (s_state s) ++
            [ {| command := SPECIFY; timestamp := t |} ]) ∧
  (∀ user_input selected s r s',
     execute_plan self user_input selected s = (Return r, s') →
     current_phase (s_state s') = PH_PLAN ∧
     suggested_next (s_state s') = Some TASKS ∧
     ∃ t, completed_commands (s_state s') =
          completed_commands (s_state s) ++
            [ {| command := PLAN; timestamp := t |} ]) ∧
  (∀ user_input selected s r s',
     execute_clarify self user_input selected s = (Return r, s') →
     current_phase (s_state s') = current_phase (s_state s) ∧
     suggested_next (s_state s') = suggested_next (s_state s) ∧
     ∃ t, completed_commands (s_state s') =
          completed_commands (s_state s) ++
            [ {| command := CLARIFY; timestamp := t |} ]) ∧
  (∀ (mgr : StateManager) fid w st w' feature input1 selected1 r1 s1
     input2 selected2 r2 s2,
     docs w !! sm_state_file mgr = None →
     load_state mgr fid w = (Return st, w') →
     execute_specify self input1 selected1
       {| s_world := w'; s_state := st; s_feature := feature |}
       = (Return r1, s1) →
     execute_plan self input2 selected2 s1 = (Return r2, s2) →
     (current_phase st = PH_DRAFT ∧ completed_commands st = [] ∧
      suggested_next st = None) ∧
     (current_phase (s_state s1) = PH_SPECIFY ∧
      List.length (completed_commands (s_state s1)) = 1%nat ∧
      suggested_next (s_state s1) = Some PLAN) ∧
     (current_phase (s_state s2) = PH_PLAN ∧
      List.length (completed_commands (s_state s2)) = 2%nat ∧
      suggested_next (s_state s2) = Some TASKS)).
Proof.
  assert (∀ (mgr : StateManager) fid w,
     docs w !! sm_state_file mgr = None →
     ∃ st w', load_state mgr fid w = (Return st, w') ∧
              current_phase st = PH_DRAFT ∧ completed_commands st = [] ∧
              suggested_next st = None) as Hfresh.
  { intros mgr fid w Hnone.
    destruct (load_state_fresh mgr fid w Hnone) as (t1 & t2 & w' & Hload & _).
    by eexists _, _. }
  split; [exact Hfresh|]. split; [|split; [|split]].
  - intros user_input selected s r s' Hrun.
    apply execute_specify_state in Hrun as (t & t' & ->). simpl. eauto.
  - intros user_input selected s r s' Hrun.
    apply execute_plan_state in Hrun as (t & t' & ->). simpl. eauto.
  - intros user_input selected s r s' Hrun.
    apply execute_clarify_state in Hrun as (t & t' & ->). simpl. eauto.
  - intros mgr fid w st w' feature input1 selected1 r1 s1 input2 selected2
      r2 s2 Hnone Hload Hspecify Hplan.
    destruct (Hfresh mgr fid w Hnone) as (st0 & w0 & Hload0 & Hph & Hcmds & Hsn).
    assert (st0 = st) as -> by congruence.
    apply execute_specify_state in Hspecify as (t1 & t1' & Hs1).
    apply execute_plan_state in Hplan as (t2 & t2' & Hs2).
    rewrite Hs2, Hs1. simpl. rewrite Hcmds. done.
Qed.
End Handlers.

Lemma workflow_scenario_witness :
  scenario_load = (Return scenario_fresh, scenario_load.2) ∧
  is_returned scenario_specify.1 = true ∧
  is_returned scenario_plan.1 = true ∧
  is_returned scenario_clarify.1 = true ∧
  (current_phase scenario_fresh = PH_DRAFT ∧
   completed_commands scenario_fresh = [] ∧
   suggested_next scenario_fresh = None) ∧
  (current_phase (s_state scenario_specify.2) = PH_SPECIFY ∧
   List.length (completed_commands (s_state scenario_specify.2)) = 1%nat ∧
   suggested_next (s_state scenario_specify.2) = Some PLAN) ∧
  (current_phase (s_state scenario_plan.2) = PH_PLAN ∧
   List.length (completed_commands (s_state scenario_plan.2)) = 2%nat ∧
   suggested_next (s_state scenario_plan.2) = Some TASKS) ∧
  (current_phase (s_state scenario_clarify.2) = PH_PLAN ∧
   List.length (completed_commands (s_state scenario_clarify.2)) = 3%nat ∧
   suggested_next (s_state scenario_clarify.2) = Some TASKS).
Proof.
  assert (load_state sample_manager "001" scenario_world =
            (Return scenario_fresh, scenario_load.2))
    as Hload by (vm_compute; reflexivity).
  assert (execute_specify sample_executor (Some "Login with password") []
            {| s_world := scenario_load.2; s_state := scenario_fresh;
               s_feature := sample_feature |} =
            (Return (returned_or no_result scenario_specify.1),
             scenario_specify.2))
    as Hspecify by (vm_compute; reflexivity).
  assert (execute_plan sample_executor None [] scenario_specify.2 =
            (Return (returned_or no_result scenario_plan.1), scenario_plan.2))
    as Hplan by (vm_compute; reflexivity).
  assert (execute_clarify sample_executor None [] scenario_plan.2 =
            (Return (returned_or no_result scenario_clarify.1),
             scenario_clarify.2))
    as Hclarify by (vm_compute; reflexivity).
  pose proof (workflow_scenario sample_executor)
    as (_ & _ & _ & Hside & Hchain).
  pose proof (Hchain sample_manager "001" scenario_world scenario_fresh
                scenario_load.2 sample_feature (Some "Login with password")
                [] (returned_or no_result scenario_specify.1)
                scenario_specify.2 None []
                (returned_or no_result scenario_plan.1) scenario_plan.2
                eq_refl Hload Hspecify Hplan) as (Hfresh & Hs1 & Hs2).
  pose proof (Hside None [] scenario_plan.2
                (returned_or no_result scenario_clarify.1)
                scenario_clarify.2 Hclarify) as (Hph & Hsn & _).
  split; [exact Hload|].
  split; [vm_compute; reflexivity|]. split; [vm_compute; reflexivity|].
  split; [vm_compute; reflexivity|].
  split; [exact Hfresh|]. split; [exact Hs1|]. split; [exact Hs2|].
  destruct Hs2 as (Hph2 & _ & Hsn2).
  split; [exact (eq_trans Hph Hph2)|].
  split; [vm_compute; reflexivity|exact (eq_trans Hsn Hsn2)].
Defined.

(** What is on disk after [execute_specify]: the state was saved by
    [record_command] before the suggestion was set, so the object in
    memory suggests plan while the document, read again, suggests
    nothing. *)
Example reload_after_specify :
  suggested_next (s_state scenario_specify.2) = Some PLAN ∧
  (let? st := (load_state sample_manager "001"
                 (s_world scenario_specify.2)).1 in
   Return (current_phase st, List.length (completed_commands st),
           suggested_next st))
  = Return (PH_SPECIFY, 1%nat, None).
Proof. split; vm_compute; reflexivity. Qed.

(* ================================================================= *)
(** * Further properties of the code *)

(** ** Selection: order and bounds *)

Lemma key_le_spec x y :
  key_le x y ↔ x.2 < y.2 ∨ (x.2 = y.2 ∧ priority x.1 ≤ priority y.1).
Proof.
  unfold key_le, key_ltb, sort_key. simpl.
  rewrite orb_false_iff, andb_false_iff, !Z.ltb_ge, Z.eqb_neq. lia.
Qed.

Lemma key_le_trans x y z : key_le x y → key_le y z → key_le x z.
Proof. rewrite !key_le_spec. lia. Qed.

Lemma key_le_total x y : key_le x y ∨ key_le y x.
Proof. rewrite !key_le_spec. lia. Qed.

Lemma insert_desc_sorted x l :
  StronglySorted (fun a b => key_le b a) l →
  StronglySorted (fun a b => key_le b a) (insert_desc x l).
Proof.
  induction 1 as [|y l Hl IH Hy]; simpl.
  - repeat constructor.
  - destruct (key_ltb (sort_key x) (sort_key y)) eqn:Hlt.
    + constructor; [done|].
      apply Forall_forall. intros z Hz.
      apply elem_of_insert_desc in Hz as [->|Hz].
      * destruct (key_le_total x y) as [Hxy|Hyx]; [done|].
        unfold key_le in Hyx. congruence.
      * by apply (proj1 (Forall_forall _ _) Hy).
    + constructor; [by constructor|].
      constructor; [done|].
      eapply Forall_impl; [exact Hy|]. intros z Hz. simpl in Hz.
      by eapply key_le_trans.
Qed.

Lemma sort_desc_sorted l :
  StronglySorted (fun a b => key_le b a) (sort_desc l).
Proof.
  unfold sort_desc. induction l as [|x l IH]; simpl; [constructor|].
  by apply insert_desc_sorted.
Qed.

Lemma length_insert_desc x l :
  List.length (insert_desc x l) = S (List.length l).
Proof.
  induction l as [|y l IH]; simpl; [done|].
  destruct (key_ltb _ _); simpl; by rewrite ?IH.
Qed.

Lemma length_sort_desc l : List.length (sort_desc l) = List.length l.
Proof.
  unfold sort_desc. induction l as [|x l IH]; simpl; [done|].
  by rewrite length_insert_desc, IH.
Qed.

Lemma strongly_sorted_lookup {A} (rel : relation A) l i j x y :
  StronglySorted rel l → (i < j)%nat →
  l !! i = Some x → l !! j = Some y → rel x y.
Proof.
  intros Hs. revert i j. induction Hs as [|z l Hl IH Hz]; intros i j Hij Hi Hj.
  - done.
  - destruct j as [|j]; [lia|]. simpl in Hj. destruct i as [|i].
    + simpl in Hi. injection Hi as ->.
      apply (proj1 (Forall_forall _ _) Hz). by eapply list_elem_of_lookup_2.
    + simpl in Hi. apply (IH i j); [lia|done|done].
Qed.

(** The candidates of [select_agents], as the two comprehensions build
    them. *)
Lemma candidates_complete (pool : list AgentDefinition) R b :
  b ∈ pool → 0 < score_for_task b R →
  (b, score_for_task b R) ∈
    List.filter (fun x : AgentDefinition * Z => 0 <? x.2)
      (map (fun agent => (agent, score_for_task agent R)) pool).
Proof.
  intros Hb Hpos. apply list_elem_of_In, filter_In. split.
  - apply in_map_iff. exists b. split; [done|]. by apply list_elem_of_In.
  - simpl. by apply Z.ltb_lt.
Qed.

(** X1: [select_agents] returns at most [max_agents] agents, all enabled
    agents of the catalog with a positive score, best first in the order
    of (score, priority); and an enabled agent with a positive score that
    is left out ranks no higher than any agent returned. *)
Theorem select_agents_ranked (agents : list AgentDefinition)
    (R : list string) (max_agents : nat) :
  (List.length (select_agents agents R max_agents) ≤ max_agents)%nat ∧
  (∀ a, a ∈ select_agents agents R max_agents →
        a ∈ agents ∧ enabled a = true ∧ 0 < score_for_task a R) ∧
  (∀ i j a b, (i < j)%nat →
        select_agents agents R max_agents !! i = Some a →
        select_agents agents R max_agents !! j = Some b →
        rank_le R b a) ∧
  (∀ a b, a ∈ select_agents agents R max_agents →
        b ∈ agents → enabled b = true → 0 < score_for_task b R →
        b ∈ select_agents agents R max_agents ∨ rank_le R b a).
Proof.
  pose proof (select_agents_elem agents R max_agents) as Hmem.
  unfold select_agents in *.
  set (cands := List.filter _ _) in *.
  assert (∀ x, x ∈ cands → x.2 = score_for_task x.1 R) as Hscore.
  { intros x Hx. by apply elem_of_candidates in Hx as (_ & ? & _). }
  assert (∀ x y, x ∈ cands → y ∈ cands → key_le y x → rank_le R y.1 x.1)
    as Hrank.
  { intros x y Hx Hy Hle. apply key_le_spec in Hle.
    unfold rank_le. rewrite <- !Hscore by done. exact Hle. }
  pose proof (sort_desc_sorted cands) as Hsorted.
  assert (match cands with
          | [] => []
          | _ => map fst (take max_agents (sort_desc cands))
          end = map fst (take max_agents (sort_desc cands))) as Heq.
  { destruct cands; [|done]. by destruct max_agents. }
  rewrite Heq in *. clear Heq.
  split; [|split; [exact Hmem|split]].
  - rewrite length_map, length_take. lia.
  - intros i j a b Hij Hi Hj.
    rewrite list_lookup_fmap in Hi, Hj.
    destruct (take max_agents (sort_desc cands) !! i) as [x|] eqn:Hx;
      [|done].
    destruct (take max_agents (sort_desc cands) !! j) as [y|] eqn:Hy;
      [|done].
    simpl in Hi, Hj. injection Hi as <-. injection Hj as <-.
    apply lookup_take_Some in Hx as [Hx _].
    apply lookup_take_Some in Hy as [Hy _].
    apply Hrank.
    + apply elem_of_sort_desc. by eapply list_elem_of_lookup_2.
    + apply elem_of_sort_desc. by eapply list_elem_of_lookup_2.
    + exact (strongly_sorted_lookup _ _ _ _ _ _ Hsorted Hij Hx Hy).
  - intros a b Ha Hb Hen Hpos.
    assert ((b, score_for_task b R) ∈ cands) as Hbc.
    { apply candidates_complete; [|done].
      apply list_elem_of_In, filter_In. split; [|done].
      by apply list_elem_of_In. }
    apply list_elem_of_fmap in Ha as (x & -> & Hx).
    apply elem_of_sort_desc in Hbc.
    rewrite <- (take_drop max_agents (sort_desc cands)) in Hbc, Hsorted.
    apply elem_of_app in Hbc as [Hin|Hout].
    + left. apply list_elem_of_fmap. by exists (b, score_for_task b R).
    + right. apply StronglySorted_app in Hsorted as (Hcross & _ & _).
      apply (Hrank x (b, score_for_task b R)).
      * apply elem_of_sort_desc. by apply (subseteq_take max_agents).
      * apply elem_of_sort_desc. by apply (subseteq_drop max_agents).
      * by apply Hcross.
Qed.

Lemma key_ltb_spec x y :
  key_ltb (sort_key x) (sort_key y) = true ↔
  x.2 < y.2 ∨ (x.2 = y.2 ∧ priority x.1 < priority y.1).
Proof.
  unfold key_ltb, sort_key. simpl.
  rewrite orb_true_iff, andb_true_iff, !Z.ltb_lt, Z.eqb_eq. lia.
Qed.

(** The head of the sorted list is the first of the best elements. *)
Lemma sort_desc_head l x t :
  sort_desc l = x :: t →
  ∃ l1 l2, l = l1 ++ x :: l2 ∧
    (∀ y, y ∈ l1 → key_ltb (sort_key y) (sort_key x) = true) ∧
    (∀ y, y ∈ l2 → key_le y x).
Proof.
  revert x t. induction l as [|y l IH]; intros x t; [done|].
  unfold sort_desc. simpl. fold (sort_desc l).
  destruct (sort_desc l) as [|h t'] eqn:Hs.
  - assert (l = []) as ->.
    { apply (f_equal List.length) in Hs. rewrite length_sort_desc in Hs.
      by destruct l. }
    simpl. intros [= <- <-]. exists [], []. split; [done|].
    split; intros ? Hin; by apply elem_of_nil in Hin.
  - destruct (IH h t' eq_refl) as (l1 & l2 & -> & H1 & H2).
    simpl. destruct (key_ltb (sort_key y) (sort_key h)) eqn:Hlt.
    + intros [= <- <-]. exists (y :: l1), l2. split; [done|]. split; [|done].
      intros z [->|Hz]%elem_of_cons; [done|by apply H1].
    + intros [= <- <-]. exists [], (l1 ++ h :: l2). split; [done|].
      split; [intros ? Hin; by apply elem_of_nil in Hin|].
      assert (key_le h y) as Hhy by done.
      intros z Hz. apply key_le_trans with h; [|done].
      apply elem_of_app in Hz as [Hz|[->|Hz]%elem_of_cons].
      * apply H1 in Hz. apply key_ltb_spec in Hz. apply key_le_spec. lia.
      * apply key_le_spec. lia.
      * by apply H2.
Qed.

(** A split of the candidates is a split of the pool they were drawn
    from. *)
Lemma candidates_split (pool : list AgentDefinition) R c1 x c2 :
  List.filter (fun x : AgentDefinition * Z => 0 <? x.2)
    (map (fun agent => (agent, score_for_task agent R)) pool)
  = c1 ++ x :: c2 →
  ∃ p1 p2, pool = p1 ++ x.1 :: p2 ∧
    (∀ b, b ∈ p1 → score_for_task b R ≤ 0 ∨ (b, score_for_task b R) ∈ c1) ∧
    (∀ b, b ∈ p2 → score_for_task b R ≤ 0 ∨ (b, score_for_task b R) ∈ c2).
Proof.
  revert c1. induction pool as [|a pool IH]; intros c1 Heq.
  - by destruct c1.
  - simpl in Heq. destruct (0 <? score_for_task a R) eqn:Hpos.
    + destruct c1 as [|c c1]; simpl in Heq.
      * injection Heq as <- Hrest. exists [], pool. split; [done|].
        split; [intros ? Hin; by apply elem_of_nil in Hin|].
        intros b Hb. destruct (Z.ltb_spec 0 (score_for_task b R)); [|by left].
        right. rewrite <- Hrest. by apply candidates_complete.
      * injection Heq as <- Hrest.
        destruct (IH c1 Hrest) as (p1 & p2 & -> & H1 & H2).
        exists (a :: p1), p2. split; [done|]. split; [|done].
        intros b [->|Hb]%elem_of_cons.
        -- right. apply list_elem_of_here.
        -- destruct (H1 b Hb); [by left|right]. by apply list_elem_of_further.
    + destruct (IH c1 Heq) as (p1 & p2 & -> & H1 & H2).
      exists (a :: p1), p2. split; [done|]. split; [|done].
      intros b [->|Hb]%elem_of_cons; [left; by apply Z.ltb_ge|by apply H1].
Qed.

Lemma score_for_task_with_enabled flag a R :
  score_for_task (with_enabled flag a) R = score_for_task a R.
Proof. reflexivity. Qed.

Lemma insert_desc_fmap (g : AgentDefinition → AgentDefinition) x l :
  (∀ a, priority (g a) = priority a) →
  insert_desc (prod_map g id x) (prod_map g id <$> l) =
  prod_map g id <$> insert_desc x l.
Proof.
  intros Hg. induction l as [|y l IH]; simpl; [done|].
  assert (∀ z, sort_key (prod_map g id z) = sort_key z) as Hkey.
  { intros [a s]. unfold sort_key. simpl. by rewrite Hg. }
  rewrite !Hkey. destruct (key_ltb _ _); simpl; [|done].
  f_equal. apply IH.
Qed.

Lemma sort_desc_fmap (g : AgentDefinition → AgentDefinition) l :
  (∀ a, priority (g a) = priority a) →
  sort_desc (prod_map g id <$> l) = prod_map g id <$> sort_desc l.
Proof.
  intros Hg. unfold sort_desc. induction l as [|x l IH]; [done|].
  rewrite fmap_cons. cbn [foldr]. rewrite IH. by apply insert_desc_fmap.
Qed.

Lemma candidates_fmap (g : AgentDefinition → AgentDefinition) R pool :
  (∀ a, score_for_task (g a) R = score_for_task a R) →
  List.filter (fun x : AgentDefinition * Z => 0 <? x.2)
    (map (fun agent => (agent, score_for_task agent R)) (g <$> pool)) =
  prod_map g id <$>
    List.filter (fun x : AgentDefinition * Z => 0 <? x.2)
      (map (fun agent => (agent, score_for_task agent R)) pool).
Proof.
  intros Hg. induction pool as [|a pool IH]; [done|].
  rewrite fmap_cons. cbn [map List.filter fst snd]. rewrite Hg, IH.
  by destruct (0 <? score_for_task a R).
Qed.

(** [select_agent] commutes with any change of the [enabled] flags. *)
Lemma select_agent_with_enabled (flag : AgentDefinition → bool) agents R :
  select_agent ((fun a => with_enabled (flag a) a) <$> agents) R =
  (fun a => with_enabled (flag a) a) <$> select_agent agents R.
Proof.
  unfold select_agent.
  rewrite (candidates_fmap (fun a => with_enabled (flag a) a)) by done.
  set (cands := List.filter _ _).
  destruct cands as [|c cands'] eqn:E; [done|]. rewrite <- E.
  assert (prod_map (fun a => with_enabled (flag a) a) id <$> cands ≠ [])
    as Hne by (by rewrite E).
  destruct (prod_map _ id <$> cands) as [|c0 l0] eqn:E2; [done|].
  rewrite <- E2. rewrite sort_desc_fmap by done.
  by destruct (sort_desc cands).
Qed.

(** X2: [select_agent] returns an agent of the catalog with a positive
    score that no agent of the catalog outranks, and of several such the
    one that comes first in the catalog; it returns nothing exactly when
    no agent has a positive score; and it never reads the [enabled]
    flags. *)
Theorem select_agent_best (agents : list AgentDefinition) (R : list string) :
  (∀ a, select_agent agents R = Some a →
        0 < score_for_task a R ∧
        (∀ b, b ∈ agents → rank_le R b a) ∧
        ∃ before after, agents = before ++ a :: after ∧
                        ∀ b, b ∈ before → rank_lt R b a) ∧
  (select_agent agents R = None ↔
     ∀ b, b ∈ agents → score_for_task b R ≤ 0) ∧
  (∀ flag : AgentDefinition → bool,
     select_agent ((fun a => with_enabled (flag a) a) <$> agents) R =
     (fun a => with_enabled (flag a) a) <$> select_agent agents R).
Proof.
  split; [|split].
  - intros a Hsel.
    destruct (select_agent_elem agents R a Hsel) as [_ Hpos].
    split; [done|].
    unfold select_agent in Hsel. set (cands := List.filter _ _) in *.
    assert (∃ x t, sort_desc cands = x :: t ∧ x.1 = a) as (x & t & Hs & <-).
    { destruct cands eqn:E; [done|]. rewrite <- E in *.
      destruct (sort_desc cands) as [|x t]; [done|].
      simpl in Hsel. injection Hsel as <-. by exists x, t. }
    destruct (sort_desc_head _ _ _ Hs) as (c1 & c2 & Hc & H1 & H2).
    assert (x.2 = score_for_task x.1 R) as Hx.
    { assert (x ∈ cands) as Hin by (rewrite Hc; set_solver).
      by apply elem_of_candidates in Hin as (_ & ? & _). }
    destruct (candidates_split _ _ _ _ _ Hc) as (p1 & p2 & Hp & Hp1 & Hp2).
    assert (∀ b, b ∈ p1 → rank_lt R b x.1) as Hbefore.
    { intros b Hb. unfold rank_lt. destruct (Hp1 b Hb) as [Hle|Hin].
      - left. lia.
      - apply H1, key_ltb_spec in Hin. simpl in Hin. rewrite Hx in Hin.
        exact Hin. }
    split; [|by exists p1, p2].
    intros b Hb. rewrite Hp in Hb. unfold rank_le.
    apply elem_of_app in Hb as [Hb|[->|Hb]%elem_of_cons].
    + apply Hbefore in Hb. unfold rank_lt in Hb. lia.
    + lia.
    + destruct (Hp2 b Hb) as [Hle|Hin]; [left; lia|].
      apply H2, key_le_spec in Hin. simpl in Hin. rewrite Hx in Hin.
      exact Hin.
  - split.
    + intros Hnone b Hb.
      destruct (Z.ltb_spec 0 (score_for_task b R)) as [Hpos|]; [|done].
      exfalso. pose proof (candidates_complete agents R b Hb Hpos) as Hin.
      unfold select_agent in Hnone. set (cands := List.filter _ _) in *.
      destruct cands eqn:E; [by apply elem_of_nil in Hin|].
      rewrite <- E in *.
      destruct (sort_desc cands) as [|x t] eqn:Hs; [|done].
      apply (f_equal List.length) in Hs.
      rewrite length_sort_desc, E in Hs. done.
    + intros Hall. destruct (select_agent agents R) as [a|] eqn:Hsel; [|done].
      apply select_agent_elem in Hsel as [Hin Hpos].
      specialize (Hall a Hin). lia.
  - intros flag. apply select_agent_with_enabled.
Qed.

(** ** Enabling, disabling and looking up by name *)

Lemma same_name_spec n a : same_name n a = true ↔ lower (name a) = lower n.
Proof. unfold same_name. apply String.eqb_eq. Qed.

Lemma get_agent_by_name_first agents n a :
  get_agent_by_name agents n = Some a ↔
  lower (name a) = lower n ∧
  ∃ before after, agents = before ++ a :: after ∧
                  ∀ x, x ∈ before → lower (name x) ≠ lower n.
Proof.
  unfold get_agent_by_name. induction agents as [|x agents IH]; simpl.
  - split; [done|]. intros (_ & [|??] & ? & ? & _); done.
  - destruct (same_name n x) eqn:Hx.
    + apply same_name_spec in Hx. split.
      * intros [= <-]. split; [done|]. exists [], agents. split; [done|].
        intros ? Hin. by apply elem_of_nil in Hin.
      * intros (Ha & before & after & Heq & Hbefore).
        destruct before as [|y before]; simpl in Heq.
        -- by injection Heq as ->.
        -- injection Heq as <- _. exfalso.
           apply (Hbefore x); [apply list_elem_of_here|done].
    + assert (lower (name x) ≠ lower n) as Hne.
      { intros Heq. apply same_name_spec in Heq. congruence. }
      rewrite IH. split.
      * intros (Ha & before & after & -> & Hbefore). split; [done|].
        exists (x :: before), after. split; [done|].
        intros y [->|Hy]%elem_of_cons; [done|by apply Hbefore].
      * intros (Ha & before & after & Heq & Hbefore). split; [done|].
        destruct before as [|y before]; simpl in Heq.
        -- injection Heq as -> _. done.
        -- injection Heq as <- ->. exists before, after. split; [done|].
           intros z Hz. apply Hbefore. by apply list_elem_of_further.
Qed.

Lemma set_enabled_by_name_found b n agents a before after :
  agents = before ++ a :: after →
  lower (name a) = lower n →
  (∀ x, x ∈ before → lower (name x) ≠ lower n) →
  set_enabled_by_name b n agents = (before ++ with_enabled b a :: after, true).
Proof.
  intros -> Ha. induction before as [|x before IH]; intros Hbefore; simpl.
  - by rewrite (proj2 (same_name_spec n a) Ha).
  - destruct (same_name n x) eqn:Hx.
    + apply same_name_spec in Hx. exfalso.
      apply (Hbefore x); [apply list_elem_of_here|done].
    + rewrite IH; [done|]. intros y Hy. apply Hbefore.
      by apply list_elem_of_further.
Qed.

Lemma set_enabled_by_name_missing b n agents :
  get_agent_by_name agents n = None →
  set_enabled_by_name b n agents = (agents, false).
Proof.
  unfold get_agent_by_name. induction agents as [|x agents IH]; simpl; [done|].
  destruct (same_name n x); [done|]. intros Hnone. by rewrite IH.
Qed.

(** X3: [enable_agent] and [disable_agent] act on the agent that
    [get_agent_by_name] finds, the first whose name equals the given one
    when both are lowercased: its flag is set and every other entry of
    the catalog, and every other field, stays as it was, and [True] is
    reported; when there is no such agent nothing changes and [False] is
    reported. The lookup depends on the given name through its lowercase
    form only. *)
Theorem set_enabled_by_name_spec (b : bool) (n : string)
    (agents : list AgentDefinition) :
  (∀ a, get_agent_by_name agents n = Some a →
        ∃ before after,
          agents = before ++ a :: after ∧
          lower (name a) = lower n ∧
          (∀ x, x ∈ before → lower (name x) ≠ lower n) ∧
          set_enabled_by_name b n agents =
            (before ++ with_enabled b a :: after, true)) ∧
  (get_agent_by_name agents n = None →
     (∀ x, x ∈ agents → lower (name x) ≠ lower n) ∧
     set_enabled_by_name b n agents = (agents, false)) ∧
  (∀ n', lower n' = lower n →
     get_agent_by_name agents n' = get_agent_by_name agents n ∧
     set_enabled_by_name b n' agents = set_enabled_by_name b n agents).
Proof.
  split; [|split].
  - intros a Hget.
    apply get_agent_by_name_first in Hget as (Ha & before & after & Heq & Hb).
    exists before, after. split; [done|]. split; [done|]. split; [done|].
    by apply set_enabled_by_name_found.
  - intros Hnone. split; [|by apply set_enabled_by_name_missing].
    intros x Hx Heq. apply same_name_spec in Heq.
    unfold get_agent_by_name in Hnone.
    pose proof (find_none _ _ Hnone x (proj1 (list_elem_of_In _ _) Hx)).
    simpl in *. congruence.
  - intros n' Hn'.
    assert (∀ a, same_name n' a = same_name n a) as Hsame.
    { intros a. unfold same_name. by rewrite Hn'. }
    split.
    + unfold get_agent_by_name. induction agents as [|x agents IH]; simpl;
        [done|]. rewrite Hsame. by destruct (same_name n x).
    + induction agents as [|x agents IH]; simpl; [done|].
      rewrite Hsame, IH. done.
Qed.

(** The catalog with all flags set: what is left of it when the flags
    are disregarded. *)
Lemma set_enabled_by_name_flags b n agents :
  with_enabled true <$> (set_enabled_by_name b n agents).1 =
  with_enabled true <$> agents.
Proof.
  induction agents as [|x agents IH]; [done|].
  cbn [set_enabled_by_name]. destruct (same_name n x); [done|].
  destruct (set_enabled_by_name b n agents) as [rest found].
  cbn [fst] in *. rewrite !fmap_cons. by f_equal.
Qed.

Lemma select_agent_flags_set agents R :
  select_agent (with_enabled true <$> agents) R =
  with_enabled true <$> select_agent agents R.
Proof. exact (select_agent_with_enabled (fun _ => true) agents R). Qed.

Lemma get_generic_agent_flags_set agents :
  get_generic_agent (with_enabled true <$> agents) =
  with_enabled true <$> get_generic_agent agents.
Proof. exact (get_generic_agent_enabled (fun _ => true) agents). Qed.

(** X4: a disabled agent is out of [select_agents], whatever the
    requirement, and remains within reach of [get_agent_by_name],
    [select_agent] and [get_generic_agent], which return what they
    returned before, up to the flag. *)
Theorem disabled_agent_still_reachable (n : string)
    (agents agents' : list AgentDefinition) :
  disable_agent n agents = (agents', true) →
  ∃ a,
    get_agent_by_name agents n = Some a ∧
    get_agent_by_name agents' n = Some (with_enabled false a) ∧
    (∀ R k, with_enabled false a ∉ select_agents agents' R k) ∧
    (∀ R, with_enabled true <$> select_agent agents' R =
          with_enabled true <$> select_agent agents R) ∧
    with_enabled true <$> get_generic_agent agents' =
    with_enabled true <$> get_generic_agent agents.
Proof.
  unfold disable_agent. intros Hdis.
  destruct (get_agent_by_name agents n) as [a|] eqn:Hget.
  - exists a. split; [done|].
    apply get_agent_by_name_first in Hget as (Ha & before & after & Heq & Hb).
    rewrite (set_enabled_by_name_found false n agents a before after)
      in Hdis by done.
    injection Hdis as <-.
    pose proof (set_enabled_by_name_flags false n agents) as Hflags.
    rewrite (set_enabled_by_name_found false n agents a before after)
      in Hflags by done. simpl in Hflags.
    split; [|split; [|split]].
    + apply get_agent_by_name_first. split; [done|]. by exists before, after.
    + intros R k Hin. by apply select_agents_elem in Hin as (_ & ? & _).
    + intros R.
      rewrite <- !select_agent_flags_set. by rewrite Hflags.
    + rewrite <- !get_generic_agent_flags_set. by rewrite Hflags.
  - rewrite set_enabled_by_name_missing in Hdis by done. done.
Qed.

Lemma disabled_agent_still_reachable_witness :
  get_agent_by_name [agent_archie; with_enabled false agent_generic] "Generic"
    = Some (with_enabled false agent_generic) ∧
  get_generic_agent [agent_archie; with_enabled false agent_generic]
    = Some (with_enabled false agent_generic) ∧
  select_agents [agent_archie; with_enabled false agent_generic] [] 3
    = [agent_archie].
Proof.
  destruct (disabled_agent_still_reachable "GENERIC"
              [agent_archie; agent_generic]
              [agent_archie; with_enabled false agent_generic] eq_refl)
    as (a & Hget & Hget' & Hout & _ & Hgen).
  injection Hget as <-.
  split; [exact Hget'|]. split; [reflexivity|]. reflexivity.
Defined.

(** X5: enabling an agent that was enabled before it was disabled gives
    back the catalog as it was; disabling twice is disabling once. *)
Theorem enable_after_disable (n : string) (agents : list AgentDefinition)
    (a : AgentDefinition) :
  get_agent_by_name agents n = Some a → enabled a = true →
  enable_agent n (disable_agent n agents).1 = (agents, true) ∧
  disable_agent n (disable_agent n agents).1 = disable_agent n agents.
Proof.
  intros Hget Hen. unfold enable_agent, disable_agent.
  apply get_agent_by_name_first in Hget as (Ha & before & after & -> & Hb).
  rewrite (set_enabled_by_name_found false n _ a before after) by done.
  simpl.
  rewrite !(set_enabled_by_name_found _ n _ (with_enabled false a)
              before after) by done.
  split; [|done]. do 3 f_equal. destruct a; simpl in *. by subst.
Qed.

Lemma enable_after_disable_witness :
  enable_agent "Archie"
    (disable_agent "Archie" [agent_archie; agent_generic]).1
  = ([agent_archie; agent_generic], true).
Proof.
  apply (enable_after_disable "Archie" [agent_archie; agent_generic]
           agent_archie); reflexivity.
Defined.

(** ** Invocations made by an execution *)

Section Invocations.
Context {L : Type} `{LLMProvider L}.
Variables (task_prompt : string) (temperature : Qc)
          (max_tokens : option Z).
Implicit Types (w : World L).

Lemma only_calls_refl w : only_calls w w [].
Proof. unfold only_calls. by rewrite app_nil_r. Qed.

Lemma only_calls_trans w1 w2 w3 l1 l2 :
  only_calls w1 w2 l1 → only_calls w2 w3 l2 → only_calls w1 w3 (l1 ++ l2).
Proof.
  unfold only_calls. intros (-> & -> & -> & -> & -> & -> & ->)
    (-> & -> & -> & -> & -> & -> & ->). by rewrite app_assoc.
Qed.

Lemma provider_generate_calls messages t mt w :
  only_calls w (provider_generate messages t mt w).2
    [ {| call_messages := messages; call_temperature := t;
         call_max_tokens := mt |} ].
Proof.
  unfold provider_generate. destruct (generate _ _ _ _) as [r l']. done.
Qed.

Lemma execute_agent_attempt_calls a w :
  only_calls w
    (execute_agent_attempt a task_prompt temperature max_tokens w).2
    [agent_call a task_prompt temperature max_tokens].
Proof.
  pose proof (provider_generate_calls
                (call_messages (agent_call a task_prompt temperature
                                  max_tokens))
                temperature max_tokens w) as Hcall.
  unfold execute_agent_attempt, try_except, bind, ret, raise.
  simpl in *. destruct (provider_generate _ _ _ w) as [[text|e] w']; done.
Qed.

Lemma retrying_calls a n w :
  let out := retrying n (execute_agent_attempt a task_prompt temperature
                           max_tokens) w in
  ∃ k, (1 ≤ k ≤ S n)%nat ∧
       only_calls w out.2
         (replicate k (agent_call a task_prompt temperature max_tokens)) ∧
       (is_returned out.1 = false → k = S n).
Proof.
  revert w. induction n as [|n IH]; intros w; simpl.
  - pose proof (execute_agent_attempt_calls a w) as Hcall.
    destruct (execute_agent_attempt a _ _ _ w) as [[text|e] w'];
      exists 1%nat; simpl in *; (split; [lia|]); by split.
  - pose proof (execute_agent_attempt_calls a w) as Hcall.
    destruct (execute_agent_attempt a _ _ _ w) as [[text|e] w'] eqn:Hrun.
    + exists 1%nat. simpl in *. split; [lia|]. by split.
    + destruct (IH w') as (k & Hk & Hcalls & Hfail). simpl in *.
      exists (S k). split; [lia|]. split.
      * apply (only_calls_trans _ _ _ [_] _ Hcall Hcalls).
      * intros Hr. by rewrite Hfail.
Qed.

(** X6: [execute_agent] invokes the provider at least once and at most
    three times, each time with the agent's prompt as the system message
    and the task as the user message, and exactly three times when it
    raises; it changes nothing else in the world. *)
Theorem execute_agent_invocations (agent : AgentDefinition) (w : World L) :
  let out := execute_agent agent task_prompt temperature max_tokens w in
  ∃ k, (1 ≤ k ≤ 3)%nat ∧
       only_calls w out.2
         (replicate k (agent_call agent task_prompt temperature max_tokens))
       ∧ (is_returned out.1 = false → k = 3%nat).
Proof. apply (retrying_calls agent 2 w). Qed.

Lemma execute_agent_calls a w :
  let out := execute_agent a task_prompt temperature max_tokens w in
  ∃ k, (1 ≤ k ≤ 3)%nat ∧
       only_calls w out.2
         (replicate k (agent_call a task_prompt temperature max_tokens)) ∧
       (is_returned out.1 = false → k = 3%nat).
Proof. apply (retrying_calls a 2 w). Qed.

Local Abbreviation three_calls :=
  (flat_map (fun b => replicate 3 (agent_call b task_prompt temperature
                                     max_tokens))).

Lemma try_candidates_calls agents last details w :
  let out := try_candidates agents task_prompt temperature max_tokens
               last details w in
  match out.1 with
  | inl (a, text) =>
      ∃ front rest k,
        agents = front ++ a :: rest ∧ (1 ≤ k ≤ 3)%nat ∧
        only_calls w out.2
          (three_calls front ++
           replicate k (agent_call a task_prompt temperature max_tokens))
  | inr _ => only_calls w out.2 (three_calls agents)
  end.
Proof.
  revert last details w. induction agents as [|a agents IH];
    intros last details w; cbn [try_candidates].
  - apply only_calls_refl.
  - destruct (execute_agent_calls a w) as (k & Hk & Hcalls & Hfail).
    destruct (execute_agent a _ _ _ w) as [[text|e] w1]; cbn [fst snd] in *.
    + exists [], agents, k. done.
    + rewrite (Hfail eq_refl) in Hcalls.
      specialize (IH (Some e) (Some (error_text e)) w1).
      destruct (try_candidates agents _ _ _ _ _ w1) as [[[b text]|?] w2];
        cbn [fst snd] in *.
      * destruct IH as (front & rest & k' & -> & Hk' & Hcalls').
        exists (a :: front), rest, k'. split; [done|]. split; [done|].
        cbn [flat_map]. rewrite <- app_assoc.
        by apply (only_calls_trans _ _ _ _ _ Hcalls Hcalls').
      * cbn [flat_map]. by apply (only_calls_trans _ _ _ _ _ Hcalls IH).
Qed.

(** X7: [execute_with_fallback] works through the candidates followed by
    the generic agent (if the catalog has one that is not a candidate):
    when it raises, every one of them was invoked exactly three times, in
    that order; when it returns an agent, the agents before it were
    invoked three times each, the agent itself one to three times, and the
    agents after it not at all. Nothing but the provider and the log of
    invocations changes: no file is written and the clock is not read. *)
Theorem execute_with_fallback_invocations
    (self_agents agents : list AgentDefinition) (w : World L) :
  let out := execute_with_fallback self_agents agents task_prompt
               temperature max_tokens w in
  match out.1 with
  | Return (a, text) =>
      ∃ front rest k,
        fallback_chain self_agents agents = front ++ a :: rest ∧
        (1 ≤ k ≤ 3)%nat ∧
        only_calls w out.2
          (three_calls front ++
           replicate k (agent_call a task_prompt temperature max_tokens))
  | Raise e =>
      only_calls w out.2 (three_calls (fallback_chain self_agents agents))
  end.
Proof.
  unfold execute_with_fallback, fallback_chain.
  pose proof (try_candidates_calls agents None None w) as Hloop.
  destruct (try_candidates agents _ _ _ _ _ w) as [[[a text]|[last details]] w1];
    cbn [fst snd] in *.
  - destruct Hloop as (front & rest & k & -> & Hk & Hcalls).
    exists front, (rest ++ match get_generic_agent self_agents with
                           | Some generic =>
                               if agent_in generic (front ++ a :: rest)
                               then [] else [generic]
                           | None => []
                           end), k.
    split; [by rewrite <- app_assoc|]. done.
  - destruct (get_generic_agent self_agents) as [g|];
      [destruct (agent_in g agents)|]; cbn [negb fst snd].
    + by rewrite app_nil_r.
    + destruct (execute_agent_calls g w1) as (k & Hk & Hcalls & Hfail).
      destruct (execute_agent g _ _ _ w1) as [[text|e] w2];
        cbn [fst snd] in *.
      * exists agents, [], k. split; [done|]. split; [done|].
        by apply (only_calls_trans _ _ _ _ _ Hloop Hcalls).
      * rewrite (Hfail eq_refl) in Hcalls.
        rewrite flat_map_app. cbn [flat_map]. rewrite app_nil_r.
        by apply (only_calls_trans _ _ _ _ _ Hloop Hcalls).
    + by rewrite app_nil_r.
Qed.
End Invocations.

Lemma select_agents_nil agents R n :
  select_agents agents R n = [] ↔
  n = 0%nat ∨
  ∀ a, a ∈ agents → enabled a = true → score_for_task a R ≤ 0.
Proof.
  split.
  - intros Hnil.
    destruct n as [|n]; [by left|right]. intros a Ha Hen.
    destruct (Z.ltb_spec 0 (score_for_task a R)) as [Hpos|]; [|done].
    exfalso.
    assert (a ∈ List.filter enabled agents) as Hin.
    { apply list_elem_of_In, filter_In. split; [by apply list_elem_of_In|done]. }
    pose proof (candidates_complete _ R a Hin Hpos) as Hc.
    unfold select_agents in Hnil. set (cands := List.filter _ _) in *.
    destruct cands eqn:E; [by apply elem_of_nil in Hc|]. rewrite <- E in *.
    apply (f_equal List.length) in Hnil.
    rewrite length_map, length_take, length_sort_desc, E in Hnil.
    simpl in Hnil. lia.
  - intros [->|Hnone].
    + unfold select_agents. by destruct (List.filter _ _).
    + destruct (select_agents agents R n) as [|a l] eqn:Hsel; [done|].
      assert (a ∈ select_agents agents R n) as Ha
        by (rewrite Hsel; apply list_elem_of_here).
      apply select_agents_elem in Ha as (Hin & Hen & Hpos).
      specialize (Hnone a Hin Hen). lia.
Qed.

(** X8: [select_agents_for_command] never returns more than three
    agents, and it returns none only when the catalog has no generic
    agent and, for a command with requirements, no enabled agent with a
    positive score either. *)
Theorem select_agents_for_command_bounds (agents : list AgentDefinition)
    (c : CommandType) :
  (List.length (select_agents_for_command agents c) ≤ 3)%nat ∧
  (select_agents_for_command agents c = [] ↔
     get_generic_agent agents = None ∧
     (COMMAND_CAPABILITIES c = [] ∨
      ∀ a, a ∈ agents → enabled a = true →
           score_for_task a (COMMAND_CAPABILITIES c) ≤ 0)).
Proof.
  unfold select_agents_for_command.
  destruct (COMMAND_CAPABILITIES c) as [|cap caps] eqn:Hcaps.
  - destruct (get_generic_agent agents); simpl;
      (split; [lia|]); split; try done; [by intros []|by auto].
  - pose proof (select_agents_nil agents (cap :: caps) 3) as Hnil.
    assert (List.length (select_agents agents (cap :: caps) 3) ≤ 3)%nat
      as Hlen.
    { unfold select_agents. destruct (List.filter _ _); simpl; [lia|].
      rewrite length_map, length_take. lia. }
    destruct (select_agents agents (cap :: caps) 3) as [|a l] eqn:Hsel.
    + assert (∀ a, a ∈ agents → enabled a = true →
                   score_for_task a (cap :: caps) ≤ 0) as Hnone.
      { destruct (proj1 Hnil eq_refl) as [?|?]; [done|done]. }
      destruct (get_generic_agent agents); simpl;
        (split; [lia|]); split; try done; [by intros []|by auto].
    + split; [done|]. split; [done|].
      intros [_ [?|Hnone]]; [done|].
      assert ((a :: l) = []) as Habs by (apply Hnil; by right). done.
Qed.

(** ** Files *)

Section FileProperties.
Context {L : Type}.
Implicit Types (w : World L).

(** X9: [write_json] is all or nothing for the target, provided the
    temporary path differs from it: when it returns, the target holds the
    new document and no temporary file is left; when it raises, what it
    raises is a [StateSaveError] and the target is as it was. No other
    document and no artifact is touched either way. *)
Theorem write_json_atomic (file_path : string) (data : pyval) (w : World L) :
  with_suffix ".tmp" file_path ≠ file_path →
  let out := write_json file_path data w in
  let temp_path := with_suffix ".tmp" file_path in
  match out.1 with
  | Return _ =>
      docs out.2 !! file_path = Some (json_dump data) ∧
      docs out.2 !! temp_path = None
  | Raise e =>
      (∃ detail, e = StateSaveError ("Failed to write " +:+ file_path +:+
                                     ": " +:+ detail)) ∧
      docs out.2 !! file_path = docs w !! file_path
  end ∧
  (∀ p, p ≠ file_path → p ≠ temp_path → docs out.2 !! p = docs w !! p) ∧
  texts out.2 = texts w ∧ calls out.2 = calls w.
Proof.
  intros Hne. unfold write_json, try_except, bind, modify, io_check, raise,
    set_docs. cbn.
  destruct (io_fault w (io_ops w)) as [m1|]; cbn.
  { split; [|done]. split; [by exists m1|done]. }
  destruct (io_fault w (S (io_ops w))) as [m2|]; cbn.
  { split; [|done]. split; [by exists m2|done]. }
  destruct (io_fault w (S (S (io_ops w)))) as [m3|]; cbn.
  - split; [|split; [|done]].
    + split; [by exists m3|]. by rewrite lookup_insert_ne.
    + intros p _ Hp. by rewrite lookup_insert_ne.
  - split; [|split; [|done]].
    + split; [by rewrite lookup_insert_eq|].
      rewrite lookup_insert_ne by done. by rewrite lookup_delete_eq.
    + intros p Hp1 Hp2.
      rewrite lookup_insert_ne by done. rewrite lookup_delete_ne by done.
      by rewrite lookup_insert_ne.
Qed.

Lemma write_json_return file_path data w w' :
  write_json file_path data w = (Return tt, w') →
  docs w' !! file_path = Some (json_dump data) ∧
  io_fault w' = io_fault w ∧ texts w' = texts w ∧ llm w' = llm w ∧
  calls w' = calls w ∧ clock w' = clock w ∧ ticks w' = ticks w.
Proof.
  unfold write_json, try_except, bind, modify, io_check, raise, set_docs.
  cbn.
  destruct (io_fault w (io_ops w)) as [m1|]; cbn; [intros [=]|].
  destruct (io_fault w (S (io_ops w))) as [m2|]; cbn; [intros [=]|].
  destruct (io_fault w (S (S (io_ops w)))) as [m3|]; cbn; [intros [=]|].
  intros [= <-]. cbn. by rewrite lookup_insert_eq.
Qed.

(** X10: what [write_json] wrote, [read_json] reads back: the document as
    [json] decodes it, which is the value written when that value is
    JSON-native. *)
Theorem read_json_after_write (file_path : string) (data : pyval)
    (w w' : World L) :
  write_json file_path data w = (Return tt, w') →
  io_fault w' (io_ops w') = None →
  (read_json file_path w').1 = Return (json_load (json_dump data)) ∧
  (json_native data → (read_json file_path w').1 = Return data).
Proof.
  intros Hwrite Hio.
  apply write_json_return in Hwrite as (Hdoc & _).
  assert ((read_json file_path w').1 = Return (json_load (json_dump data)))
    as Hread.
  { unfold read_json, bind, io_check, ret. rewrite Hdoc. cbn.
    by rewrite Hio. }
  split; [done|]. intros Hnative. by rewrite Hread, json_load_dump.
Qed.
End FileProperties.

Lemma write_json_atomic_witness :
  let p := sm_state_file sample_manager in
  let w := sample_world [] in
  docs (write_json p (PList [PInt 1]) w).2 !! p = Some (JArr [JInt 1]) ∧
  docs (write_json p (PList [PInt 1]) w).2 !! with_suffix ".tmp" p = None.
Proof.
  intros p w.
  pose proof (write_json_atomic p (PList [PInt 1]) w) as Hatomic.
  assert (with_suffix ".tmp" p ≠ p) as Hne by (vm_compute; discriminate).
  specialize (Hatomic Hne). cbv zeta in Hatomic.
  assert ((write_json p (PList [PInt 1]) w).1 = Return tt) as Hret
    by (vm_compute; reflexivity).
  rewrite Hret in Hatomic. destruct Hatomic as [[H1 H2] _].
  split; [exact H1|exact H2].
Defined.

Lemma read_json_after_write_witness :
  let p := sm_state_file sample_manager in
  (read_json p (write_json p (PList [PInt 1]) (sample_world [])).2).1
  = Return (PList [PInt 1]).
Proof.
  intros p.
  destruct (read_json_after_write p (PList [PInt 1]) (sample_world [])
              (write_json p (PList [PInt 1]) (sample_world [])).2)
    as [_ Hnative].
  - vm_compute. reflexivity.
  - reflexivity.
  - apply Hnative. repeat constructor.
Defined.

(** ** Loading *)

Lemma res_bind_return_inv {A B} (r : result A) (k : A → result B) b :
  res_bind r k = Return b → ∃ a, r = Return a ∧ k a = Return b.
Proof. destruct r as [a|e]; [by exists a|done]. Qed.

Lemma py_get_return_inv data key dflt v :
  py_get data key dflt = Return v →
  ∃ d, data = PDict d ∧ v = default dflt (d !! key).
Proof. destruct data; try done. intros [= <-]. by eexists. Qed.

Lemma py_getitem_return_inv data key v :
  py_getitem data key = Return v →
  ∃ d, data = PDict d ∧ d !! key = Some v.
Proof.
  destruct data as [| | | | | | |d|]; try done. cbn.
  destruct (d !! key) eqn:Hk; [|done]. intros [= <-]. by eexists.
Qed.

(** What a document must hold for [parse_state] to return. *)
Lemma parse_state_inv path data st :
  parse_state path data = Return st →
  ∃ d, data = PDict d ∧
    d !! "feature_id" = Some (PStr (feature_id st)) ∧
    (∃ v, d !! "current_phase" = Some v ∧
          WorkflowPhase_of v = Return (current_phase st)) ∧
    (∃ v, d !! "last_checkpoint" = Some v ∧
          datetime_of v = Return (last_checkpoint st)) ∧
    (∃ v, d !! "last_updated" = Some v ∧
          datetime_of v = Return (last_updated st)) ∧
    (∃ recs, py_iter (default (PList []) (d !! "completed_commands"))
               = Return recs ∧
             res_map parse_record recs = Return (completed_commands st)) ∧
    (py_truthy (default PNone (d !! "suggested_next")) = false →
     suggested_next st = None) ∧
    (∃ ctx, default (PDict ∅) (d !! "context_data") = PDict ctx ∧
            context_data st = ctx) ∧
    state_file st = path.
Proof.
  unfold parse_state. intros H.
  apply res_bind_return_inv in H as (recs0 & Hrecs0 & H).
  apply py_get_return_inv in Hrecs0 as (d & -> & ->).
  apply res_bind_return_inv in H as (recs & Hrecs & H).
  apply res_bind_return_inv in H as (completed & Hcompleted & H).
  apply res_bind_return_inv in H as (fid & Hfid & H).
  apply py_getitem_return_inv in Hfid as (d1 & [= <-] & Hfid).
  apply res_bind_return_inv in H as (ph & Hph & H).
  apply py_getitem_return_inv in Hph as (d1 & [= <-] & Hph).
  apply res_bind_return_inv in H as (phase & Hphase & H).
  apply res_bind_return_inv in H as (sn & Hsn & H).
  apply py_get_return_inv in Hsn as (d1 & [= <-] & ->).
  apply res_bind_return_inv in H as (suggested & Hsuggested & H).
  apply res_bind_return_inv in H as (ctx & Hctx & H).
  apply py_get_return_inv in Hctx as (d1 & [= <-] & ->).
  apply res_bind_return_inv in H as (lc & Hlc & H).
  apply py_getitem_return_inv in Hlc as (d1 & [= <-] & Hlc).
  apply res_bind_return_inv in H as (checkpoint & Hcheckpoint & H).
  apply res_bind_return_inv in H as (lu & Hlu & H).
  apply py_getitem_return_inv in Hlu as (d1 & [= <-] & Hlu).
  apply res_bind_return_inv in H as (updated & Hupdated & H).
  destruct fid as [| | | |fid'| | | |]; try done.
  destruct (default (PDict ∅) (d !! "context_data")) as [| | | | | | |ctx|]
    eqn:Hctx; try done.
  injection H as <-. cbn.
  exists d. split; [done|]. split; [done|].
  split; [by exists ph|]. split; [by exists lc|]. split; [by exists lu|].
  split; [by exists recs|]. split; [|split; [by exists ctx|done]].
  intros Hfalse. rewrite Hfalse in Hsuggested. by injection Hsuggested as <-.
Qed.


Section LoadProperties.
Context {L : Type}.
Implicit Types (w : World L) (s : Session L).

(** X11: [load_state] only reads. Whatever it does, artifacts, documents
    and the invocation log are as before. When it raises, the state file
    exists and the error is a [StateLoadError] whose text starts with
    Failed to load state; when it returns, the state carries the manager's
    path, and without a state file it is a draft for the feature asked
    for, with no history and no suggestion. *)
Theorem load_state_read_only (self : StateManager) (fid : string)
    (w : World L) :
  let out := load_state self fid w in
  texts out.2 = texts w ∧ docs out.2 = docs w ∧ calls out.2 = calls w ∧
  match out.1 with
  | Raise e =>
      is_Some (docs w !! sm_state_file self) ∧
      ∃ detail, e = StateLoadError ("Failed to load state: " +:+ detail)
  | Return st =>
      state_file st = sm_state_file self ∧
      (docs w !! sm_state_file self = None →
       feature_id st = fid ∧ current_phase st = PH_DRAFT ∧
       completed_commands st = [] ∧ suggested_next st = None ∧
       context_data st = ∅)
  end.
Proof.
  unfold load_state.
  destruct (docs w !! sm_state_file self) as [j|] eqn:Hdoc.
  - rewrite bool_decide_eq_true_2 by eauto. cbn [negb].
    unfold try_except, bind, read_json. cbn beta. rewrite Hdoc.
    unfold bind, raise, lift_result, ret, io_check.
    destruct (io_fault w (io_ops w)) as [msg|]; cbn.
    { repeat split; eauto. }
    destruct (parse_state (sm_state_file self) (json_load j)) as [st|e]
      eqn:Hparse; cbn.
    + apply parse_state_inv in Hparse
        as (d & _ & _ & _ & _ & _ & _ & _ & _ & Hfile).
      split; [done|]. split; [done|]. split; [done|]. split; [done|].
      intros [=].
    + repeat split; eauto.
  - rewrite bool_decide_eq_false_2 by (by intros [? ?]). cbn.
    repeat split.
Qed.


(** X13: of the seven keys only four are required. A stored document that
    lacks [feature_id], [current_phase], [last_checkpoint] or
    [last_updated] makes [load_state] raise; and when it returns, the
    feature id of the state is the one stored, whatever id was asked
    for. *)
Theorem load_state_required_keys (self : StateManager) (fid : string)
    (w : World L) (j : json) :
  docs w !! sm_state_file self = Some j →
  match (load_state self fid w).1 with
  | Return st =>
      ∃ m, j = JObj m ∧ m !! "feature_id" = Some (JStr (feature_id st)) ∧
           is_Some (m !! "current_phase") ∧
           is_Some (m !! "last_checkpoint") ∧
           is_Some (m !! "last_updated")
  | Raise _ => True
  end.
Proof.
  intros Hdoc. unfold load_state. rewrite Hdoc.
  rewrite bool_decide_eq_true_2 by eauto. cbn [negb].
  unfold try_except, bind, read_json. cbn beta. rewrite Hdoc.
  unfold bind, raise, lift_result, ret, io_check.
  destruct (io_fault w (io_ops w)) as [msg|]; cbn; [done|].
  destruct (parse_state (sm_state_file self) (json_load j)) as [st|e]
    eqn:Hparse; cbn; [|done].
  apply parse_state_inv in Hparse
    as (d & Hd & Hfid & (v1 & Hph & _) & (v2 & Hlc & _) & (v3 & Hlu & _) & _).
  destruct j as [| | | | | |m]; try done. injection Hd as <-.
  exists m. split; [done|].
  rewrite lookup_fmap in Hfid, Hph, Hlc, Hlu.
  destruct (m !! "feature_id") as [[]|]; try done.
  destruct (m !! "current_phase"); [|done].
  destruct (m !! "last_checkpoint"); [|done].
  destruct (m !! "last_updated"); [|done].
  injection Hfid as <-. eauto.
Qed.
End LoadProperties.

(** X14: the other three keys are optional: a document with the four
    required entries only loads as a state with no history, no suggestion
    and an empty extension bag. *)
Theorem parse_state_minimal_document (path : string) (st : WorkflowState) :
  valid_datetime (last_checkpoint st) = true →
  valid_datetime (last_updated st) = true →
  parse_state path (minimal_document st) =
    Return {| feature_id := feature_id st;
              current_phase := current_phase st;
              completed_commands := []; suggested_next := None;
              context_data := ∅; state_file := path;
              last_checkpoint := last_checkpoint st;
              last_updated := last_updated st |}.
Proof.
  intros Hlc Hlu.
  unfold parse_state, minimal_document, py_get, py_getitem.
  repeat (rewrite ?lookup_insert_eq, ?lookup_insert_ne by done; simpl).
  unfold WorkflowPhase_of. rewrite phase_of_value_value. simpl.
  rewrite (fromisoformat_isoformat _ Hlc). simpl.
  by rewrite (fromisoformat_isoformat _ Hlu).
Qed.


Lemma load_state_required_keys_witness :
  ∃ st, (load_state sample_manager "002" stored_world).1 = Return st ∧
        feature_id st = "001".
Proof.
  pose proof (load_state_required_keys sample_manager "002" stored_world
                (JObj stored_document)) as Hkeys.
  assert (docs stored_world !! sm_state_file sample_manager
          = Some (JObj stored_document)) as Hdoc by (vm_compute; reflexivity).
  specialize (Hkeys Hdoc).
  destruct (load_state sample_manager "002" stored_world).1 as [st|e] eqn:Hrun.
  - exists st. split; [done|].
    destruct Hkeys as (m & [= <-] & Hfid & _).
    assert (stored_document !! "feature_id" = Some (JStr "001")) as Hstored
      by (vm_compute; reflexivity).
    rewrite Hstored in Hfid. by injection Hfid as <-.
  - vm_compute in Hrun. discriminate Hrun.
Defined.

Lemma parse_state_minimal_document_witness :
  current_phase
    (returned_or state_with_tuple
       (parse_state "workflow.json" (minimal_document state_with_list)))
  = PH_SPECIFY.
Proof.
  rewrite (parse_state_minimal_document "workflow.json" state_with_list);
    reflexivity.
Defined.

(** ** Phase changes *)

Section PhaseProperties.
Context {L : Type}.
Implicit Types (w : World L) (s : Session L).


End PhaseProperties.


(** ** Commands *)

Lemma bind_case {S A B} (m : M S A) (k : A → M S B)
    (P : result B * S → Prop) s :
  (∀ e s1, m s = (Raise e, s1) → P (Raise e, s1)) →
  (∀ a s1, m s = (Return a, s1) → P (k a s1)) →
  P (bind m k s).
Proof.
  intros Hraise Hret. unfold bind.
  destruct (m s) as [[a|e] s1]; [by apply Hret|by apply Hraise].
Qed.

Lemma bind_gets {S A B} (f : S → A) (k : A → M S B) s :
  bind (gets f) k s = k (f s) s.
Proof. reflexivity. Qed.

Lemma bind_modify {S B} (f : S → S) (k : unit → M S B) s :
  bind (modify f) k s = k tt (f s).
Proof. reflexivity. Qed.

Lemma set_current_phase_same st :
  set_current_phase (current_phase st) st = st.
Proof. by destruct st. Qed.

Lemma set_suggested_next_same st :
  set_suggested_next (suggested_next st) st = st.
Proof. by destruct st. Qed.

Section WorldSteps.
Context {L : Type} `{LLMProvider L}.
Implicit Types (w : World L).

Lemma same_disk_refl w : same_disk w w.
Proof. done. Qed.

Lemma same_disk_trans w1 w2 w3 :
  same_disk w1 w2 → same_disk w2 w3 → same_disk w1 w3.
Proof.
  unfold same_disk. intros (-> & -> & -> & -> & ->) (-> & -> & -> & -> & ->).
  done.
Qed.

Lemma only_calls_same_disk w w' added :
  only_calls w w' added → same_disk w w'.
Proof. unfold only_calls, same_disk. by intros (_ & ? & ? & ? & ? & ? & _). Qed.

Lemma execute_with_fallback_same_disk self_agents agents task_prompt
    temperature max_tokens w :
  same_disk w (execute_with_fallback self_agents agents task_prompt
                 temperature max_tokens w).2.
Proof.
  unfold execute_with_fallback.
  pose proof (try_candidates_calls task_prompt temperature max_tokens
                agents None None w) as Hloop.
  destruct (try_candidates agents _ _ _ _ _ w)
    as [[[a text]|[last details]] w1]; cbn [fst snd] in *.
  - destruct Hloop as (front & rest & k & _ & _ & Hcalls).
    by apply only_calls_same_disk in Hcalls.
  - apply only_calls_same_disk in Hloop.
    destruct (get_generic_agent self_agents) as [g|];
      [destruct (agent_in g agents)|]; cbn [negb fst snd]; try done.
    destruct (execute_agent_calls task_prompt temperature max_tokens g w1)
      as (k & _ & Hcalls & _).
    apply only_calls_same_disk in Hcalls.
    destruct (execute_agent g _ _ _ w1) as [[text|e] w2];
      cbn [fst snd] in *; by apply (same_disk_trans _ _ _ Hloop).
Qed.

Lemma io_check_same_disk w : same_disk w (io_check w).2.
Proof. unfold io_check. by destruct (io_fault w (io_ops w)). Qed.

Lemma read_text_same_disk path w : same_disk w (read_text path w).2.
Proof.
  unfold read_text, bind, io_check, gets, ret, raise.
  destruct (io_fault w (io_ops w)); cbn; [done|].
  by destruct (texts w !! path).
Qed.

Lemma read_text_result path w text :
  (read_text path w).1 = Return text → texts w !! path = Some text.
Proof.
  unfold read_text, bind, io_check, gets, ret, raise.
  destruct (io_fault w (io_ops w)); cbn; [done|].
  destruct (texts w !! path); cbn; [|done]. by intros [= ->].
Qed.

Lemma write_text_effect path text w :
  let out := write_text path text w in
  texts out.2 = match out.1 with
                | Return _ => <[path := text]> (texts w)
                | Raise _ => texts w
                end ∧
  docs out.2 = docs w ∧ clock out.2 = clock w ∧ ticks out.2 = ticks w ∧
  io_fault out.2 = io_fault w.
Proof.
  unfold write_text, bind, io_check, modify, set_texts.
  by destruct (io_fault w (io_ops w)).
Qed.
End WorldSteps.

Section CommandSteps.
Context {L : Type} `{LLMProvider L} `{PromptBuilder} `{ArtifactPrompts}.
Implicit Types (w : World L) (s : Session L) (self : CommandExecutor).

Lemma generate_suggestions_same_disk c text agents temperature w :
  same_disk w (generate_suggestions c text agents temperature w).2.
Proof.
  unfold generate_suggestions, bind.
  pose proof (provider_generate_calls
                [ {| msg_role := "user";
                     msg_content :=
                       suggestions_prompt c text
                         (String.concat nl
                            ((fun agent => "  - " +:+ name agent +:+ ": " +:+
                                str_of_option (specialization agent))
                               <$> take 10 (list_agents agents false))) |} ]
                temperature (Some 500) w) as Hcalls.
  apply only_calls_same_disk in Hcalls.
  by destruct (provider_generate _ _ _ w) as [[text'|e] w'].
Qed.

Lemma at_point_start s : 
  at_point s (s_state s) (s_feature s) (texts (s_world s)) s.
Proof. done. Qed.

(** A step in the world that leaves the disk alone. *)
Lemma step_in_world {A} (m : M (World L) A) s0 st f txt s1 r s2 :
  (∀ w, same_disk w (m w).2) →
  at_point s0 st f txt s1 →
  in_world m s1 = (r, s2) →
  at_point s0 st f txt s2.
Proof.
  intros Hm (Hst & Hf & Htxt & Hdocs & Hticks & Hclock & Hio) Hrun.
  apply in_world_inv in Hrun as (Hrun & Hst' & Hf').
  specialize (Hm (s_world s1)). rewrite Hrun in Hm.
  destruct Hm as (Ht & Hd & Hc & Hk & Hi). cbn [snd] in *.
  unfold at_point. by rewrite Hst', Hf', Ht, Hd, Hc, Hk, Hi.
Qed.

Lemma step_text_exists path s0 st f txt s1 r s2 :
  at_point s0 st f txt s1 →
  in_world (text_exists path) s1 = (r, s2) →
  at_point s0 st f txt s2 ∧
  r = Return (bool_decide (is_Some (txt !! path))).
Proof.
  intros Hat Hrun. split.
  - by apply (step_in_world (text_exists path) _ _ _ _ _ _ _
                (fun w => same_disk_refl w) Hat Hrun).
  - destruct Hat as (_ & _ & <- & _).
    apply in_world_inv in Hrun as (Hrun & _). by injection Hrun as <- _.
Qed.

Lemma step_read_text path s0 st f txt s1 r s2 :
  at_point s0 st f txt s1 →
  in_world (read_text path) s1 = (r, s2) →
  at_point s0 st f txt s2 ∧
  ∀ text, r = Return text → txt !! path = Some text.
Proof.
  intros Hat Hrun. split.
  - by apply (step_in_world (read_text path) _ _ _ _ _ _ _
                (read_text_same_disk path) Hat Hrun).
  - destruct Hat as (_ & _ & <- & _).
    apply in_world_inv in Hrun as (Hrun & _). intros text ->.
    apply read_text_result. by rewrite Hrun.
Qed.

Lemma step_read_existing path s0 st f txt s1 r s2 :
  at_point s0 st f txt s1 →
  read_existing path s1 = (r, s2) →
  at_point s0 st f txt s2 ∧
  ∀ found, r = Return found → found = path ≫= (txt !!.).
Proof.
  intros Hat. unfold read_existing. destruct path as [p|]; cbn [mbind option_bind].
  - apply bind_case.
    + intros e s3 Hrun [= <- <-].
      by apply (step_text_exists _ _ _ _ _ _ _ _ Hat) in Hrun as [_ [=]].
    + intros found s3 Hrun.
      apply (step_text_exists _ _ _ _ _ _ _ _ Hat) in Hrun as [Hat3 [= ->]].
      case_bool_decide as Hsome.
      * apply bind_case.
        -- intros e s4 Hrun [= <- <-].
           apply (step_read_text _ _ _ _ _ _ _ _ Hat3) in Hrun as [? _].
           split; [done|]. intros ? [=].
        -- intros text s4 Hrun [= <- <-].
           apply (step_read_text _ _ _ _ _ _ _ _ Hat3) in Hrun as [? Htext].
           split; [done|]. intros ? [= <-]. by rewrite (Htext _ eq_refl).
      * intros [= <- <-]. split; [done|]. intros ? [= <-].
        by apply eq_None_not_Some in Hsome.
  - intros [= <- <-]. split; [done|]. by intros ? [= <-].
Qed.

Lemma step_or_generic self selected s1 r s2 :
  or_generic self selected s1 = (r, s2) →
  s2 = s1 ∧
  match r with
  | Return agents => agents ≠ []
  | Raise e =>
      e = CommandExecutionError "No agents available" ∧ selected = [] ∧
      get_generic_agent (agent_manager self) = None
  end.
Proof.
  unfold or_generic. destruct selected; [|by intros [= <- <-]].
  destruct (get_generic_agent _); by intros [= <- <-].
Qed.

Lemma step_write_text path text s0 st f txt s1 r s2 :
  at_point s0 st f txt s1 →
  in_world (write_text path text) s1 = (r, s2) →
  at_point s0 st f
    (match r with Return _ => <[path := text]> txt | Raise _ => txt end) s2.
Proof.
  intros (Hst & Hf & Htxt & Hdocs & Hticks & Hclock & Hio) Hrun.
  apply in_world_inv in Hrun as (Hrun & Hst' & Hf').
  pose proof (write_text_effect path text (s_world s1)) as Heff.
  rewrite Hrun in Heff. cbn [fst snd] in Heff.
  destruct Heff as (Ht & Hd & Hc & Hk & Hi).
  unfold at_point. rewrite Hst', Hf', Ht, Hd, Hc, Hk, Hi, Htxt.
  by destruct r.
Qed.

Lemma step_modify_state (g : WorkflowState → WorkflowState) s0 st f txt s1 :
  at_point s0 st f txt s1 →
  at_point s0 (g st) f txt
    {| s_world := s_world s1; s_state := g (s_state s1);
       s_feature := s_feature s1 |}.
Proof. unfold at_point. cbn. by intros (-> & ? & ? & ? & ? & ? & ?). Qed.

Lemma step_modify_feature (g : Feature.t → Feature.t) s0 st f txt s1 :
  at_point s0 st f txt s1 →
  at_point s0 st (g f) txt
    {| s_world := s_world s1; s_state := s_state s1;
       s_feature := g (s_feature s1) |}.
Proof. unfold at_point. cbn. by intros (? & -> & ? & ? & ? & ? & ?). Qed.

(** [record_command]: the record is appended and the save stamped on
    the state object whatever the save does; the save changes the state
    file and its temporary file only. *)
Lemma step_record_command mgr c s0 st f txt s1 r s2 :
  at_point s0 st f txt s1 →
  record_command mgr c s1 = (r, s2) →
  s_state s2 =
    set_last_updated (clock (s_world s0) (S (ticks (s_world s0))))
      (append_command
         {| command := c;
            timestamp := clock (s_world s0) (ticks (s_world s0)) |} st) ∧
  s_feature s2 = f ∧ texts (s_world s2) = txt ∧
  clock (s_world s2) = clock (s_world s0) ∧
  io_fault (s_world s2) = io_fault (s_world s0) ∧
  (∀ p, p ≠ sm_state_file mgr →
        p ≠ with_suffix ".tmp" (sm_state_file mgr) →
        docs (s_world s2) !! p = docs (s_world s0) !! p) ∧
  match r with
  | Return _ =>
      docs (s_world s2) !! sm_state_file mgr
        = Some (json_dump (state_document (s_state s2)))
  | Raise e => ∃ detail, e = StateSaveError detail
  end.
Proof.
  intros (Hst & Hf & Htxt & Hdocs & Hticks & Hclock & Hio).
  unfold record_command, save_state, bind, in_world, modify_state, modify,
    gets, now. cbn.
  set (st' := set_last_updated _ _).
  set (w1 := {| llm := llm (s_world s1); calls := _; texts := _; docs := _;
                clock := _; ticks := _; io_fault := _; io_ops := _ |}).
  destruct (write_json (sm_state_file mgr) (state_document st') w1)
    as [r' w2] eqn:Hwrite.
  intros [= <- <-]. cbn [s_state s_feature s_world].
  assert (with_suffix ".tmp" (sm_state_file mgr) ≠ sm_state_file mgr
          ∨ True) as _ by by right.
  assert (docs w1 = docs (s_world s0)) as Hdocs1 by done.
  assert (texts w1 = txt ∧ clock w1 = clock (s_world s0) ∧
          io_fault w1 = io_fault (s_world s0)) as (Htxt1 & Hclock1 & Hio1)
    by done.
  clearbody w1.
  assert (st' = set_last_updated (clock (s_world s0) (S (ticks (s_world s0))))
      (append_command
         {| command := c;
            timestamp := clock (s_world s0) (ticks (s_world s0)) |} st))
    as Hst'.
  { subst st'. by rewrite Hst, Hticks, Hclock. }
  revert Hwrite.
  unfold write_json, try_except, bind, modify, io_check, raise, set_docs.
  cbn.
  destruct (io_fault w1 (io_ops w1)) as [m1|]; cbn.
  { intros [= <- <-]. cbn. rewrite Hdocs1. repeat split; eauto. }
  destruct (io_fault w1 (S (io_ops w1))) as [m2|]; cbn.
  { intros [= <- <-]. cbn. rewrite Hdocs1. repeat split; eauto. }
  destruct (io_fault w1 (S (S (io_ops w1)))) as [m3|]; cbn.
  - intros [= <- <-]. cbn. rewrite Hdocs1.
    split; [done|]. split; [done|]. split; [done|]. split; [done|].
    split; [done|]. split; [|eauto].
    intros p _ Hp. by rewrite lookup_insert_ne.
  - intros [= <- <-]. cbn. rewrite Hdocs1.
    split; [done|]. split; [done|]. split; [done|]. split; [done|].
    split; [done|]. split; [|by rewrite lookup_insert_eq].
    intros p Hp1 Hp2. rewrite lookup_insert_ne by done.
    rewrite lookup_delete_ne by done. by rewrite lookup_insert_ne.
Qed.
End CommandSteps.

Section CommandOutcomes.
Context {L : Type} `{LLMProvider L} `{PromptBuilder} `{ArtifactPrompts}.
Variable workspace_root : string.
Implicit Types (w : World L) (s : Session L) (self : CommandExecutor).

(** A handler that raises before it records the command. *)
Local Ltac raised_early Hat :=
  let Hst := fresh in let Hf := fresh in let Htxt := fresh in
  let Hdocs := fresh in let Hticks := fresh in let Hclock := fresh in
  let Hio := fresh in
  destruct Hat as (Hst & Hf & Htxt & Hdocs & Hticks & Hclock & Hio);
  unfold command_outcome; cbn [fst snd];
  rewrite ?Hst, ?Hf, ?Htxt, ?Hdocs, ?Hclock, ?Hio;
  split; [done|]; split; [|split; [done|split; [done|split; [done|]]]];
  [ try done; intros ? ?; by rewrite lookup_insert_ne
  | by left ].

(** A handler that has recorded the command, whether the save returned
    or raised. *)
Local Ltac recorded_then Hrun :=
  let Hst := fresh in let Hf := fresh in let Htxt := fresh in
  let Hdocs := fresh in let Hclock := fresh in let Hio := fresh in
  let Hres := fresh in
  destruct Hrun as (Hst & Hf & Htxt & Hclock & Hio & Hdocs & Hres);
  unfold command_outcome;
  cbn [fst snd s_state s_world s_feature res_content res_file res_success];
  rewrite ?Hst in Hres |- *; rewrite ?Hf, ?Htxt, ?Hclock, ?Hio;
  unfold recorded;
  cbn [phase_after suggestion_after feature_after artifact_path];
  rewrite ?set_current_phase_same;
  split; [done|];
  split; [try done; intros ? ?; by rewrite lookup_insert_ne|];
  split; [done|]; split; [done|]; split; [done|];
  first
    [ right; split; [done|exact Hres]
    | split; [by destruct (s_state _)|];
      split; [done|]; split; [done|];
      split; [by rewrite lookup_insert_eq|done] ].

(** One step of a handler, [Hat] telling where it stands. *)
Local Ltac handler_step Hat :=
  lazymatch goal with
  | |- command_outcome _ _ _ (bind (gets _) _ _) =>
      rewrite bind_gets; cbv beta;
      rewrite ?(proj1 (proj2 Hat))
  | |- command_outcome _ _ _ (bind (modify_state ?g) _ _) =>
      unfold modify_state at 1; rewrite bind_modify;
      apply (step_modify_state g) in Hat
  | |- command_outcome _ _ _ (bind (modify_feature ?g) _ _) =>
      unfold modify_feature at 1; rewrite bind_modify;
      apply (step_modify_feature g) in Hat
  | |- command_outcome _ _ _ (bind (or_generic _ _) _ _) =>
      let Hrun := fresh "Hrun" in
      apply bind_case;
      [ intros ? ? Hrun; apply step_or_generic in Hrun as [-> _];
        raised_early Hat
      | intros ? ? Hrun; apply step_or_generic in Hrun as [-> _] ]
  | |- command_outcome _ _ _ (bind (read_existing _) _ _) =>
      let Hrun := fresh "Hrun" in
      apply bind_case;
      [ intros ? ? Hrun;
        apply (step_read_existing _ _ _ _ _ _ _ _ Hat) in Hrun as [Hrun _];
        raised_early Hrun
      | intros ? ? Hrun;
        apply (step_read_existing _ _ _ _ _ _ _ _ Hat) in Hrun as [Hrun _];
        clear Hat; rename Hrun into Hat ]
  | |- command_outcome _ _ _ (bind (in_world (text_exists _)) _ _) =>
      let Hrun := fresh "Hrun" in
      apply bind_case;
      [ intros ? ? Hrun;
        apply (step_text_exists _ _ _ _ _ _ _ _ Hat) in Hrun as [Hrun _];
        raised_early Hrun
      | intros ? ? Hrun;
        apply (step_text_exists _ _ _ _ _ _ _ _ Hat) in Hrun as [Hrun _];
        clear Hat; rename Hrun into Hat ]
  | |- command_outcome _ _ _ (bind (in_world (write_text _ _)) _ _) =>
      let Hrun := fresh "Hrun" in
      apply bind_case;
      [ intros ? ? Hrun;
        apply (step_write_text _ _ _ _ _ _ _ _ _ Hat) in Hrun;
        raised_early Hrun
      | intros ? ? Hrun;
        apply (step_write_text _ _ _ _ _ _ _ _ _ Hat) in Hrun;
        clear Hat; rename Hrun into Hat ]
  | |- command_outcome _ _ _ (bind (in_world ?m) _ _) =>
      let Hrun := fresh "Hrun" in
      let Hm := fresh "Hm" in
      assert (∀ w, same_disk w (m w).2) as Hm
        by (intros ?;
            first [ apply execute_with_fallback_same_disk
                  | apply generate_suggestions_same_disk
                  | apply io_check_same_disk
                  | apply read_text_same_disk ]);
      apply bind_case;
      [ intros ? ? Hrun;
        apply (step_in_world m _ _ _ _ _ _ _ Hm Hat) in Hrun;
        raised_early Hrun
      | intros ? ? Hrun;
        apply (step_in_world m _ _ _ _ _ _ _ Hm Hat) in Hrun;
        clear Hat Hm; rename Hrun into Hat ]
  | |- command_outcome _ _ _ (bind (record_command _ _) _ _) =>
      let Hrun := fresh "Hrun" in
      apply bind_case;
      [ intros ? ? Hrun;
        apply (step_record_command _ _ _ _ _ _ _ _ _ Hat) in Hrun;
        recorded_then Hrun
      | intros ? ? Hrun;
        apply (step_record_command _ _ _ _ _ _ _ _ _ Hat) in Hrun;
        try (unfold modify_state at 1; rewrite bind_modify);
        unfold ret;
        recorded_then Hrun ]
  | |- command_outcome _ _ _ ((let '(_, _) := ?p in _) _) =>
      destruct p
  | |- command_outcome _ _ _ ((if negb ?b then _ else _) _) =>
      destruct b; cbn [negb]
  | |- command_outcome _ _ _ (match ?o with Some _ => _ | None => _ end _) =>
      destruct o
  | |- command_outcome _ _ _ (match ?l with [] => _ | _ :: _ => _ end _) =>
      destruct l
  | |- command_outcome _ _ _ (raise _ _) =>
      unfold raise; raised_early Hat
  end.

Lemma outcome_checklist self user_input selected s0 s1 :
  at_point s0 (s_state s0) (s_feature s0) (texts (s_world s0)) s1 →
  command_outcome workspace_root CHECKLIST s0
    (execute_checklist self user_input selected s1).
Proof.
  intros Hat. unfold execute_checklist.
  repeat handler_step Hat.
Qed.

Lemma outcome_specify self user_input selected s0 s1 :
  at_point s0 (s_state s0) (s_feature s0) (texts (s_world s0)) s1 →
  command_outcome workspace_root SPECIFY s0
    (execute_specify self user_input selected s1).
Proof.
  intros Hat. unfold execute_specify.
  repeat handler_step Hat.
Qed.

Lemma outcome_plan self user_input selected s0 s1 :
  at_point s0 (s_state s0) (s_feature s0) (texts (s_world s0)) s1 →
  command_outcome workspace_root PLAN s0
    (execute_plan self user_input selected s1).
Proof.
  intros Hat. unfold execute_plan.
  repeat handler_step Hat.
Qed.

Lemma outcome_clarify self user_input selected s0 s1 :
  at_point s0 (s_state s0) (s_feature s0) (texts (s_world s0)) s1 →
  command_outcome workspace_root CLARIFY s0
    (execute_clarify self user_input selected s1).
Proof.
  intros Hat. unfold execute_clarify.
  repeat handler_step Hat.
Qed.

Lemma outcome_tasks self user_input selected s0 s1 :
  at_point s0 (s_state s0) (s_feature s0) (texts (s_world s0)) s1 →
  command_outcome workspace_root TASKS s0
    (execute_tasks self user_input selected s1).
Proof.
  intros Hat. unfold execute_tasks.
  repeat handler_step Hat.
Qed.

Lemma outcome_implement self user_input selected s0 s1 :
  at_point s0 (s_state s0) (s_feature s0) (texts (s_world s0)) s1 →
  command_outcome workspace_root IMPLEMENT s0
    (execute_implement self user_input selected s1).
Proof.
  intros Hat. unfold execute_implement.
  repeat handler_step Hat.
Qed.

Lemma outcome_analyze self user_input selected s0 s1 :
  at_point s0 (s_state s0) (s_feature s0) (texts (s_world s0)) s1 →
  command_outcome workspace_root ANALYZE s0
    (execute_analyze self user_input selected s1).
Proof.
  intros Hat. unfold execute_analyze.
  repeat handler_step Hat.
Qed.

Lemma outcome_constitution self user_input selected s0 s1 :
  at_point s0 (s_state s0) (s_feature s0) (texts (s_world s0)) s1 →
  command_outcome workspace_root CONSTITUTION s0
    (execute_constitution workspace_root self user_input selected s1).
Proof.
  intros Hat. unfold execute_constitution.
  repeat handler_step Hat.
Qed.

Variable enum_format : EnumFormat.

Lemma command_handlers_outcome self c user_input selected s :
  command_outcome workspace_root c s
    (command_handlers workspace_root self c user_input selected s).
Proof.
  destruct c; cbn [command_handlers];
    [ apply outcome_constitution | apply outcome_specify
    | apply outcome_clarify | apply outcome_plan | apply outcome_tasks
    | apply outcome_implement | apply outcome_analyze
    | apply outcome_checklist ]; apply at_point_start.
Qed.

(** The agents the dispatcher hands to the handler. *)
Lemma execute_command_unfold self c user_input agent_override s :
  execute_command workspace_root enum_format self c user_input
    agent_override s =
  match command_handlers workspace_root self c user_input
          match agent_override with
          | [] => select_agents_for_command (agent_manager self) c
          | _ => agent_override
          end s with
  | (Return r, s') => (Return r, s')
  | (Raise e, s') =>
      (Raise (CommandExecutionError
                ("Command " +:+ format_command enum_format c +:+
                 " failed: " +:+ exn_str e)), s')
  end.
Proof. reflexivity. Qed.

Lemma execute_command_return_inv self c user_input agent_override s r s' :
  execute_command workspace_root enum_format self c user_input
    agent_override s = (Return r, s') →
  ∃ selected,
    command_handlers workspace_root self c user_input selected s
    = (Return r, s').
Proof.
  rewrite execute_command_unfold.
  destruct (command_handlers _ _ _ _ _ _) as [[r'|e] s1] eqn:Hrun;
    intros [= <- <-]. eauto.
Qed.

(** X16: when a command returns, the state object has the phase of the
    command ([specify], [plan], [tasks], [implement] and [constitution]
    set their own; [clarify], [analyze] and [checklist] keep the phase
    they found, so that no command moves the workflow to the phases
    [clarify] or [draft]), the history is one record longer, with the
    command and the time of the first clock reading, the suggestion is
    [plan] after [specify], [tasks] after [plan], [implement] after
    [tasks] and otherwise the one that was there, and every other field
    but [last_updated] is as before. The artifact of the command holds
    the content returned, and the feature has its [plan_file] or
    [tasks_file] set by [plan] and [tasks]. *)
Theorem execute_command_returns (self : CommandExecutor) (c : CommandType)
    (user_input : option string) (agent_override : list AgentDefinition)
    (s s' : Session L) (r : HandlerResult) :
  execute_command workspace_root enum_format self c user_input
    agent_override s = (Return r, s') →
  current_phase (s_state s') = phase_after c (current_phase (s_state s)) ∧
  (current_phase (s_state s') = PH_CLARIFY ∨
   current_phase (s_state s') = PH_DRAFT →
   current_phase (s_state s') = current_phase (s_state s)) ∧
  completed_commands (s_state s') =
    completed_commands (s_state s) ++
    [ {| command := c;
         timestamp := clock (s_world s) (ticks (s_world s)) |} ] ∧
  suggested_next (s_state s') =
    suggestion_after c (suggested_next (s_state s)) ∧
  feature_id (s_state s') = feature_id (s_state s) ∧
  context_data (s_state s') = context_data (s_state s) ∧
  last_checkpoint (s_state s') = last_checkpoint (s_state s) ∧
  state_file (s_state s') = state_file (s_state s) ∧
  last_updated (s_state s') = clock (s_world s) (S (ticks (s_world s))) ∧
  s_feature s' = feature_after workspace_root c (s_feature s) ∧
  res_file r = artifact_path workspace_root c (s_feature s) ∧
  texts (s_world s') !! res_file r = Some (res_content r) ∧
  res_success r = true.
Proof.
  intros Hrun. apply execute_command_return_inv in Hrun as [selected Hrun].
  pose proof (command_handlers_outcome self c user_input selected s) as Hout.
  rewrite Hrun in Hout. unfold command_outcome in Hout. cbn [fst snd] in Hout.
  destruct Hout as (_ & _ & _ & _ & _ & Hst & Hf & _ & Htxt & Hfile & Hok).
  rewrite Hst, Hfile. cbn.
  repeat split; try done.
  destruct c; cbn; intros [?|?]; congruence.
Qed.

(** X17: the suggestion is assigned after the state was saved, so it is
    not in the state file: when a command has returned, what [load_state]
    reads back has the new phase and the new history but the suggestion
    from before the command. *)
Theorem execute_command_reload (self : CommandExecutor) (c : CommandType)
    (user_input : option string) (agent_override : list AgentDefinition)
    (s s' : Session L) (r : HandlerResult) (fid : string) :
  execute_command workspace_root enum_format self c user_input
    agent_override s = (Return r, s') →
  no_io_faults (s_world s) →
  valid_state (s_state s) →
  valid_datetime (clock (s_world s) (ticks (s_world s))) = true →
  valid_datetime (clock (s_world s) (S (ticks (s_world s)))) = true →
  map_Forall (fun _ => json_native) (context_data (s_state s)) →
  ∃ loaded,
    (load_state (new_StateManager (Feature.spec_dir (s_feature s))) fid
       (s_world s')).1 = Return loaded ∧
    suggested_next loaded = suggested_next (s_state s) ∧
    current_phase loaded = current_phase (s_state s') ∧
    completed_commands loaded = completed_commands (s_state s') ∧
    last_updated loaded = last_updated (s_state s').
Proof.
  intros Hrun Hok (Hcmds & Hlc & Hlu) Ht Ht' Hctx.
  apply execute_command_return_inv in Hrun as [selected Hrun].
  pose proof (command_handlers_outcome self c user_input selected s) as Hout.
  rewrite Hrun in Hout. unfold command_outcome in Hout. cbn [fst snd] in Hout.
  destruct Hout as (_ & _ & _ & _ & Hio & Hst & _ & Hdoc & _).
  assert (no_io_faults (s_world s')) as Hok'.
  { intros n. rewrite Hio. apply Hok. }
  destruct (load_state_stored _ fid _ _ Hok' Hdoc) as (w2 & Hload).
  - split; [|done]. cbn. apply Forall_app. split; [done|].
    by repeat constructor.
  - done.
  - rewrite Hload, Hst. by eexists.
Qed.

(** X18: whatever a command does, it writes no artifact but its own and
    no document but the state file of the feature and the temporary file
    beside it; it leaves the identity and the paths of the feature, the
    clock and the file system's behaviour alone. *)
Theorem execute_command_frame (self : CommandExecutor) (c : CommandType)
    (user_input : option string) (agent_override : list AgentDefinition)
    (s : Session L) :
  let out := execute_command workspace_root enum_format self c user_input
               agent_override s in
  let mgr := new_StateManager (Feature.spec_dir (s_feature s)) in
  (∀ p, p ≠ artifact_path workspace_root c (s_feature s) →
        texts (s_world out.2) !! p = texts (s_world s) !! p) ∧
  (∀ p, p ≠ sm_state_file mgr →
        p ≠ with_suffix ".tmp" (sm_state_file mgr) →
        docs (s_world out.2) !! p = docs (s_world s) !! p) ∧
  Feature.id (s_feature out.2) = Feature.id (s_feature s) ∧
  Feature.name (s_feature out.2) = Feature.name (s_feature s) ∧
  Feature.branch (s_feature out.2) = Feature.branch (s_feature s) ∧
  Feature.spec_dir (s_feature out.2) = Feature.spec_dir (s_feature s) ∧
  Feature.spec_file (s_feature out.2) = Feature.spec_file (s_feature s) ∧
  clock (s_world out.2) = clock (s_world s) ∧
  io_fault (s_world out.2) = io_fault (s_world s).
Proof.
  intros out mgr. subst out. rewrite execute_command_unfold.
  set (selected := match agent_override with [] => _ | _ => _ end).
  pose proof (command_handlers_outcome self c user_input selected s) as Hout.
  unfold command_outcome in Hout.
  destruct (command_handlers _ _ _ _ _ _) as [[r|e] s1]; cbn [fst snd] in *;
    by destruct Hout as ((? & ? & ? & ? & ?) & ? & ? & ? & ? & _).
Qed.

(** X19: a command that fails raises a [CommandExecutionError] whose text
    is that of the failure behind the words Command, the command as the
    format of the enumeration prints it, and failed; and it leaves the
    state object either as it found it, with the documents on disk
    untouched, or with the phase assigned and the command recorded
    although the save that followed did not go through. *)
Theorem execute_command_raises (self : CommandExecutor) (c : CommandType)
    (user_input : option string) (agent_override : list AgentDefinition)
    (s s' : Session L) (e : exn) :
  execute_command workspace_root enum_format self c user_input
    agent_override s = (Raise e, s') →
  (∃ detail,
     e = CommandExecutionError
           ("Command " +:+ format_command enum_format c +:+ " failed: "
            +:+ detail)) ∧
  ((s_state s' = s_state s ∧ docs (s_world s') = docs (s_world s)) ∨
   s_state s' =
     recorded c (clock (s_world s) (ticks (s_world s)))
       (clock (s_world s) (S (ticks (s_world s)))) (s_state s)).
Proof.
  rewrite execute_command_unfold.
  set (selected := match agent_override with [] => _ | _ => _ end).
  pose proof (command_handlers_outcome self c user_input selected s) as Hout.
  unfold command_outcome in Hout.
  destruct (command_handlers _ _ _ _ _ _) as [[r|e'] s1]; cbn [fst snd] in *;
    intros [= <- <-].
  split; [by eexists|].
  destruct Hout as (_ & _ & _ & _ & _ & [Hsame|[Hrec _]]); [by left|by right].
Qed.
End CommandOutcomes.

Section Prerequisites.
Context {L : Type} `{LLMProvider L} `{PromptBuilder} `{ArtifactPrompts}.
Variable workspace_root : string.
Variable enum_format : EnumFormat.
Implicit Types (w : World L) (s : Session L) (self : CommandExecutor).

Lemma read_existing_missing path w st f :
  present (texts w) path = false →
  read_existing path {| s_world := w; s_state := st; s_feature := f |}
  = (Return None, {| s_world := w; s_state := st; s_feature := f |}).
Proof.
  unfold present, read_existing. intros Hmiss.
  destruct path as [p|]; [|done]. cbn in Hmiss.
  unfold bind, in_world, text_exists, gets, ret. cbn. by rewrite Hmiss.
Qed.

Lemma or_generic_selected self (selected other : list AgentDefinition) s :
  selected ≠ [] →
  or_generic self match selected with [] => other | _ => selected end s
  = (Return selected, s).
Proof. by destruct selected. Qed.

Lemma or_generic_none self c s :
  select_agents_for_command (agent_manager self) c = [] →
  or_generic self
    match select_agents_for_command (agent_manager self) c with
    | [] => select_agents_for_command (agent_manager self) c
    | _ => select_agents_for_command (agent_manager self) c
    end s
  = (Raise (CommandExecutionError "No agents available"), s).
Proof.
  intros Hnone. rewrite Hnone. unfold or_generic.
  assert (get_generic_agent (agent_manager self) = None) as ->; [|done].
  revert Hnone. unfold select_agents_for_command.
  destruct (get_generic_agent _) as [g|]; [|done].
  destruct (COMMAND_CAPABILITIES c); [done|].
  by destruct (select_agents _ _ _).
Qed.

Lemma text_exists_missing path w st f :
  present (texts w) (Some path) = false →
  in_world (text_exists path)
    {| s_world := w; s_state := st; s_feature := f |}
  = (Return false, {| s_world := w; s_state := st; s_feature := f |}).
Proof.
  unfold present, in_world, text_exists, gets. cbn. by intros ->.
Qed.

Local Ltac missing_step :=
  first [ rewrite bind_gets
        | unfold bind at 1;
          first [ rewrite read_existing_missing by done
                | rewrite text_exists_missing by done
                | rewrite or_generic_selected by auto ] ];
  cbn [s_feature negb add_artifact add_context str_truthy].

(** X20: a command whose artifacts are missing says so and does nothing
    else: no file operation, no invocation of the provider, no change to
    state or feature. [plan], [clarify] and [tasks] look for their
    artifact first; [implement], [analyze] and [checklist] look for
    agents first and report the missing artifacts when they have one. *)
Theorem missing_artifacts_reported (self : CommandExecutor)
    (c : CommandType) (user_input : option string)
    (agent_override : list AgentDefinition) (s : Session L)
    (msg : string) :
  missing_artifacts c (s_feature s) (texts (s_world s)) = Some msg →
  (checks_agents_first c = true →
   agent_override ≠ [] ∨
   select_agents_for_command (agent_manager self) c ≠ []) →
  execute_command workspace_root enum_format self c user_input
    agent_override s
  = (Raise (command_failed enum_format c msg), s).
Proof.
  intros Hmsg Hagents.
  set (selected := match agent_override with
                   | [] => select_agents_for_command (agent_manager self) c
                   | _ => agent_override
                   end).
  assert (checks_agents_first c = true → selected ≠ []) as Hsel.
  { intros Hc. subst selected.
    destruct (Hagents Hc) as [?|?]; by destruct agent_override. }
  unfold execute_command, try_except. fold selected. clearbody selected.
  destruct s as [w st f]. cbn [s_feature s_world texts] in Hmsg.
  unfold missing_artifacts in Hmsg.
  destruct c; try discriminate Hmsg; cbn [command_handlers];
    try specialize (Hsel eq_refl).
  - destruct (present _ _) eqn:Hspec; [done|]. injection Hmsg as <-.
    unfold execute_clarify.
    repeat missing_step. done.
  - destruct (present _ _) eqn:Hspec; [done|]. injection Hmsg as <-.
    unfold execute_plan.
    repeat missing_step. done.
  - destruct (present _ _) eqn:Hplan; [done|]. injection Hmsg as <-.
    unfold execute_tasks.
    repeat missing_step. done.
  - destruct (present _ _) eqn:Htasks; [done|]. injection Hmsg as <-.
    unfold execute_implement. repeat missing_step. done.
  - destruct (present _ (Some _)) eqn:Hspec; [done|].
    destruct (present _ (Feature.plan_file f)) eqn:Hplan; [done|].
    destruct (present _ (Feature.tasks_file f)) eqn:Htasks; [done|].
    injection Hmsg as <-.
    unfold execute_analyze. repeat missing_step. done.
  - destruct (present _ (Some _)) eqn:Hspec; [done|].
    destruct (present _ (Feature.plan_file f)) eqn:Hplan; [done|].
    destruct (present _ (Feature.tasks_file f)) eqn:Htasks; [done|].
    injection Hmsg as <-.
    unfold execute_checklist. repeat missing_step. done.
Qed.

(** X21: [specify], [implement], [analyze], [checklist] and
    [constitution] first make sure there is an agent: without an
    override, without an agent selected for the command and hence
    without a generic agent, they fail with No agents available before
    they read any file or invoke the provider, also when their artifacts
    are missing. *)
Theorem no_agents_available (self : CommandExecutor) (c : CommandType)
    (user_input : option string) (s : Session L) :
  checks_agents_first c = true →
  select_agents_for_command (agent_manager self) c = [] →
  execute_command workspace_root enum_format self c user_input [] s
  = (Raise (command_failed enum_format c "No agents available"), s).
Proof.
  intros Hc Hnone. unfold execute_command, try_except.
  destruct c; try discriminate Hc; cbn [command_handlers].
  - unfold execute_constitution, bind at 1.
    by rewrite or_generic_none.
  - unfold execute_specify, bind at 1. rewrite Hnone. unfold or_generic.
    assert (get_generic_agent (agent_manager self) = None) as ->; [|done].
    revert Hnone. unfold select_agents_for_command. cbn.
    by destruct (get_generic_agent _).
  - unfold execute_implement, bind at 1. by rewrite or_generic_none.
  - unfold execute_analyze, bind at 1. by rewrite or_generic_none.
  - unfold execute_checklist, bind at 1. by rewrite or_generic_none.
Qed.
End Prerequisites.

Lemma execute_command_returns_witness :
  current_phase (s_state scenario_command.2) = PH_SPECIFY ∧
  suggested_next (s_state scenario_command.2) = Some PLAN ∧
  res_file (returned_or no_result scenario_command.1)
  = "specs/001-login/spec.md".
Proof.
  assert (execute_command "." FormatName sample_executor SPECIFY
            (Some "Login with password") []
            (draft_session [Return "# Login"; Return "- plan next"])
          = (Return (returned_or no_result scenario_command.1),
             scenario_command.2)) as Hrun by (vm_compute; reflexivity).
  destruct (execute_command_returns "." FormatName sample_executor SPECIFY
              (Some "Login with password") []
              (draft_session [Return "# Login"; Return "- plan next"])
              scenario_command.2
              (returned_or no_result scenario_command.1) Hrun)
    as (Hphase & _ & _ & Hnext & _ & _ & _ & _ & _ & _ & Hfile & _).
  split; [exact Hphase|]. split; [exact Hnext|exact Hfile].
Defined.

Lemma execute_command_reload_witness :
  suggested_next (s_state scenario_command.2) = Some PLAN ∧
  ∃ loaded,
    (load_state (new_StateManager "specs/001-login") "001"
       (s_world scenario_command.2)).1 = Return loaded ∧
    suggested_next loaded = None.
Proof.
  assert (execute_command "." FormatName sample_executor SPECIFY
            (Some "Login with password") []
            (draft_session [Return "# Login"; Return "- plan next"])
          = (Return (returned_or no_result scenario_command.1),
             scenario_command.2)) as Hrun by (vm_compute; reflexivity).
  split; [vm_compute; reflexivity|].
  destruct (execute_command_reload "." FormatName sample_executor SPECIFY
              (Some "Login with password") []
              (draft_session [Return "# Login"; Return "- plan next"])
              scenario_command.2
              (returned_or no_result scenario_command.1) "001" Hrun)
    as (loaded & Hload & Hnext & _).
  - intros n. reflexivity.
  - split; [constructor|split; reflexivity].
  - reflexivity.
  - reflexivity.
  - apply map_Forall_empty.
  - exists loaded. split; [exact Hload|exact Hnext].
Defined.

Lemma execute_command_raises_witness :
  ∃ detail,
    raised_or (BuiltinError "") scenario_refused.1
    = CommandExecutionError
        ("Command CommandType.SPECIFY failed: " +:+ detail).
Proof.
  assert (execute_command "." FormatName sample_executor SPECIFY None []
            (draft_session [])
          = (Raise (raised_or (BuiltinError "") scenario_refused.1),
             scenario_refused.2)) as Hrun by (vm_compute; reflexivity).
  destruct (execute_command_raises "." FormatName sample_executor SPECIFY
              None [] (draft_session []) scenario_refused.2
              (raised_or (BuiltinError "") scenario_refused.1) Hrun)
    as [Hexn _].
  exact Hexn.
Defined.

Lemma missing_artifacts_reported_witness :
  execute_command "." FormatValue sample_executor IMPLEMENT None []
    (draft_session [])
  = (Raise (CommandExecutionError
              "Command implement failed: Tasks file not found. Run /speckit.tasks first."),
     draft_session []).
Proof.
  apply (missing_artifacts_reported "." FormatValue sample_executor
           IMPLEMENT None [] (draft_session [])).
  - reflexivity.
  - intros _. right. vm_compute. discriminate.
Defined.

Lemma no_agents_available_witness :
  execute_command "." FormatValue bare_executor ANALYZE None []
    (draft_session [])
  = (Raise (CommandExecutionError
              "Command analyze failed: No agents available"),
     draft_session []).
Proof.
  apply (no_agents_available "." FormatValue bare_executor ANALYZE None
           (draft_session [])); reflexivity.
Defined.

(** ** What the REPL shows *)

Lemma prefix_lower n h :
  String.prefix n h = true → String.prefix (lower n) (lower h) = true.
Proof.
  revert h. induction n as [|a n IH]; intros [|b h]; cbn; try done.
  destruct (ascii_dec a b) as [->|]; [|done]. intros Hp.
  destruct (ascii_dec _ _); [by apply IH|done].
Qed.

Lemma contains_lower n h :
  contains n h = true → contains (lower n) (lower h) = true.
Proof.
  induction h as [|b h IH]; cbn [contains lower].
  - rewrite !orb_false_r. apply (prefix_lower n "").
  - intros [Hp|Hc]%orb_true_iff.
    + apply prefix_lower in Hp. cbn [lower] in Hp. by rewrite Hp.
    + rewrite (IH Hc). apply orb_true_r.
Qed.

Lemma prefix_trans n' n h :
  String.prefix n' n = true → String.prefix n h = true →
  String.prefix n' h = true.
Proof.
  revert n h. induction n' as [|a n' IH]; intros [|b n] [|c h]; cbn;
    try done.
  destruct (ascii_dec a b) as [->|]; [|done]. intros Hp.
  destruct (ascii_dec b c) as [->|]; [|done]. by apply IH.
Qed.

Lemma contains_shorter n' n h :
  String.prefix n' n = true → contains n h = true → contains n' h = true.
Proof.
  intros Hn. induction h as [|b h IH]; cbn [contains].
  - rewrite !orb_false_r. by apply prefix_trans.
  - intros [Hp|Hc]%orb_true_iff.
    + by rewrite (prefix_trans _ _ _ Hn Hp).
    + rewrite (IH Hc). apply orb_true_r.
Qed.

(** A text that says Authentication failed, in whatever case, carries the
    marker [execute_with_fallback] looks for; likewise for the rate
    limit. *)
Lemma auth_marker_said error_msg :
  contains "Authentication failed" error_msg = true →
  auth_marker error_msg = true.
Proof.
  intros Hc. apply contains_lower in Hc.
  apply (contains_shorter "authentication") in Hc; [|done].
  unfold auth_marker. by rewrite Hc.
Qed.

Lemma rate_limit_marker_said error_msg :
  contains "Rate limit exceeded" error_msg = true →
  rate_limit_marker error_msg = true.
Proof.
  intros Hc. apply contains_lower in Hc.
  apply (contains_shorter "rate limit") in Hc; [|done].
  unfold rate_limit_marker. by rewrite Hc.
Qed.

Lemma display_error_final_error (fmt : EnumFormat) (c : CommandType)
    (error_msg : string) :
  display_error (exn_str (command_failed fmt c
                            (exn_str (final_error error_msg)))) =
  if auth_marker error_msg then ShowAuthenticationFailed
  else if rate_limit_marker error_msg then ShowRateLimitExceeded
  else ShowCommandFailed
         ("Command " +:+ format_command fmt c +:+ " failed: " +:+
          other_message error_msg).
Proof.
  unfold final_error, display_error, command_failed.
  destruct (auth_marker error_msg) eqn:Hauth; cbn [exn_str].
  - rewrite (contains_app_r _ "Command "); [done|].
    rewrite contains_app_r; [done|]. rewrite contains_app_r; [done|].
    apply contains_starts. vm_compute. reflexivity.
  - assert (contains "Authentication failed" error_msg = false) as Hno_auth.
    { destruct (contains "Authentication failed" error_msg) eqn:Hc; [|done].
      apply auth_marker_said in Hc. congruence. }
    destruct (rate_limit_marker error_msg) eqn:Hrate; cbn [exn_str].
    + assert (contains "Authentication failed"
                ("Command " +:+ format_command fmt c +:+ " failed: " +:+
                 rate_limit_message error_msg)
              = contains "Authentication failed" error_msg) as ->
        by (destruct fmt, c; vm_compute; reflexivity).
      rewrite Hno_auth.
      rewrite (contains_app_r _ "Command "); [done|].
      rewrite contains_app_r; [done|]. rewrite contains_app_r; [done|].
      apply contains_starts. vm_compute. reflexivity.
    + assert (contains "Rate limit exceeded" error_msg = false) as Hno_rate.
      { destruct (contains "Rate limit exceeded" error_msg) eqn:Hc; [|done].
        apply rate_limit_marker_said in Hc. congruence. }
      assert (contains "Authentication failed"
                ("Command " +:+ format_command fmt c +:+ " failed: " +:+
                 other_message error_msg)
              = contains "Authentication failed" error_msg) as ->
        by (destruct fmt, c; vm_compute; reflexivity).
      assert (contains "Rate limit exceeded"
                ("Command " +:+ format_command fmt c +:+ " failed: " +:+
                 other_message error_msg)
              = contains "Rate limit exceeded" error_msg) as ->
        by (destruct fmt, c; vm_compute; reflexivity).
      by rewrite Hno_auth, Hno_rate.
Qed.

(** X22: for a command that failed because every agent failed, the REPL
    shows the class [execute_with_fallback] chose: Authentication failed
    when, letter case aside, [authentication] or [api key] occurs in the
    text of the last failure, or [401] occurs in it; Rate limit exceeded
    when it is no such text and, letter case aside, [rate limit] occurs
    in it, or [429] does; and otherwise the whole text of the error
    behind Command failed. This holds for every command and for both
    ways the command is printed in the text of the
    [CommandExecutionError]. *)
Theorem display_error_agrees (fmt : EnumFormat) (c : CommandType)
    (error_msg : string) :
  let shown :=
    display_error (exn_str (command_failed fmt c
                              (exn_str (final_error error_msg)))) in
  (authentication_text error_msg → shown = ShowAuthenticationFailed) ∧
  (¬ authentication_text error_msg → rate_limit_text error_msg →
   shown = ShowRateLimitExceeded) ∧
  (¬ authentication_text error_msg → ¬ rate_limit_text error_msg →
   shown = ShowCommandFailed
             ("Command " +:+ format_command fmt c +:+
              " failed: All agents failed to execute." +:+ nl +:+
              "Error: " +:+ error_msg)).
Proof.
  intros shown. subst shown. rewrite display_error_final_error.
  pose proof (auth_marker_spec error_msg) as Hauth.
  pose proof (rate_limit_marker_spec error_msg) as Hrate.
  destruct (auth_marker error_msg).
  { split; [done|]. split; intros Hno; destruct Hno; by apply Hauth. }
  split; [by intros ?%Hauth|].
  destruct (rate_limit_marker error_msg).
  { split; [done|]. intros _ Hno. destruct Hno. by apply Hrate. }
  split; [by intros _ ?%Hrate|]. by intros _ _.
Qed.
